(** * Streaming sessions of the Gradium Go SDK

    A shallow embedding of the two streaming modules, [tts.go]
    ([TTSStream]) and the speech-to-text stream ([STTStream]), with the
    Go runtime pieces they rest on: buffered channels, [sync.Once], the
    deferred calls of a goroutine, and the decoders of [encoding/json]
    and [encoding/base64], which are taken as an interface ([Codec]) so
    that every result holds whatever those libraries answer.  The calls
    built on the streams ([Create], [Transcribe]) and the REST side (the
    error types and [handleAPIError], the URL of [Voices.List], the
    client and its options) come after them. *)

From Equations Require Import Equations.
From Stdlib Require Import List String Ascii NArith ZArith Bool Arith Lia.
From Stdlib Require Import DecimalString.
From Stdlib.Strings Require Import Byte.
From Stdlib Require Import SpecFloat.
Import ListNotations.
Open Scope string_scope.
Open Scope list_scope.

Set Implicit Arguments.

(** ** Go values *)

(** [[]byte]. *)
Definition bytes := list byte.

(** A [float64] is only carried from a frame to a result, never computed on. *)
Definition float64 := spec_float.
Definition float64_zero : float64 := S754_zero false.

(** The [error] values these modules build or pass on; Go's [nil] error
    is [None] of [option error]. *)
Inductive error : Type :=
| WebSocketError (Message : string) (Code : Z)
| ConnectionError (Message : string)
| ContextError (why : string)
| TransportError (why : string).

(** ** Channels

    A Go channel made by [make(chan T, cap)]: its capacity, the queued
    items (oldest first) and whether it has been closed. *)
Module Chan.

Record chan (A : Type) : Type := mkChan {
  cap : nat;
  buf : list A;
  closed : bool
}.

Definition make (A : Type) (n : nat) : chan A :=
  {| cap := n; buf := []; closed := false |}.

(** [select { case ch <- x: default: }]: the send goes through when the
    queue has room and is skipped otherwise; the boolean tells which.
    (A receiver can only be waiting on an empty queue, which has room as
    the capacity is positive.)  A send on a closed channel panics
    ([None]). *)
Definition try_send (A : Type) (x : A) (c : chan A) : option (bool * chan A) :=
  if closed c then None
  else if (List.length (buf c) <? cap c)%nat
       then Some (true, {| cap := cap c; buf := buf c ++ [x]; closed := false |})
       else Some (false, c).

(** [close(ch)]: closing a closed channel panics ([None]). *)
Definition close (A : Type) (c : chan A) : option (chan A) :=
  if closed c then None
  else Some {| cap := cap c; buf := buf c; closed := true |}.

(** [x, ok := <-ch] as seen by a receiver that is ready to take. *)
Inductive received (A : Type) : Type :=
| Item (x : A) (rest : chan A)
| Closed
| Empty.
Arguments Closed {A}.
Arguments Empty {A}.

Definition recv (A : Type) (c : chan A) : received A :=
  match buf c with
  | x :: r => Item x {| cap := cap c; buf := r; closed := closed c |}
  | [] => if closed c then Closed else Empty
  end.

End Chan.
Import Chan.

(** ** Goroutine bodies: state, with panics *)

Inductive result (S A : Type) : Type :=
| Ok (a : A) (s : S)
| Panic (why : string).
Arguments Panic {S A}.

Definition Go (S A : Type) : Type := S -> result S A.

Definition ret {S A : Type} (a : A) : Go S A := fun s => Ok a s.
Definition bind {S A B : Type} (m : Go S A) (k : A -> Go S B) : Go S B :=
  fun s => match m s with
           | Ok a s' => k a s'
           | Panic why => Panic why
           end.
Definition get {S : Type} : Go S S := fun s => Ok s s.
Definition panic {S A : Type} (why : string) : Go S A := fun _ => Panic why.
Definition when {S : Type} (b : bool) (m : Go S unit) : Go S unit :=
  if b then m else ret tt.

Declare Scope go_scope.
Delimit Scope go_scope with go.
Notation "x <- m ;; k" := (bind m (fun x => k))
  (at level 61, m at next level, right associativity) : go_scope.
Notation "m ;; k" := (bind m (fun _ => k))
  (at level 61, right associativity) : go_scope.
Open Scope go_scope.

(** ** The connection

    [websocket.Conn] belongs to a library; a read is an input of the
    model, and what the transport answers to [Close] is a field. *)
Inductive ReadResult (Data : Type) : Type :=
| ReadOK (data : Data)
| ReadErr (why : string).
Arguments ReadErr {Data}.

Record Conn : Type := mkConn {
  closeErr : option error;  (* what the transport's Close reports *)
  closeCalls : nat          (* how often Close reached the transport *)
}.

Definition Conn_Close (c : Conn) : option error * Conn :=
  (closeErr c, {| closeErr := closeErr c; closeCalls := S (closeCalls c) |}).

(** ** types.go

    Field names are the source's; where two structs have a field of one
    name, a prefix made of the struct's initials tells them apart. *)

Definition OutputFormat := string.
Definition FormatWAV : OutputFormat := "wav".
Definition FormatPCM : OutputFormat := "pcm".
Definition FormatOpus : OutputFormat := "opus".
Definition FormatULaw8000 : OutputFormat := "ulaw_8000".
Definition FormatALaw8000 : OutputFormat := "alaw_8000".
Definition FormatPCM16000 : OutputFormat := "pcm_16000".
Definition FormatPCM24000 : OutputFormat := "pcm_24000".

Definition InputFormat := string.
Definition InputFormatPCM : InputFormat := "pcm".
Definition InputFormatWAV : InputFormat := "wav".
Definition InputFormatOpus : InputFormat := "opus".

Record TTSConfig : Type := { PaddingBonus : float64 }.

Record TTSParams : Type := {
  tp_VoiceID : string;
  tp_OutputFormat : OutputFormat;
  tp_ModelName : string;
  tp_Text : string;
  tp_JSONConfig : option TTSConfig
}.

Record TTSResult : Type := {
  RawData : bytes;
  SampleRate : Z;
  tr_RequestID : string
}.

Record STTParams : Type := {
  sp_InputFormat : InputFormat;
  sp_ModelName : string
}.

Record STTReadyInfo : Type := {
  ri_RequestID : string;
  ri_ModelName : string;
  ri_SampleRate : Z;
  ri_FrameSize : Z;
  ri_DelayInTokens : Z;
  ri_TextStreamNames : list string
}.

Record STTTextResult : Type := {
  Text : string;
  StartS : float64;
  StreamID : option Z
}.

Record VADPrediction : Type := {
  HorizonS : float64;
  InactivityProb : float64
}.

Record STTStepResult : Type := {
  VAD : list VADPrediction;
  StepIdx : Z;
  StepDurationS : float64;
  TotalDurationS : float64
}.

Record STTEndTextResult : Type := {
  StopS : float64;
  et_StreamID : option Z
}.

(** The wire messages ([Type] is a keyword here, hence [Type_]). *)
Record wsMessage : Type := { Type_ : string }.

Record ttsSetupMessage : Type := {
  tsm_Type : string;
  tsm_VoiceID : string;
  tsm_OutputFormat : OutputFormat;
  tsm_ModelName : string;
  tsm_JSONConfig : option (list (string * float64))
}.

Record ttsReadyMessage : Type := { trm_Type : string; trm_RequestID : string }.
Record ttsAudioMessage : Type := { tam_Type : string; tam_Audio : string }.
Record ttsErrorMessage : Type := { tem_Type : string; tem_Message : string; tem_Code : Z }.

Record sttSetupMessage : Type := {
  ssm_Type : string;
  ssm_InputFormat : InputFormat;
  ssm_ModelName : string
}.

Record sttReadyMessage : Type := {
  srm_Type : string;
  srm_RequestID : string;
  srm_ModelName : string;
  srm_SampleRate : Z;
  srm_FrameSize : Z;
  srm_DelayInTokens : Z;
  srm_TextStreamNames : list string
}.

Record sttTextMessage : Type := {
  stm_Type : string;
  stm_Text : string;
  stm_StartS : float64;
  stm_StreamID : option Z
}.

Record sttStepMessage : Type := {
  spm_Type : string;
  spm_VAD : list VADPrediction;
  spm_StepIdx : Z;
  spm_StepDurationS : float64;
  spm_TotalDurationS : float64
}.

Record sttEndTextMessage : Type := {
  sem_Type : string;
  sem_StopS : float64;
  sem_StreamID : option Z
}.

Record sttErrorMessage : Type := { serr_Type : string; serr_Message : string; serr_Code : Z }.

(** WebSocket message type constants. *)
Definition msgTypeReady : string := "ready".
Definition msgTypeError : string := "error".
Definition msgTypeEndOfStream : string := "end_of_stream".
Definition modelNameDefault : string := "default".

(** ** The decoders

    [json.Unmarshal(data, &v)] on a zero [v]: the value [v] holds after
    the call and whether the call returned an error (Go fills what it can
    and still reports the error).  [base64.StdEncoding.DecodeString]
    gives the bytes or fails. *)
Class Codec (Data : Type) : Type := {
  Unmarshal_wsMessage : Data -> wsMessage * bool;
  Unmarshal_ttsReadyMessage : Data -> ttsReadyMessage * bool;
  Unmarshal_ttsAudioMessage : Data -> ttsAudioMessage * bool;
  Unmarshal_ttsErrorMessage : Data -> ttsErrorMessage * bool;
  Unmarshal_sttReadyMessage : Data -> sttReadyMessage * bool;
  Unmarshal_sttTextMessage : Data -> sttTextMessage * bool;
  Unmarshal_sttStepMessage : Data -> sttStepMessage * bool;
  Unmarshal_sttEndTextMessage : Data -> sttEndTextMessage * bool;
  Unmarshal_sttErrorMessage : Data -> sttErrorMessage * bool;
  base64_DecodeString : string -> option bytes
}.

(** ** What a run leaves behind *)

Inductive chan_id : Type :=
| ChReady | ChDone | ChAudio | ChText | ChVad | ChEndText | ChAll.

Definition chan_id_eqb (a b : chan_id) : bool :=
  match a, b with
  | ChReady, ChReady | ChDone, ChDone | ChAudio, ChAudio | ChText, ChText
  | ChVad, ChVad | ChEndText, ChEndText | ChAll, ChAll => true
  | _, _ => false
  end.

Inductive event : Type :=
| EvRead                                   (* ReadMessage returned *)
| EvPublish (c : chan_id) (queued : bool)  (* a select-with-default send *)
| EvClose (c : chan_id)                    (* close(c) *)
| EvConnClose                              (* conn.Close() *)
| EvCloseReturned (r : option error).      (* Close() returned r *)

Definition is_close (c : chan_id) (e : event) : bool :=
  match e with EvClose c' => chan_id_eqb c c' | _ => false end.

Definition closes (c : chan_id) (tr : list event) : nat :=
  List.length (filter (is_close c) tr).

(** The dispatcher goroutine: in its loop, with its local
    [readySignaled], or returned (deferred calls done). *)
Inductive goroutine : Type :=
| Running (readySignaled : bool)
| Returned.

Inductive loop_ctl : Type :=
| Continue (readySignaled : bool)
| Return.

(** What a call made by the caller comes to. *)
Inductive call (A : Type) : Type :=
| Blocked
| Returns (a : A)
| Panics (why : string).
Arguments Blocked {A}.
Arguments Panics {A}.

(** The builtin [copy(dst, src)]: the first [min (len dst) (len src)]
    elements of [dst] are overwritten. *)
Fixpoint copy (A : Type) (dst src : list A) : list A :=
  match dst, src with
  | _ :: dst', x :: src' => x :: copy dst' src'
  | _, _ => dst
  end.

(** [copy(dst[offset:], src)] seen on the whole of [dst]; slicing past
    the end panics ([None]). *)
Definition copy_at (A : Type) (dst : list A) (offset : nat) (src : list A)
  : option (list A) :=
  if (offset <=? List.length dst)%nat
  then Some (firstn offset dst ++ copy (skipn offset dst) src)
  else None.

(** [strings.Join(elems, sep)]. *)
Definition Join (elems : list string) (sep : string) : string :=
  match elems with
  | [] => ""
  | [e] => e
  | e :: rest => fold_left (fun b s => (b ++ sep ++ s)%string) rest e
  end.

(** ** tts.go *)
Module TTS.

Record TTSStream : Type := mkTTSStream {
  conn : Conn;
  requestID : string;
  ready : chan unit;
  done : chan unit;
  err : option error;
  audioCh : chan bytes;
  closeOnce : bool   (* sync.Once: has Do run its function *)
}.

Definition set_conn (c : Conn) (s : TTSStream) : TTSStream :=
  mkTTSStream c (requestID s) (ready s) (done s) (err s) (audioCh s) (closeOnce s).
Definition set_requestID (r : string) (s : TTSStream) : TTSStream :=
  mkTTSStream (conn s) r (ready s) (done s) (err s) (audioCh s) (closeOnce s).
Definition set_ready (c : chan unit) (s : TTSStream) : TTSStream :=
  mkTTSStream (conn s) (requestID s) c (done s) (err s) (audioCh s) (closeOnce s).
Definition set_done (c : chan unit) (s : TTSStream) : TTSStream :=
  mkTTSStream (conn s) (requestID s) (ready s) c (err s) (audioCh s) (closeOnce s).
Definition set_err (e : option error) (s : TTSStream) : TTSStream :=
  mkTTSStream (conn s) (requestID s) (ready s) (done s) e (audioCh s) (closeOnce s).
Definition set_audioCh (c : chan bytes) (s : TTSStream) : TTSStream :=
  mkTTSStream (conn s) (requestID s) (ready s) (done s) (err s) c (closeOnce s).
Definition set_closeOnce (b : bool) (s : TTSStream) : TTSStream :=
  mkTTSStream (conn s) (requestID s) (ready s) (done s) (err s) (audioCh s) b.

(** A session: the stream, the goroutine started by [Stream], and the
    events so far (oldest first). *)
Record Session : Type := mkSession {
  stream : TTSStream;
  dispatcher : goroutine;
  trace : list event
}.

Definition emit (e : event) : Go Session unit :=
  fun w => Ok tt (mkSession (stream w) (dispatcher w) (trace w ++ [e])).
Definition update (f : TTSStream -> TTSStream) : Go Session unit :=
  fun w => Ok tt (mkSession (f (stream w)) (dispatcher w) (trace w)).
Definition set_dispatcher (g : goroutine) : Go Session unit :=
  fun w => Ok tt (mkSession (stream w) g (trace w)).

Definition setError (e : error) : Go Session unit :=
  update (fun s => match err s with
                   | None => set_err (Some e) s
                   | Some _ => s
                   end).

Definition getError (s : TTSStream) : option error := err s.

Definition close_chan (A : Type) (c : chan_id) (field : TTSStream -> chan A)
           (set : chan A -> TTSStream -> TTSStream) : Go Session unit :=
  w <- get ;;
  match Chan.close (field (stream w)) with
  | None => panic "close of closed channel"
  | Some ch => update (set ch) ;; emit (EvClose c)
  end.

(** [select { case s.audioCh <- decoded: default: }] *)
Definition publish_audio (decoded : bytes) : Go Session unit :=
  w <- get ;;
  match Chan.try_send decoded (audioCh (stream w)) with
  | None => panic "send on closed channel"
  | Some (queued, ch) => update (set_audioCh ch) ;; emit (EvPublish ChAudio queued)
  end.

Section Dispatcher.
Context {Data : Type} {codec : Codec Data}.

(** One turn of the [for] loop of [handleMessages], given what
    [ReadMessage] returned. *)
Definition iteration (rd : ReadResult Data) (readySignaled : bool)
  : Go Session loop_ctl :=
  emit EvRead ;;
  match rd with
  | ReadErr why =>
      setError (WebSocketError ("read error: " ++ why) 0) ;;
      when (negb readySignaled) (close_chan ChReady ready set_ready) ;;
      ret Return
  | ReadOK data =>
      let (msg, failed) := Unmarshal_wsMessage data in
      if failed then ret (Continue readySignaled)
      else if Type_ msg =? msgTypeReady then
        let (readyMsg, _) := Unmarshal_ttsReadyMessage data in
        update (set_requestID (trm_RequestID readyMsg)) ;;
        if negb readySignaled
        then close_chan ChReady ready set_ready ;; ret (Continue true)
        else ret (Continue readySignaled)
      else if Type_ msg =? "audio" then
        let (audioMsg, failed) := Unmarshal_ttsAudioMessage data in
        if failed then ret (Continue readySignaled)
        else match base64_DecodeString (tam_Audio audioMsg) with
             | None => ret (Continue readySignaled)
             | Some decoded =>
                 publish_audio decoded ;; ret (Continue readySignaled)
             end
      else if Type_ msg =? msgTypeEndOfStream then ret Return
      else if Type_ msg =? msgTypeError then
        let (errMsg, _) := Unmarshal_ttsErrorMessage data in
        setError (WebSocketError (tem_Message errMsg) (tem_Code errMsg)) ;;
        when (negb readySignaled) (close_chan ChReady ready set_ready) ;;
        ret Return
      else ret (Continue readySignaled)
  end.

(** The deferred calls, last registered first:
    [close(s.audioCh)], then [close(s.done)]. *)
Definition deferred : Go Session unit :=
  close_chan ChAudio audioCh set_audioCh ;;
  close_chan ChDone done set_done.

(** [handleMessages] advanced by one read; once it has returned it
    reads no more.  One step is one whole iteration, with the deferred
    calls when it returns: the sessions of the model are those seen
    between two iterations.  Within an iteration the code records the
    error before it closes [ready], and closes [ready] before the deferred
    closes; what is stated of a session with a channel seen closed holds
    of the code for that reason. *)
Definition handleMessages_step (rd : ReadResult Data) : Go Session unit :=
  w <- get ;;
  match dispatcher w with
  | Returned => ret tt
  | Running readySignaled =>
      c <- iteration rd readySignaled ;;
      match c with
      | Continue readySignaled' => set_dispatcher (Running readySignaled')
      | Return => deferred ;; set_dispatcher Returned
      end
  end.

(** [handleMessages] on the reads the connection gives it, in order. *)
Fixpoint handleMessages (reads : list (ReadResult Data)) : Go Session unit :=
  match reads with
  | [] => ret tt
  | rd :: rest => handleMessages_step rd ;; handleMessages rest
  end.

End Dispatcher.

(** [WaitReady(ctx)]: [ctx_done] is [Some e] when [ctx.Done()] is
    closed with [ctx.Err() = e]; when both cases of the [select] are
    ready Go picks either, here by [prefer_ctx]. *)
Definition WaitReady (ctx_done : option error) (prefer_ctx : bool)
           (s : TTSStream) : call (option error) :=
  match closed (ready s), ctx_done with
  | true, None => Returns (getError s)
  | true, Some e => if prefer_ctx then Returns (Some e) else Returns (getError s)
  | false, Some e => Returns (Some e)
  | false, None => Blocked
  end.

(** What one [select] of [Collect] yields. *)
Inductive selected : Type :=
| GotChunk (chunk : bytes)   (* chunk, ok := <-s.audioCh, ok true *)
| GotClosed                  (* ok false *)
| CtxDone (e : error).       (* <-ctx.Done(), with ctx.Err() = e *)

(** The loop that fills [rawData] from [chunks]. *)
Fixpoint combine_chunks (chunks : list bytes) (rawData : bytes) (offset : nat)
  : option bytes :=
  match chunks with
  | [] => Some rawData
  | c :: rest =>
      match copy_at rawData offset c with
      | None => None
      | Some rawData' => combine_chunks rest rawData' (offset + List.length c)
      end
  end.

(** [Collect(ctx)], driven by what its selects yield; [s] is the stream
    as it stands when the closed channel is seen. *)
Fixpoint Collect_loop (sel : list selected) (chunks : list bytes) (totalLen : nat)
         (s : TTSStream) : call (option TTSResult * option error) :=
  match sel with
  | [] => Blocked
  | GotClosed :: _ =>
      match getError s with
      | Some e => Returns (None, Some e)
      | None =>
          match combine_chunks chunks (repeat x00 totalLen) 0 with
          | None => Panics "slice bounds out of range"
          | Some rawData =>
              Returns (Some {| RawData := rawData;
                               SampleRate := 48000;
                               tr_RequestID := requestID s |}, None)
          end
      end
  | GotChunk chunk :: rest =>
      Collect_loop rest (chunks ++ [chunk]) (totalLen + List.length chunk) s
  | CtxDone e :: _ => Returns (None, Some e)
  end.

Definition Collect (sel : list selected) (s : TTSStream)
  : call (option TTSResult * option error) :=
  Collect_loop sel [] 0 s.

(** The selects of a [Collect] that runs under [context.Background()]
    on a stream whose dispatcher is not running any more. *)
Definition selects_of (s : TTSStream) : list selected :=
  map GotChunk (buf (audioCh s)) ++ (if closed (audioCh s) then [GotClosed] else []).

(** [Close()]: [closeOnce.Do] runs [conn.Close()] the first time only. *)
Definition Close (s : TTSStream) : option error * TTSStream :=
  if closeOnce s then (None, s)
  else let (e, c) := Conn_Close (conn s) in
       (e, set_closeOnce true (set_conn c s)).

Definition setupMsg (params : TTSParams) : ttsSetupMessage :=
  let modelName := if tp_ModelName params =? "" then modelNameDefault
                   else tp_ModelName params in
  {| tsm_Type := "setup";
     tsm_VoiceID := tp_VoiceID params;
     tsm_OutputFormat := tp_OutputFormat params;
     tsm_ModelName := modelName;
     tsm_JSONConfig := match tp_JSONConfig params with
                       | None => None
                       | Some cfg => Some [("padding_bonus", PaddingBonus cfg)]
                       end |}.

(** [Stream(ctx, params)]: [dial] is what [DialContext] gives (a
    connection or the text of its error) and [write] what
    [WriteJSON(setupMsg)] returns; when the write fails the connection is
    closed and dropped, otherwise the dispatcher is started. *)
Definition Stream (dial : Conn + string) (write : option string)
           (params : TTSParams) : Session + error :=
  match dial with
  | inr why => inr (ConnectionError ("failed to connect to TTS WebSocket: " ++ why))
  | inl c =>
      let stream := {| conn := c;
                       requestID := "";
                       ready := Chan.make unit 0;
                       done := Chan.make unit 0;
                       err := None;
                       audioCh := Chan.make bytes 100;
                       closeOnce := false |} in
      match write with
      | Some why => inr (WebSocketError ("failed to send setup message: " ++ why) 0)
      | None => inl (mkSession stream (Running false) [])
      end
  end.

(** What can happen to a session, one step at a time: the dispatcher
    gets a read, a consumer takes the next chunk of [Audio()], or the
    caller calls [Close]. *)
Inductive action (Data : Type) : Type :=
| Deliver (rd : ReadResult Data)
| TakeAudio
| CallClose.
Arguments TakeAudio {Data}.
Arguments CallClose {Data}.

Section Run.
Context {Data : Type} {codec : Codec Data}.

Definition step (a : action Data) : Go Session unit :=
  match a with
  | Deliver rd => handleMessages_step rd
  | TakeAudio =>
      w <- get ;;
      match Chan.recv (audioCh (stream w)) with
      | Item _ rest => update (set_audioCh rest)
      | _ => ret tt
      end
  | CallClose =>
      w <- get ;;
      let (r, s) := Close (stream w) in
      when (negb (closeOnce (stream w))) (emit EvConnClose) ;;
      update (fun _ => s) ;;
      emit (EvCloseReturned r)
  end.

Fixpoint run (acts : list (action Data)) : Go Session unit :=
  match acts with
  | [] => ret tt
  | a :: rest => step a ;; run rest
  end.

End Run.

End TTS.

(** ** The speech-to-text stream *)
Module STT.

(** What travels on [allMsgCh], a [chan interface{}]. *)
Inductive any : Type :=
| AnyText (r : STTTextResult)
| AnyStep (r : STTStepResult)
| AnyEndText (r : STTEndTextResult).

Record STTStream : Type := mkSTTStream {
  conn : Conn;
  readyInfo : option STTReadyInfo;   (* a pointer, nil at first *)
  ready : chan unit;
  done : chan unit;
  err : option error;
  textCh : chan STTTextResult;
  vadCh : chan STTStepResult;
  endTextCh : chan STTEndTextResult;
  allMsgCh : chan any;
  closeOnce : bool
}.

Definition set_conn (c : Conn) (s : STTStream) : STTStream :=
  mkSTTStream c (readyInfo s) (ready s) (done s) (err s) (textCh s) (vadCh s)
              (endTextCh s) (allMsgCh s) (closeOnce s).
Definition set_readyInfo (r : option STTReadyInfo) (s : STTStream) : STTStream :=
  mkSTTStream (conn s) r (ready s) (done s) (err s) (textCh s) (vadCh s)
              (endTextCh s) (allMsgCh s) (closeOnce s).
Definition set_ready (c : chan unit) (s : STTStream) : STTStream :=
  mkSTTStream (conn s) (readyInfo s) c (done s) (err s) (textCh s) (vadCh s)
              (endTextCh s) (allMsgCh s) (closeOnce s).
Definition set_done (c : chan unit) (s : STTStream) : STTStream :=
  mkSTTStream (conn s) (readyInfo s) (ready s) c (err s) (textCh s) (vadCh s)
              (endTextCh s) (allMsgCh s) (closeOnce s).
Definition set_err (e : option error) (s : STTStream) : STTStream :=
  mkSTTStream (conn s) (readyInfo s) (ready s) (done s) e (textCh s) (vadCh s)
              (endTextCh s) (allMsgCh s) (closeOnce s).
Definition set_textCh (c : chan STTTextResult) (s : STTStream) : STTStream :=
  mkSTTStream (conn s) (readyInfo s) (ready s) (done s) (err s) c (vadCh s)
              (endTextCh s) (allMsgCh s) (closeOnce s).
Definition set_vadCh (c : chan STTStepResult) (s : STTStream) : STTStream :=
  mkSTTStream (conn s) (readyInfo s) (ready s) (done s) (err s) (textCh s) c
              (endTextCh s) (allMsgCh s) (closeOnce s).
Definition set_endTextCh (c : chan STTEndTextResult) (s : STTStream) : STTStream :=
  mkSTTStream (conn s) (readyInfo s) (ready s) (done s) (err s) (textCh s) (vadCh s)
              c (allMsgCh s) (closeOnce s).
Definition set_allMsgCh (c : chan any) (s : STTStream) : STTStream :=
  mkSTTStream (conn s) (readyInfo s) (ready s) (done s) (err s) (textCh s) (vadCh s)
              (endTextCh s) c (closeOnce s).
Definition set_closeOnce (b : bool) (s : STTStream) : STTStream :=
  mkSTTStream (conn s) (readyInfo s) (ready s) (done s) (err s) (textCh s) (vadCh s)
              (endTextCh s) (allMsgCh s) b.

Record Session : Type := mkSession {
  stream : STTStream;
  dispatcher : goroutine;
  trace : list event
}.

Definition emit (e : event) : Go Session unit :=
  fun w => Ok tt (mkSession (stream w) (dispatcher w) (trace w ++ [e])).
Definition update (f : STTStream -> STTStream) : Go Session unit :=
  fun w => Ok tt (mkSession (f (stream w)) (dispatcher w) (trace w)).
Definition set_dispatcher (g : goroutine) : Go Session unit :=
  fun w => Ok tt (mkSession (stream w) g (trace w)).

Definition setError (e : error) : Go Session unit :=
  update (fun s => match err s with
                   | None => set_err (Some e) s
                   | Some _ => s
                   end).

Definition getError (s : STTStream) : option error := err s.

Definition close_chan (A : Type) (c : chan_id) (field : STTStream -> chan A)
           (set : chan A -> STTStream -> STTStream) : Go Session unit :=
  w <- get ;;
  match Chan.close (field (stream w)) with
  | None => panic "close of closed channel"
  | Some ch => update (set ch) ;; emit (EvClose c)
  end.

(** [select { case ch <- result: default: }] *)
Definition publish (A : Type) (c : chan_id) (field : STTStream -> chan A)
           (set : chan A -> STTStream -> STTStream) (x : A) : Go Session unit :=
  w <- get ;;
  match Chan.try_send x (field (stream w)) with
  | None => panic "send on closed channel"
  | Some (queued, ch) => update (set ch) ;; emit (EvPublish c queued)
  end.

Section Dispatcher.
Context {Data : Type} {codec : Codec Data}.

Definition iteration (rd : ReadResult Data) (readySignaled : bool)
  : Go Session loop_ctl :=
  emit EvRead ;;
  match rd with
  | ReadErr why =>
      setError (WebSocketError ("read error: " ++ why) 0) ;;
      when (negb readySignaled) (close_chan ChReady ready set_ready) ;;
      ret Return
  | ReadOK data =>
      let (msg, failed) := Unmarshal_wsMessage data in
      if failed then ret (Continue readySignaled)
      else if Type_ msg =? msgTypeReady then
        let (readyMsg, _) := Unmarshal_sttReadyMessage data in
        update (set_readyInfo
                  (Some {| ri_RequestID := srm_RequestID readyMsg;
                           ri_ModelName := srm_ModelName readyMsg;
                           ri_SampleRate := srm_SampleRate readyMsg;
                           ri_FrameSize := srm_FrameSize readyMsg;
                           ri_DelayInTokens := srm_DelayInTokens readyMsg;
                           ri_TextStreamNames := srm_TextStreamNames readyMsg |})) ;;
        if negb readySignaled
        then close_chan ChReady ready set_ready ;; ret (Continue true)
        else ret (Continue readySignaled)
      else if Type_ msg =? "text" then
        let (textMsg, failed) := Unmarshal_sttTextMessage data in
        if failed then ret (Continue readySignaled)
        else
          let result := {| Text := stm_Text textMsg;
                           StartS := stm_StartS textMsg;
                           StreamID := stm_StreamID textMsg |} in
          publish ChText textCh set_textCh result ;;
          publish ChAll allMsgCh set_allMsgCh (AnyText result) ;;
          ret (Continue readySignaled)
      else if Type_ msg =? "step" then
        let (stepMsg, failed) := Unmarshal_sttStepMessage data in
        if failed then ret (Continue readySignaled)
        else
          let result := {| VAD := spm_VAD stepMsg;
                           StepIdx := spm_StepIdx stepMsg;
                           StepDurationS := spm_StepDurationS stepMsg;
                           TotalDurationS := spm_TotalDurationS stepMsg |} in
          publish ChVad vadCh set_vadCh result ;;
          publish ChAll allMsgCh set_allMsgCh (AnyStep result) ;;
          ret (Continue readySignaled)
      else if Type_ msg =? "end_text" then
        let (endMsg, failed) := Unmarshal_sttEndTextMessage data in
        if failed then ret (Continue readySignaled)
        else
          let result := {| StopS := sem_StopS endMsg;
                           et_StreamID := sem_StreamID endMsg |} in
          publish ChEndText endTextCh set_endTextCh result ;;
          publish ChAll allMsgCh set_allMsgCh (AnyEndText result) ;;
          ret (Continue readySignaled)
      else if Type_ msg =? msgTypeEndOfStream then ret Return
      else if Type_ msg =? msgTypeError then
        let (errMsg, _) := Unmarshal_sttErrorMessage data in
        setError (WebSocketError (serr_Message errMsg) (serr_Code errMsg)) ;;
        when (negb readySignaled) (close_chan ChReady ready set_ready) ;;
        ret Return
      else ret (Continue readySignaled)
  end.

(** The deferred calls, last registered first. *)
Definition deferred : Go Session unit :=
  close_chan ChAll allMsgCh set_allMsgCh ;;
  close_chan ChEndText endTextCh set_endTextCh ;;
  close_chan ChVad vadCh set_vadCh ;;
  close_chan ChText textCh set_textCh ;;
  close_chan ChDone done set_done.

(** As for the other stream, one step is one whole iteration, with the
    deferred calls when it returns. *)
Definition handleMessages_step (rd : ReadResult Data) : Go Session unit :=
  w <- get ;;
  match dispatcher w with
  | Returned => ret tt
  | Running readySignaled =>
      c <- iteration rd readySignaled ;;
      match c with
      | Continue readySignaled' => set_dispatcher (Running readySignaled')
      | Return => deferred ;; set_dispatcher Returned
      end
  end.

Fixpoint handleMessages (reads : list (ReadResult Data)) : Go Session unit :=
  match reads with
  | [] => ret tt
  | rd :: rest => handleMessages_step rd ;; handleMessages rest
  end.

End Dispatcher.

(** [WaitReady(ctx)], as for the other stream; it returns
    [(s.readyInfo, nil)] or [(nil, err)]. *)
Definition WaitReady (ctx_done : option error) (prefer_ctx : bool)
           (s : STTStream) : call (option STTReadyInfo * option error) :=
  let through_gate :=
    match getError s with
    | Some e => Returns (None, Some e)
    | None => Returns (readyInfo s, None)
    end in
  match closed (ready s), ctx_done with
  | true, None => through_gate
  | true, Some e => if prefer_ctx then Returns (None, Some e) else through_gate
  | false, Some e => Returns (None, Some e)
  | false, None => Blocked
  end.

Inductive selected : Type :=
| GotText (text : STTTextResult)
| GotClosed
| CtxDone (e : error).

(** [CollectText(ctx)], driven by what its selects yield. *)
Fixpoint CollectText_loop (sel : list selected) (texts : list string)
         (s : STTStream) : call (string * option error) :=
  match sel with
  | [] => Blocked
  | GotClosed :: _ =>
      match getError s with
      | Some e => Returns ("", Some e)
      | None => Returns (Join texts " ", None)
      end
  | GotText text :: rest => CollectText_loop rest (texts ++ [Text text]) s
  | CtxDone e :: _ => Returns ("", Some e)
  end.

Definition CollectText (sel : list selected) (s : STTStream)
  : call (string * option error) :=
  CollectText_loop sel [] s.

Definition selects_of (s : STTStream) : list selected :=
  map GotText (buf (textCh s)) ++ (if closed (textCh s) then [GotClosed] else []).

Definition Close (s : STTStream) : option error * STTStream :=
  if closeOnce s then (None, s)
  else let (e, c) := Conn_Close (conn s) in
       (e, set_closeOnce true (set_conn c s)).

Definition setupMsg (params : STTParams) : sttSetupMessage :=
  let modelName := if sp_ModelName params =? "" then modelNameDefault
                   else sp_ModelName params in
  {| ssm_Type := "setup";
     ssm_InputFormat := sp_InputFormat params;
     ssm_ModelName := modelName |}.

Definition Stream (dial : Conn + string) (write : option string)
           (params : STTParams) : Session + error :=
  match dial with
  | inr why => inr (ConnectionError ("failed to connect to STT WebSocket: " ++ why))
  | inl c =>
      let stream := {| conn := c;
                       readyInfo := None;
                       ready := Chan.make unit 0;
                       done := Chan.make unit 0;
                       err := None;
                       textCh := Chan.make STTTextResult 100;
                       vadCh := Chan.make STTStepResult 100;
                       endTextCh := Chan.make STTEndTextResult 10;
                       allMsgCh := Chan.make any 100;
                       closeOnce := false |} in
      match write with
      | Some why => inr (WebSocketError ("failed to send setup message: " ++ why) 0)
      | None => inl (mkSession stream (Running false) [])
      end
  end.

Inductive action (Data : Type) : Type :=
| Deliver (rd : ReadResult Data)
| TakeText
| TakeVad
| TakeEndText
| TakeAll
| CallClose.
Arguments TakeText {Data}.
Arguments TakeVad {Data}.
Arguments TakeEndText {Data}.
Arguments TakeAll {Data}.
Arguments CallClose {Data}.

Definition take (A : Type) (field : STTStream -> chan A)
           (set : chan A -> STTStream -> STTStream) : Go Session unit :=
  w <- get ;;
  match Chan.recv (field (stream w)) with
  | Item _ rest => update (set rest)
  | _ => ret tt
  end.

Section Run.
Context {Data : Type} {codec : Codec Data}.

Definition step (a : action Data) : Go Session unit :=
  match a with
  | Deliver rd => handleMessages_step rd
  | TakeText => take textCh set_textCh
  | TakeVad => take vadCh set_vadCh
  | TakeEndText => take endTextCh set_endTextCh
  | TakeAll => take allMsgCh set_allMsgCh
  | CallClose =>
      w <- get ;;
      let (r, s) := Close (stream w) in
      when (negb (closeOnce (stream w))) (emit EvConnClose) ;;
      update (fun _ => s) ;;
      emit (EvCloseReturned r)
  end.

Fixpoint run (acts : list (action Data)) : Go Session unit :=
  match acts with
  | [] => ret tt
  | a :: rest => step a ;; run rest
  end.

End Run.

End STT.

(** ** A wire to run the streams on

    An instance of [Codec] after [encoding/json] and [encoding/base64]:
    a frame is either bytes that are not JSON or a JSON value, a number
    being kept as its [float64] value and, for a plain integer literal,
    that integer; a literal beyond the range of [float64] is kept as an
    infinity.  Object keys are matched to struct fields without regard to
    case, as the decoder folds them (the ASCII letters, and the two
    characters outside ASCII that fold to one: U+017F to [s], U+212A to
    [k]); members are decoded in order, a [null] leaves the field as it
    is, and a value of the wrong kind leaves the field and makes
    [Unmarshal] report an error once all members are done. *)
Module Wire.

#[local] Unset Elimination Schemes.
Inductive json : Type :=
| JNull
| JBool (b : bool)
| JNumber (value : float64) (int_lit : option Z)
| JString (s : string)
| JArray (items : list json)
| JObject (members : list (string * json)).
#[local] Set Elimination Schemes.

Inductive frame : Type :=
| Garbage (raw : string)
| Value (v : json).

Definition lower (c : ascii) : ascii :=
  let n := nat_of_ascii c in
  if ((65 <=? n) && (n <=? 90))%nat then ascii_of_nat (n + 32) else c.

(** Keys are UTF-8: U+017F is the bytes C5 BF, U+212A the bytes
    E2 84 AA. *)
Fixpoint fold_name (s : string) : string :=
  match s with
  | EmptyString => EmptyString
  | String c r =>
      match r with
      | String c1 r1 =>
          if ((nat_of_ascii c =? 197) && (nat_of_ascii c1 =? 191))%nat
          then String "s" (fold_name r1)
          else
            match r1 with
            | String c2 r2 =>
                if ((nat_of_ascii c =? 226) && (nat_of_ascii c1 =? 132)
                    && (nat_of_ascii c2 =? 170))%nat
                then String "k" (fold_name r2)
                else String (lower c) (fold_name r)
            | EmptyString => String (lower c) (fold_name r)
            end
      | EmptyString => String (lower c) (fold_name r)
      end
  end.

Definition fits_int (z : Z) : bool :=
  ((- 2 ^ 63 <=? z) && (z <? 2 ^ 63))%Z.

Definition dec_string (v : json) (old : string) : string * bool :=
  match v with
  | JString s => (s, false)
  | JNull => (old, false)
  | _ => (old, true)
  end.

Definition dec_int (v : json) (old : Z) : Z * bool :=
  match v with
  | JNumber _ (Some z) => if fits_int z then (z, false) else (old, true)
  | JNull => (old, false)
  | _ => (old, true)
  end.

(** A number that does not fit a [float64] is an error. *)
Definition dec_float (v : json) (old : float64) : float64 * bool :=
  match v with
  | JNumber (S754_infinity _) _ | JNumber S754_nan _ => (old, true)
  | JNumber f _ => (f, false)
  | JNull => (old, false)
  | _ => (old, true)
  end.

(** A [*int] field: [null] makes it nil; anything else allocates
    before the literal is looked at. *)
Definition dec_intptr (v : json) (old : option Z) : option Z * bool :=
  match v with
  | JNull => (None, false)
  | _ => let cur := match old with Some z => z | None => 0%Z end in
         let (z, failed) := dec_int v cur in (Some z, failed)
  end.

Definition dec_list (A : Type) (elem : json -> A * bool) (v : json) (old : list A)
  : list A * bool :=
  match v with
  | JArray items => (map (fun i => fst (elem i)) items,
                     existsb (fun i => snd (elem i)) items)
  | JNull => (old, false)
  | _ => (old, true)
  end.

(** Decoding into a struct: [field] stores one member. *)
Definition dec_object (T : Type) (field : string -> json -> T -> T * bool)
           (zero : T) (v : json) : T * bool :=
  match v with
  | JNull => (zero, false)
  | JObject members =>
      fold_left (fun acc kv =>
                   let (t, failed) := field (fold_name (fst kv)) (snd kv) (fst acc) in
                   (t, snd acc || failed))
                members (zero, false)
  | _ => (zero, true)
  end.

Definition Unmarshal (T : Type) (field : string -> json -> T -> T * bool)
           (zero : T) (data : frame) : T * bool :=
  match data with
  | Garbage _ => (zero, true)
  | Value v => dec_object field zero v
  end.

Definition wsMessage_field (k : string) (v : json) (m : wsMessage) : wsMessage * bool :=
  if k =? "type" then let (s, f) := dec_string v (Type_ m) in ({| Type_ := s |}, f)
  else (m, false).

Definition ttsReady_field (k : string) (v : json) (m : ttsReadyMessage) :=
  if k =? "type" then
    let (s, f) := dec_string v (trm_Type m) in
    ({| trm_Type := s; trm_RequestID := trm_RequestID m |}, f)
  else if k =? "request_id" then
    let (s, f) := dec_string v (trm_RequestID m) in
    ({| trm_Type := trm_Type m; trm_RequestID := s |}, f)
  else (m, false).

Definition ttsAudio_field (k : string) (v : json) (m : ttsAudioMessage) :=
  if k =? "type" then
    let (s, f) := dec_string v (tam_Type m) in
    ({| tam_Type := s; tam_Audio := tam_Audio m |}, f)
  else if k =? "audio" then
    let (s, f) := dec_string v (tam_Audio m) in
    ({| tam_Type := tam_Type m; tam_Audio := s |}, f)
  else (m, false).

Definition ttsError_field (k : string) (v : json) (m : ttsErrorMessage) :=
  if k =? "type" then
    let (s, f) := dec_string v (tem_Type m) in
    ({| tem_Type := s; tem_Message := tem_Message m; tem_Code := tem_Code m |}, f)
  else if k =? "message" then
    let (s, f) := dec_string v (tem_Message m) in
    ({| tem_Type := tem_Type m; tem_Message := s; tem_Code := tem_Code m |}, f)
  else if k =? "code" then
    let (z, f) := dec_int v (tem_Code m) in
    ({| tem_Type := tem_Type m; tem_Message := tem_Message m; tem_Code := z |}, f)
  else (m, false).

Definition sttReady_field (k : string) (v : json) (m : sttReadyMessage) :=
  let mk t r mn sr fs d n :=
    {| srm_Type := t; srm_RequestID := r; srm_ModelName := mn; srm_SampleRate := sr;
       srm_FrameSize := fs; srm_DelayInTokens := d; srm_TextStreamNames := n |} in
  let '(t, r, mn, sr, fs, d, n) :=
    (srm_Type m, srm_RequestID m, srm_ModelName m, srm_SampleRate m,
     srm_FrameSize m, srm_DelayInTokens m, srm_TextStreamNames m) in
  if k =? "type" then let (x, f) := dec_string v t in (mk x r mn sr fs d n, f)
  else if k =? "request_id" then let (x, f) := dec_string v r in (mk t x mn sr fs d n, f)
  else if k =? "model_name" then let (x, f) := dec_string v mn in (mk t r x sr fs d n, f)
  else if k =? "sample_rate" then let (x, f) := dec_int v sr in (mk t r mn x fs d n, f)
  else if k =? "frame_size" then let (x, f) := dec_int v fs in (mk t r mn sr x d n, f)
  else if k =? "delay_in_tokens" then let (x, f) := dec_int v d in (mk t r mn sr fs x n, f)
  else if k =? "text_stream_names" then
    let (x, f) := dec_list (fun i => dec_string i "") v n in (mk t r mn sr fs d x, f)
  else (m, false).

Definition sttText_field (k : string) (v : json) (m : sttTextMessage) :=
  let mk t x s i :=
    {| stm_Type := t; stm_Text := x; stm_StartS := s; stm_StreamID := i |} in
  let '(t, x, s, i) := (stm_Type m, stm_Text m, stm_StartS m, stm_StreamID m) in
  if k =? "type" then let (y, f) := dec_string v t in (mk y x s i, f)
  else if k =? "text" then let (y, f) := dec_string v x in (mk t y s i, f)
  else if k =? "start_s" then let (y, f) := dec_float v s in (mk t x y i, f)
  else if k =? "stream_id" then let (y, f) := dec_intptr v i in (mk t x s y, f)
  else (m, false).

Definition vad_field (k : string) (v : json) (p : VADPrediction) :=
  if k =? "horizon_s" then
    let (y, f) := dec_float v (HorizonS p) in
    ({| HorizonS := y; InactivityProb := InactivityProb p |}, f)
  else if k =? "inactivity_prob" then
    let (y, f) := dec_float v (InactivityProb p) in
    ({| HorizonS := HorizonS p; InactivityProb := y |}, f)
  else (p, false).

Definition vad_zero : VADPrediction :=
  {| HorizonS := float64_zero; InactivityProb := float64_zero |}.

Definition sttStep_field (k : string) (v : json) (m : sttStepMessage) :=
  let mk t a i d td :=
    {| spm_Type := t; spm_VAD := a; spm_StepIdx := i; spm_StepDurationS := d;
       spm_TotalDurationS := td |} in
  let '(t, a, i, d, td) :=
    (spm_Type m, spm_VAD m, spm_StepIdx m, spm_StepDurationS m, spm_TotalDurationS m) in
  if k =? "type" then let (y, f) := dec_string v t in (mk y a i d td, f)
  else if k =? "vad" then
    let (y, f) := dec_list (dec_object vad_field vad_zero) v a in (mk t y i d td, f)
  else if k =? "step_idx" then let (y, f) := dec_int v i in (mk t a y d td, f)
  else if k =? "step_duration_s" then let (y, f) := dec_float v d in (mk t a i y td, f)
  else if k =? "total_duration_s" then let (y, f) := dec_float v td in (mk t a i d y, f)
  else (m, false).

Definition sttEndText_field (k : string) (v : json) (m : sttEndTextMessage) :=
  if k =? "type" then
    let (y, f) := dec_string v (sem_Type m) in
    ({| sem_Type := y; sem_StopS := sem_StopS m; sem_StreamID := sem_StreamID m |}, f)
  else if k =? "stop_s" then
    let (y, f) := dec_float v (sem_StopS m) in
    ({| sem_Type := sem_Type m; sem_StopS := y; sem_StreamID := sem_StreamID m |}, f)
  else if k =? "stream_id" then
    let (y, f) := dec_intptr v (sem_StreamID m) in
    ({| sem_Type := sem_Type m; sem_StopS := sem_StopS m; sem_StreamID := y |}, f)
  else (m, false).

Definition sttError_field (k : string) (v : json) (m : sttErrorMessage) :=
  if k =? "type" then
    let (s, f) := dec_string v (serr_Type m) in
    ({| serr_Type := s; serr_Message := serr_Message m; serr_Code := serr_Code m |}, f)
  else if k =? "message" then
    let (s, f) := dec_string v (serr_Message m) in
    ({| serr_Type := serr_Type m; serr_Message := s; serr_Code := serr_Code m |}, f)
  else if k =? "code" then
    let (z, f) := dec_int v (serr_Code m) in
    ({| serr_Type := serr_Type m; serr_Message := serr_Message m; serr_Code := z |}, f)
  else (m, false).

(** [base64.StdEncoding]: the alphabet, [=] padding, line breaks
    skipped, padding bits not checked. *)
Definition b64_index (c : ascii) : option N :=
  let n := N_of_ascii c in
  if ((65 <=? n) && (n <=? 90))%N then Some (n - 65)%N
  else if ((97 <=? n) && (n <=? 122))%N then Some (n - 71)%N
  else if ((48 <=? n) && (n <=? 57))%N then Some (n + 4)%N
  else if (n =? 43)%N then Some 62%N
  else if (n =? 47)%N then Some 63%N
  else None.

Definition is_pad (c : ascii) : bool := (N_of_ascii c =? 61)%N.
Definition is_newline (c : ascii) : bool :=
  ((N_of_ascii c =? 10) || (N_of_ascii c =? 13))%N.

Definition byte_of (n : N) : byte := byte_of_ascii (ascii_of_N (n mod 256)).

Fixpoint b64_quanta (l : list ascii) : option bytes :=
  match l with
  | [] => Some []
  | a :: b :: c :: d :: rest =>
      match b64_index a, b64_index b with
      | Some x, Some y =>
          if is_pad c then
            if is_pad d && (match rest with [] => true | _ => false end)
            then Some [byte_of ((x * 4) + (y / 16))]
            else None
          else
            match b64_index c with
            | None => None
            | Some z =>
                if is_pad d then
                  match rest with
                  | [] => Some [byte_of ((x * 4) + (y / 16));
                                byte_of ((y * 16) + (z / 4))]
                  | _ => None
                  end
                else
                  match b64_index d with
                  | None => None
                  | Some w =>
                      match b64_quanta rest with
                      | None => None
                      | Some more =>
                          Some (byte_of ((x * 4) + (y / 16))
                                :: byte_of ((y * 16) + (z / 4))
                                :: byte_of ((z * 64) + w) :: more)
                      end
                  end
            end
      | _, _ => None
      end
  | _ => None
  end%N.

Definition DecodeString (s : string) : option bytes :=
  b64_quanta (filter (fun c => negb (is_newline c)) (list_ascii_of_string s)).

#[export] Instance codec : Codec frame := {
  Unmarshal_wsMessage := Unmarshal wsMessage_field {| Type_ := "" |};
  Unmarshal_ttsReadyMessage :=
    Unmarshal ttsReady_field {| trm_Type := ""; trm_RequestID := "" |};
  Unmarshal_ttsAudioMessage :=
    Unmarshal ttsAudio_field {| tam_Type := ""; tam_Audio := "" |};
  Unmarshal_ttsErrorMessage :=
    Unmarshal ttsError_field {| tem_Type := ""; tem_Message := ""; tem_Code := 0 |};
  Unmarshal_sttReadyMessage :=
    Unmarshal sttReady_field
      {| srm_Type := ""; srm_RequestID := ""; srm_ModelName := ""; srm_SampleRate := 0;
         srm_FrameSize := 0; srm_DelayInTokens := 0; srm_TextStreamNames := [] |};
  Unmarshal_sttTextMessage :=
    Unmarshal sttText_field
      {| stm_Type := ""; stm_Text := ""; stm_StartS := float64_zero;
         stm_StreamID := None |};
  Unmarshal_sttStepMessage :=
    Unmarshal sttStep_field
      {| spm_Type := ""; spm_VAD := []; spm_StepIdx := 0;
         spm_StepDurationS := float64_zero; spm_TotalDurationS := float64_zero |};
  Unmarshal_sttEndTextMessage :=
    Unmarshal sttEndText_field
      {| sem_Type := ""; sem_StopS := float64_zero; sem_StreamID := None |};
  Unmarshal_sttErrorMessage :=
    Unmarshal sttError_field {| serr_Type := ""; serr_Message := ""; serr_Code := 0 |};
  base64_DecodeString := DecodeString
}.

(** Frames as the test servers write them. *)
Definition obj (members : list (string * json)) : ReadResult frame :=
  ReadOK (Value (JObject members)).
Definition int (z : Z) : json :=
  JNumber (binary_normalize 53 1024 z 0 false) (Some z).
Definition f_ready (id : string) : ReadResult frame :=
  obj [("type", JString "ready"); ("request_id", JString id)].
Definition f_audio (b64 : string) : ReadResult frame :=
  obj [("type", JString "audio"); ("audio", JString b64)].
Definition f_text (text : string) : ReadResult frame :=
  obj [("type", JString "text"); ("text", JString text); ("start_s", int 0)].
Definition f_end_text : ReadResult frame :=
  obj [("type", JString "end_text"); ("stop_s", int 1)].
Definition f_step : ReadResult frame :=
  obj [("type", JString "step"); ("vad", JArray []); ("step_idx", int 0)].
Definition f_end_of_stream : ReadResult frame :=
  obj [("type", JString "end_of_stream")].
Definition f_error (message : string) (code : Z) : ReadResult frame :=
  obj [("type", JString "error"); ("message", JString message); ("code", int code)].

End Wire.

(** ** Vocabulary of the properties *)

(** The events of a dispatcher that is still in its loop close nothing
    but [ready]; once it has returned, only the caller's [Close] adds
    events. *)
Definition loop_event (e : event) : bool :=
  match e with
  | EvClose ChReady => true
  | EvClose _ => false
  | _ => true
  end.

Definition caller_event (e : event) : bool :=
  match e with
  | EvConnClose | EvCloseReturned _ => true
  | _ => false
  end.

Definition close_returns (tr : list event) : list (option error) :=
  flat_map (fun e => match e with EvCloseReturned r => [r] | _ => [] end) tr.

(** What a read is to the readiness gate, by its tag alone. *)
Inductive kind : Type :=
| KReady | KError | KReadFailure | KEndOfStream | KOther.

Section Kinds.
Context {Data : Type} {codec : Codec Data}.

Definition kind_of (rd : ReadResult Data) : kind :=
  match rd with
  | ReadErr _ => KReadFailure
  | ReadOK data =>
      let (msg, failed) := Unmarshal_wsMessage data in
      if failed then KOther
      else if Type_ msg =? msgTypeReady then KReady
      else if Type_ msg =? msgTypeEndOfStream then KEndOfStream
      else if Type_ msg =? msgTypeError then KError
      else KOther
  end.
End Kinds.

(** The gate as the specification words it: resolved by the first Ready,
    or by the first Error envelope or read failure before any Ready; an
    end of stream that comes first ends the reading with the gate as it
    is. *)
Fixpoint gate_resolved_by (ks : list kind) : bool :=
  match ks with
  | [] => false
  | KReady :: _ | KError :: _ | KReadFailure :: _ => true
  | KEndOfStream :: _ => false
  | KOther :: rest => gate_resolved_by rest
  end.

(** Whether the reads contain what makes the dispatcher return. *)
Fixpoint terminated_by (ks : list kind) : bool :=
  match ks with
  | [] => false
  | KError :: _ | KReadFailure :: _ | KEndOfStream :: _ => true
  | _ :: rest => terminated_by rest
  end.

Definition returned (g : goroutine) : bool :=
  match g with
  | Returned => true
  | Running _ => false
  end.

Definition fatal (k : kind) : bool :=
  match k with
  | KError | KReadFailure => true
  | _ => false
  end.

(** What closing [ready] adds to the trace, given [readySignaled]. *)
Definition ready_close (readySignaled : bool) : list event :=
  if readySignaled then [] else [EvClose ChReady].

(** A queue within its capacity. *)
Definition bounded (A : Type) (c : chan A) : Prop :=
  (List.length (buf c) <= cap c)%nat.

(** The queue after a select-with-default send of [x]. *)
Definition offer (A : Type) (x : A) (c : chan A) : chan A :=
  if (List.length (buf c) <? cap c)%nat
  then {| cap := cap c; buf := buf c ++ [x]; closed := closed c |}
  else c.

Definition has_room (A : Type) (c : chan A) : bool :=
  (List.length (buf c) <? cap c)%nat.

(** The words of the specification for the joined transcript: the
    segments in order, one space between neighbours. *)
Fixpoint spaced (texts : list string) : string :=
  match texts with
  | [] => ""
  | [t] => t
  | t :: rest => (t ++ " " ++ spaced rest)%string
  end.

Module TTSProps.
Import TTS.

Section Defs.
Context {Data : Type} {codec : Codec Data}.

Definition delivered (acts : list (action Data)) : list (ReadResult Data) :=
  flat_map (fun a => match a with Deliver rd => [rd] | _ => [] end) acts.

Definition kinds (acts : list (action Data)) : list kind :=
  map kind_of (delivered acts).

Definition close_calls (acts : list (action Data)) : nat :=
  List.length (filter (fun a => match a with CallClose => true | _ => false end) acts).

Definition is_deliver (a : action Data) : bool :=
  match a with Deliver _ => true | _ => false end.

(** No Error envelope and no read failure among the reads. *)
Definition calm (acts : list (action Data)) : bool :=
  forallb (fun k => negb (fatal k)) (kinds acts).

(** The sessions a program can be in: made by [Stream], then stepped. *)
Inductive reachable : Session -> Prop :=
| reach_Stream dial write params w :
    Stream dial write params = inl w -> reachable w
| reach_step w a w' :
    reachable w -> step a w = Ok tt w' -> reachable w'.

(** A frame the dispatcher has nothing to do with. *)
Inductive discardable (data : Data) : Prop :=
| disc_not_tagged :
    snd (Unmarshal_wsMessage data) = true -> discardable data
| disc_unknown_tag :
    snd (Unmarshal_wsMessage data) = false ->
    Type_ (fst (Unmarshal_wsMessage data)) <> msgTypeReady ->
    Type_ (fst (Unmarshal_wsMessage data)) <> "audio" ->
    Type_ (fst (Unmarshal_wsMessage data)) <> msgTypeEndOfStream ->
    Type_ (fst (Unmarshal_wsMessage data)) <> msgTypeError ->
    discardable data
| disc_bad_payload :
    snd (Unmarshal_wsMessage data) = false ->
    Type_ (fst (Unmarshal_wsMessage data)) = "audio" ->
    snd (Unmarshal_ttsAudioMessage data) = true ->
    discardable data
| disc_bad_base64 :
    snd (Unmarshal_wsMessage data) = false ->
    Type_ (fst (Unmarshal_wsMessage data)) = "audio" ->
    snd (Unmarshal_ttsAudioMessage data) = false ->
    base64_DecodeString (tam_Audio (fst (Unmarshal_ttsAudioMessage data))) = None ->
    discardable data.

(** A frame that carries a chunk of audio. *)
Definition audio_frame (data : Data) (decoded : bytes) : Prop :=
  snd (Unmarshal_wsMessage data) = false /\
  Type_ (fst (Unmarshal_wsMessage data)) = "audio" /\
  snd (Unmarshal_ttsAudioMessage data) = false /\
  base64_DecodeString (tam_Audio (fst (Unmarshal_ttsAudioMessage data))) = Some decoded.

(** The deferred closes, as they show in the trace. *)
Definition closing : list event := [EvClose ChAudio; EvClose ChDone].

Definition Inv (w : Session) : Prop :=
  let s := stream w in
  cap (audioCh s) = 100 /\ bounded (audioCh s) /\
  match dispatcher w with
  | Running readySignaled =>
      closed (ready s) = readySignaled /\
      closed (audioCh s) = false /\
      closed (done s) = false /\
      forallb loop_event (trace w) = true /\
      closes ChReady (trace w) = Nat.b2n readySignaled
  | Returned =>
      closed (audioCh s) = true /\
      closed (done s) = true /\
      exists pre post,
        trace w = pre ++ closing ++ post /\
        forallb loop_event pre = true /\
        forallb caller_event post = true /\
        closes ChReady pre = Nat.b2n (closed (ready s))
  end.

End Defs.
End TTSProps.

Module STTProps.
Import STT.

Section Defs.
Context {Data : Type} {codec : Codec Data}.

Definition delivered (acts : list (action Data)) : list (ReadResult Data) :=
  flat_map (fun a => match a with Deliver rd => [rd] | _ => [] end) acts.

Definition kinds (acts : list (action Data)) : list kind :=
  map kind_of (delivered acts).

Definition close_calls (acts : list (action Data)) : nat :=
  List.length (filter (fun a => match a with CallClose => true | _ => false end) acts).

Definition is_deliver (a : action Data) : bool :=
  match a with Deliver _ => true | _ => false end.

Definition calm (acts : list (action Data)) : bool :=
  forallb (fun k => negb (fatal k)) (kinds acts).

(** No Ready envelope among the reads. *)
Definition no_ready (acts : list (action Data)) : bool :=
  forallb (fun k => match k with KReady => false | _ => true end) (kinds acts).

Inductive reachable : Session -> Prop :=
| reach_Stream dial write params w :
    Stream dial write params = inl w -> reachable w
| reach_step w a w' :
    reachable w -> step a w = Ok tt w' -> reachable w'.

Definition text_of (m : sttTextMessage) : STTTextResult :=
  {| Text := stm_Text m; StartS := stm_StartS m; StreamID := stm_StreamID m |}.
Definition step_of (m : sttStepMessage) : STTStepResult :=
  {| VAD := spm_VAD m; StepIdx := spm_StepIdx m;
     StepDurationS := spm_StepDurationS m; TotalDurationS := spm_TotalDurationS m |}.
Definition end_text_of (m : sttEndTextMessage) : STTEndTextResult :=
  {| StopS := sem_StopS m; et_StreamID := sem_StreamID m |}.

Definition tagged (data : Data) (tag : string) : Prop :=
  snd (Unmarshal_wsMessage data) = false /\
  Type_ (fst (Unmarshal_wsMessage data)) = tag.

Inductive discardable (data : Data) : Prop :=
| disc_not_tagged :
    snd (Unmarshal_wsMessage data) = true -> discardable data
| disc_unknown_tag :
    snd (Unmarshal_wsMessage data) = false ->
    Type_ (fst (Unmarshal_wsMessage data)) <> msgTypeReady ->
    Type_ (fst (Unmarshal_wsMessage data)) <> "text" ->
    Type_ (fst (Unmarshal_wsMessage data)) <> "step" ->
    Type_ (fst (Unmarshal_wsMessage data)) <> "end_text" ->
    Type_ (fst (Unmarshal_wsMessage data)) <> msgTypeEndOfStream ->
    Type_ (fst (Unmarshal_wsMessage data)) <> msgTypeError ->
    discardable data
| disc_bad_text :
    tagged data "text" -> snd (Unmarshal_sttTextMessage data) = true ->
    discardable data
| disc_bad_step :
    tagged data "step" -> snd (Unmarshal_sttStepMessage data) = true ->
    discardable data
| disc_bad_end_text :
    tagged data "end_text" -> snd (Unmarshal_sttEndTextMessage data) = true ->
    discardable data.

Definition text_frame (data : Data) (r : STTTextResult) : Prop :=
  tagged data "text" /\ snd (Unmarshal_sttTextMessage data) = false /\
  r = text_of (fst (Unmarshal_sttTextMessage data)).
Definition step_frame (data : Data) (r : STTStepResult) : Prop :=
  tagged data "step" /\ snd (Unmarshal_sttStepMessage data) = false /\
  r = step_of (fst (Unmarshal_sttStepMessage data)).
Definition end_text_frame (data : Data) (r : STTEndTextResult) : Prop :=
  tagged data "end_text" /\ snd (Unmarshal_sttEndTextMessage data) = false /\
  r = end_text_of (fst (Unmarshal_sttEndTextMessage data)).

Definition closing : list event :=
  [EvClose ChAll; EvClose ChEndText; EvClose ChVad; EvClose ChText; EvClose ChDone].

Definition capacities (s : STTStream) : Prop :=
  cap (textCh s) = 100 /\ cap (vadCh s) = 100 /\
  cap (endTextCh s) = 10 /\ cap (allMsgCh s) = 100.

Definition all_bounded (s : STTStream) : Prop :=
  bounded (textCh s) /\ bounded (vadCh s) /\
  bounded (endTextCh s) /\ bounded (allMsgCh s).

(** The closed flags of the four result channels and of [done]. *)
Definition flags (s : STTStream) (b : bool) : Prop :=
  closed (textCh s) = b /\ closed (vadCh s) = b /\ closed (endTextCh s) = b /\
  closed (allMsgCh s) = b /\ closed (done s) = b.

Definition Inv (w : Session) : Prop :=
  let s := stream w in
  capacities s /\ all_bounded s /\
  match dispatcher w with
  | Running readySignaled =>
      closed (ready s) = readySignaled /\
      flags s false /\
      forallb loop_event (trace w) = true /\
      closes ChReady (trace w) = Nat.b2n readySignaled
  | Returned =>
      flags s true /\
      exists pre post,
        trace w = pre ++ closing ++ post /\
        forallb loop_event pre = true /\
        forallb caller_event post = true /\
        closes ChReady pre = Nat.b2n (closed (ready s))
  end.

End Defs.
End STTProps.

(** ** Sessions to run *)
Module Examples.
Import Wire.

Definition plain : Conn := {| closeErr := None; closeCalls := 0 |}.

(** A connection over TLS whose peer is gone: closing it reports that
    the close-notify alert could not be sent. *)
Definition broken : Conn :=
  {| closeErr := Some (TransportError "tls: failed to send closeNotify alert");
     closeCalls := 0 |}.

Definition tts_params (format : OutputFormat) : TTSParams :=
  {| tp_VoiceID := "YTpq7expH9539ERJ"; tp_OutputFormat := format;
     tp_ModelName := ""; tp_Text := "Hello, world!"; tp_JSONConfig := None |}.

Definition stt_params : STTParams :=
  {| sp_InputFormat := InputFormatPCM; sp_ModelName := "" |}.

Definition tts_stream (c : Conn) : TTS.TTSStream :=
  TTS.mkTTSStream c "" (Chan.make unit 0) (Chan.make unit 0) None
                  (Chan.make bytes 100) false.

Definition tts_session (c : Conn) : TTS.Session :=
  TTS.mkSession (tts_stream c) (Running false) [].

Definition stt_stream (c : Conn) : STT.STTStream :=
  STT.mkSTTStream c None (Chan.make unit 0) (Chan.make unit 0) None
                  (Chan.make STTTextResult 100) (Chan.make STTStepResult 100)
                  (Chan.make STTEndTextResult 10) (Chan.make STT.any 100) false.

Definition stt_session (c : Conn) : STT.Session :=
  STT.mkSession (stt_stream c) (Running false) [].

(** The session a run ends in ([w] itself should it panic). *)
Definition tts_after (acts : list (TTS.action frame)) (w : TTS.Session) : TTS.Session :=
  match TTS.run acts w with
  | Ok _ w' => w'
  | Panic _ => w
  end.

Definition stt_after (acts : list (STT.action frame)) (w : STT.Session) : STT.Session :=
  match STT.run acts w with
  | Ok _ w' => w'
  | Panic _ => w
  end.

Definition bad_error_frame : frame :=
  Value (JObject [("type", JString "error"); ("code", JString "boom")]).

Definition bad_ready_frame : frame :=
  Value (JObject [("type", JString "ready"); ("request_id", int 7)]).

End Examples.

(** ** The write side, and the calls built on the streams *)

Record ttsTextMessage : Type := { ttm_Type : string; ttm_Text : string }.
Record sttAudioMessage : Type := { sam_Type : string; sam_Audio : string }.

(** What [conn.WriteJSON] is given. *)
Inductive outbound : Type :=
| OutText (m : ttsTextMessage)
| OutAudio (m : sttAudioMessage)
| OutMessage (m : wsMessage).

(** The write side of a connection once the setup message is out: what
    the transport will answer to the writes to come (nil past the end of
    the list) and the messages whose write has succeeded, in order.  A
    write that fails is not in [sent], whatever part of its message the
    transport may have flushed before it failed. *)
Record Writer : Type := mkWriter {
  outcomes : list (option string);
  sent : list outbound
}.

Definition WriteJSON (msg : outbound) (wr : Writer) : option error * Writer :=
  match outcomes wr with
  | Some why :: rest => (Some (TransportError why), mkWriter rest (sent wr))
  | None :: rest => (None, mkWriter rest (sent wr ++ [msg]))
  | [] => (None, mkWriter [] (sent wr ++ [msg]))
  end.

(** Whether a read ends the dispatcher's loop. *)
Definition terminal (k : kind) : bool :=
  match k with
  | KError | KReadFailure | KEndOfStream => true
  | _ => false
  end.

(** A queue of capacity [n] holding [b] after [xs] have been offered one
    by one with nobody taking: what fits is appended, the rest is lost. *)
Definition fill (A : Type) (n : nat) (b xs : list A) : list A :=
  b ++ firstn (n - List.length b) xs.

(** [kept] is [all] with some items left out, the order unchanged. *)
Inductive subseq (A : Type) : list A -> list A -> Prop :=
| subseq_nil : subseq [] []
| subseq_keep x kept all : subseq kept all -> subseq (x :: kept) (x :: all)
| subseq_drop x kept all : subseq kept all -> subseq kept (x :: all).

(** [base64.StdEncoding.EncodeToString]: three bytes give four
    characters of the alphabet, a last group of one or two bytes is
    padded with [=]. *)
Module Base64.

Definition encodeStd : string :=
  "ABCDEFGHIJKLMNOPQRSTUVWXYZabcdefghijklmnopqrstuvwxyz0123456789+/".

Definition enc (n : N) : ascii :=
  match String.get (N.to_nat n) encodeStd with
  | Some c => c
  | None => "="%char
  end.

Definition val (a b c : byte) : N :=
  (Byte.to_N a * 65536 + Byte.to_N b * 256 + Byte.to_N c)%N.

Fixpoint Encode (src : bytes) : list ascii :=
  match src with
  | [] => []
  | [a] =>
      let v := val a x00 x00 in
      [enc ((v / 262144) mod 64); enc ((v / 4096) mod 64); "="; "="]%char%N
  | [a; b] =>
      let v := val a b x00 in
      [enc ((v / 262144) mod 64); enc ((v / 4096) mod 64);
       enc ((v / 64) mod 64); "="%char]%N
  | a :: b :: c :: rest =>
      let v := val a b c in
      (enc ((v / 262144) mod 64) :: enc ((v / 4096) mod 64)
       :: enc ((v / 64) mod 64) :: enc (v mod 64) :: Encode rest)%N
  end.

Definition EncodeToString (src : bytes) : string :=
  string_of_list_ascii (Encode src).

End Base64.

(** The messages the caller writes: a text, a chunk of audio, the end
    of the input. *)
Definition text_msg (text : string) : outbound :=
  OutText {| ttm_Type := "text"; ttm_Text := text |}.
Definition audio_msg (audio : bytes) : outbound :=
  OutAudio {| sam_Type := "audio"; sam_Audio := Base64.EncodeToString audio |}.
Definition eos_msg : outbound := OutMessage {| Type_ := msgTypeEndOfStream |}.

Module TTSMore.
Import TTS TTSProps.

(** [SendText(text)] and [SendEndOfStream()]. *)
Definition SendText (text : string) (wr : Writer) : option error * Writer :=
  WriteJSON (OutText {| ttm_Type := "text"; ttm_Text := text |}) wr.

Definition SendEndOfStream (wr : Writer) : option error * Writer :=
  WriteJSON (OutMessage {| Type_ := msgTypeEndOfStream |}) wr.

(** [Audio()], [RequestID()], [Done()]. *)
Definition Audio (s : TTSStream) : chan bytes := audioCh s.
Definition RequestID (s : TTSStream) : string := requestID s.
Definition Done (s : TTSStream) : chan unit := done s.

Section Defs.
Context {Data : Type} {codec : Codec Data}.

(** The chunk that a read makes the dispatcher publish, if any. *)
Definition audio_payload (rd : ReadResult Data) : option bytes :=
  match rd with
  | ReadErr _ => None
  | ReadOK data =>
      let (msg, failed) := Unmarshal_wsMessage data in
      if failed then None
      else if Type_ msg =? "audio" then
        let (audioMsg, failed) := Unmarshal_ttsAudioMessage data in
        if failed then None else base64_DecodeString (tam_Audio audioMsg)
      else None
  end.

(** The chunks decoded from the reads up to the one that ends the loop,
    in the order of the reads. *)
Fixpoint chunks_of (reads : list (ReadResult Data)) : list bytes :=
  match reads with
  | [] => []
  | rd :: rest =>
      if terminal (kind_of rd) then []
      else match audio_payload rd with
           | Some c => c :: chunks_of rest
           | None => chunks_of rest
           end
  end.

(** The error that a read makes the dispatcher record, if any. *)
Definition error_of (rd : ReadResult Data) : option error :=
  match rd with
  | ReadErr why => Some (WebSocketError ("read error: " ++ why) 0)
  | ReadOK data =>
      match kind_of rd with
      | KError =>
          let errMsg := fst (Unmarshal_ttsErrorMessage data) in
          Some (WebSocketError (tem_Message errMsg) (tem_Code errMsg))
      | _ => None
      end
  end.

(** The error of the read that ends the loop. *)
Fixpoint first_error (reads : list (ReadResult Data)) : option error :=
  match reads with
  | [] => None
  | rd :: rest =>
      if terminal (kind_of rd) then error_of rd else first_error rest
  end.

(** What the consumer of [Audio()] has received in a run, in order: each
    [TakeAudio] takes the head of the queue as it is then. *)
Fixpoint received (acts : list (action Data)) (w : Session) : list bytes :=
  match acts with
  | [] => []
  | a :: rest =>
      match step a w with
      | Panic _ => []
      | Ok _ w' =>
          match a, buf (audioCh (stream w)) with
          | TakeAudio, x :: _ => x :: received rest w'
          | _, _ => received rest w'
          end
      end
  end.

(** The deferred [stream.Close()] of [Create], then its return. *)
Definition leave (A : Type) (r : A) (w : Session) (wr : Writer)
  : call (A * option Session * Writer) :=
  match step (@CallClose Data) w with
  | Ok _ w' => Returns (r, Some w', wr)
  | Panic why => Panics why
  end.

(** [Create(ctx, params)].  The stream is Create's own, so the session
    moves by the dispatcher's reads only: [before] are those done when
    [WaitReady] returns, [after] those done from then until [Collect]
    returns; [wr] is the write side after the setup message and [sel] what
    the selects of [Collect] yield.  The result comes with the session and
    the write side as Create leaves them (no session if [Stream] failed). *)
Definition Create (dial : Conn + string) (write : option string) (params : TTSParams)
           (before : list (ReadResult Data))
           (ctx_done : option error) (prefer_ctx : bool)
           (wr : Writer)
           (after : list (ReadResult Data)) (sel : list selected)
  : call ((option TTSResult * option error) * option Session * Writer) :=
  match Stream dial write params with
  | inr e => Returns ((None, Some e), None, wr)
  | inl w0 =>
      match handleMessages before w0 with
      | Panic why => Panics why
      | Ok _ w1 =>
          match WaitReady ctx_done prefer_ctx (stream w1) with
          | Blocked => Blocked
          | Panics why => Panics why
          | Returns (Some e) => leave (None, Some e) w1 wr
          | Returns None =>
              let (e1, wr1) := SendText (tp_Text params) wr in
              match e1 with
              | Some e => leave (None, Some e) w1 wr1
              | None =>
                  let (e2, wr2) := SendEndOfStream wr1 in
                  match e2 with
                  | Some e => leave (None, Some e) w1 wr2
                  | None =>
                      match handleMessages after w1 with
                      | Panic why => Panics why
                      | Ok _ w2 =>
                          match Collect sel (stream w2) with
                          | Blocked => Blocked
                          | Panics why => Panics why
                          | Returns r => leave r w2 wr2
                          end
                      end
                  end
              end
          end
      end
  end.

End Defs.
End TTSMore.

Module STTMore.
Import STT STTProps.

(** [SendAudio(audio)] *)
Definition SendAudio (audio : bytes) (wr : Writer) : option error * Writer :=
  let encoded := Base64.EncodeToString audio in
  WriteJSON (OutAudio {| sam_Type := "audio"; sam_Audio := encoded |}) wr.

(** [SendEndOfStream()] *)
Definition SendEndOfStream (wr : Writer) : option error * Writer :=
  WriteJSON (OutMessage {| Type_ := msgTypeEndOfStream |}) wr.

(** [Text()], [VAD()], [EndText()], [All()], [ReadyInfo()], [Done()]. *)
Definition Text (s : STTStream) : chan STTTextResult := textCh s.
Definition VAD (s : STTStream) : chan STTStepResult := vadCh s.
Definition EndText (s : STTStream) : chan STTEndTextResult := endTextCh s.
Definition All (s : STTStream) : chan any := allMsgCh s.
Definition ReadyInfo (s : STTStream) : option STTReadyInfo := readyInfo s.
Definition Done (s : STTStream) : chan unit := done s.

Definition texts_in (items : list any) : list STTTextResult :=
  flat_map (fun i => match i with AnyText r => [r] | _ => [] end) items.
Definition steps_in (items : list any) : list STTStepResult :=
  flat_map (fun i => match i with AnyStep r => [r] | _ => [] end) items.
Definition end_texts_in (items : list any) : list STTEndTextResult :=
  flat_map (fun i => match i with AnyEndText r => [r] | _ => [] end) items.

Section Defs.
Context {Data : Type} {codec : Codec Data}.

(** The item that a read makes the dispatcher publish, if any. *)
Definition item_of (rd : ReadResult Data) : option any :=
  match rd with
  | ReadErr _ => None
  | ReadOK data =>
      let (msg, failed) := Unmarshal_wsMessage data in
      if failed then None
      else if Type_ msg =? "text" then
        let (textMsg, failed) := Unmarshal_sttTextMessage data in
        if failed then None else Some (AnyText (text_of textMsg))
      else if Type_ msg =? "step" then
        let (stepMsg, failed) := Unmarshal_sttStepMessage data in
        if failed then None else Some (AnyStep (step_of stepMsg))
      else if Type_ msg =? "end_text" then
        let (endMsg, failed) := Unmarshal_sttEndTextMessage data in
        if failed then None else Some (AnyEndText (end_text_of endMsg))
      else None
  end.

(** The items decoded from the reads up to the one that ends the loop,
    in the order of the reads. *)
Fixpoint items_of (reads : list (ReadResult Data)) : list any :=
  match reads with
  | [] => []
  | rd :: rest =>
      if terminal (kind_of rd) then []
      else match item_of rd with
           | Some i => i :: items_of rest
           | None => items_of rest
           end
  end.

Definition error_of (rd : ReadResult Data) : option error :=
  match rd with
  | ReadErr why => Some (WebSocketError ("read error: " ++ why) 0)
  | ReadOK data =>
      match kind_of rd with
      | KError =>
          let errMsg := fst (Unmarshal_sttErrorMessage data) in
          Some (WebSocketError (serr_Message errMsg) (serr_Code errMsg))
      | _ => None
      end
  end.

Fixpoint first_error (reads : list (ReadResult Data)) : option error :=
  match reads with
  | [] => None
  | rd :: rest =>
      if terminal (kind_of rd) then error_of rd else first_error rest
  end.

End Defs.

(** The slice [audio[i:j]], for [i <= j <= len(audio)]. *)
Definition slice (audio : bytes) (i j : nat) : bytes :=
  firstn (j - i) (skipn i audio).

Definition chunkSize : nat := 1920 * 2.

(** The loop of [Transcribe] that sends the audio, from index [i] on:
    it stops at the first [SendAudio] that fails. *)
Equations? send_chunks (audio : bytes) (i : nat) (wr : Writer)
  : option error * Writer by wf (List.length audio - i) lt :=
send_chunks audio i wr with lt_dec i (List.length audio) => {
  | right _ => (None, wr)
  | left _ with SendAudio (slice audio i
                             (if (List.length audio <? i + chunkSize)%nat
                              then List.length audio else i + chunkSize)) wr => {
      | (Some e, wr') => (Some e, wr')
      | (None, wr') => send_chunks audio (i + chunkSize) wr' } }.
Proof. unfold chunkSize. lia. Qed.

Section Defs.
Context {Data : Type} {codec : Codec Data}.

(** The deferred [stream.Close()] of [Transcribe], then its return. *)
Definition leave (A : Type) (r : A) (w : Session) (wr : Writer)
  : call (A * option Session * Writer) :=
  match step (@CallClose Data) w with
  | Ok _ w' => Returns (r, Some w', wr)
  | Panic why => Panics why
  end.

(** [Transcribe(ctx, params, audio)], with the arguments of
    [TTSMore.Create]: [before] are the dispatcher's reads done when
    [WaitReady] returns, [after] those done from then until [CollectText]
    returns, [sel] what the selects of [CollectText] yield. *)
Definition Transcribe (dial : Conn + string) (write : option string) (params : STTParams)
           (audio : bytes)
           (before : list (ReadResult Data))
           (ctx_done : option error) (prefer_ctx : bool)
           (wr : Writer)
           (after : list (ReadResult Data)) (sel : list selected)
  : call ((string * option error) * option Session * Writer) :=
  match Stream dial write params with
  | inr e => Returns (("", Some e), None, wr)
  | inl w0 =>
      match handleMessages before w0 with
      | Panic why => Panics why
      | Ok _ w1 =>
          match WaitReady ctx_done prefer_ctx (stream w1) with
          | Blocked => Blocked
          | Panics why => Panics why
          | Returns (_, Some e) => leave ("", Some e) w1 wr
          | Returns (_, None) =>
              let (e1, wr1) := send_chunks audio 0 wr in
              match e1 with
              | Some e => leave ("", Some e) w1 wr1
              | None =>
                  let (e2, wr2) := SendEndOfStream wr1 in
                  match e2 with
                  | Some e => leave ("", Some e) w1 wr2
                  | None =>
                      match handleMessages after w1 with
                      | Panic why => Panics why
                      | Ok _ w2 =>
                          match CollectText sel (stream w2) with
                          | Blocked => Blocked
                          | Panics why => Panics why
                          | Returns r => leave r w2 wr2
                          end
                      end
                  end
              end
          end
      end
  end.

End Defs.
End STTMore.

(** ** The REST side: errors.go, the URL of [Voices.List], the client *)

(** [strconv.Itoa], and the [%d] of [fmt.Sprintf]. *)
Definition Itoa (z : Z) : string := NilZero.string_of_int (Z.to_int z).

Module Errors.
Import Wire.

Record ValidationErrorDetail : Type := {
  Loc : list json;
  Msg : string;
  ved_Type : string
}.

(** The error types of the package; [Error_] is the base type [Error]. *)
Inductive SDKError : Type :=
| Error_ (Message : string)
| AuthenticationError (Message : string)
| ValidationError (Status : Z) (Errors : list ValidationErrorDetail)
| APIError (Status : Z) (Message : string) (Body : string)
| NotFoundError (Message : string)
| RateLimitError (Message : string) (RetryAfter : Z)
| InternalServerError (Status : Z) (Message : string)
| WebSocketError (Message : string) (Code : Z)
| TimeoutError (Message : string)
| ConnectionError (Message : string).

(** The loop of the [Error()] of a [ValidationError]: [i] is the
    index of the head of [errs]. *)
Fixpoint validation_loop (i : nat) (errs : list ValidationErrorDetail) (msg : string)
  : string :=
  match errs with
  | [] => msg
  | err :: rest =>
      let msg := if (0 <? i)%nat then (msg ++ "; ")%string else msg in
      validation_loop (S i) rest (msg ++ Msg err)%string
  end.

(** The [Error()] methods. *)
Definition Error (e : SDKError) : string :=
  match e with
  | Error_ m => m
  | AuthenticationError m =>
      if m =? "" then "invalid or missing API key" else m
  | ValidationError _ errs =>
      if (List.length errs =? 0)%nat then "validation error"
      else validation_loop 0 errs "validation error: "
  | APIError status m _ => "API error (" ++ Itoa status ++ "): " ++ m
  | NotFoundError m => if m =? "" then "resource not found" else m
  | RateLimitError m _ => if m =? "" then "rate limit exceeded" else m
  | InternalServerError status m =>
      if m =? "" then "internal server error (" ++ Itoa status ++ ")" else m
  | WebSocketError m code =>
      if negb (code =? 0)%Z then "websocket error (" ++ Itoa code ++ "): " ++ m
      else "websocket error: " ++ m
  | TimeoutError m => if m =? "" then "request timed out" else m
  | ConnectionError m => if m =? "" then "failed to connect to the API" else m
  end%string.

(** What [handleAPIError] reads of an [*http.Response]. *)
Record Response : Type := {
  StatusCode : Z;
  Header_RetryAfter : string;   (* resp.Header.Get("Retry-After") *)
  Body : string                 (* io.ReadAll(resp.Body) *)
}.

(** Decoding into [struct { Detail interface{} }] and into
    [httpValidationError]. *)
Definition detail_field (k : string) (v : json) (d : option json) : option json * bool :=
  if k =? "detail"
  then (match v with JNull => None | _ => Some v end, false)
  else (d, false).

Definition ved_zero : ValidationErrorDetail :=
  {| Loc := []; Msg := ""; ved_Type := "" |}.

Definition ved_field (k : string) (v : json) (d : ValidationErrorDetail)
  : ValidationErrorDetail * bool :=
  if k =? "loc" then
    let (l, f) := dec_list (fun i => (i, false)) v (Loc d) in
    ({| Loc := l; Msg := Msg d; ved_Type := ved_Type d |}, f)
  else if k =? "msg" then
    let (s, f) := dec_string v (Msg d) in
    ({| Loc := Loc d; Msg := s; ved_Type := ved_Type d |}, f)
  else if k =? "type" then
    let (s, f) := dec_string v (ved_Type d) in
    ({| Loc := Loc d; Msg := Msg d; ved_Type := s |}, f)
  else (d, false).

Definition httpValidationError_field (k : string) (v : json)
           (ds : list ValidationErrorDetail) : list ValidationErrorDetail * bool :=
  if k =? "detail" then dec_list (dec_object ved_field ved_zero) v ds
  else (ds, false).

Section Handle.
(** The libraries: the JSON text of a body as [encoding/json] reads it,
    and [strconv.Atoi] (value and whether it reports an error). *)
Variable parse : string -> frame.
Variable Atoi : string -> Z * bool.

Definition handleAPIError (resp : Response) : SDKError :=
  let body := Body resp in
  let detail := fst (Unmarshal detail_field None (parse body)) in
  let getMessage :=
    match detail with
    | Some (JString s) => s
    | _ => body
    end in
  if (StatusCode resp =? 422)%Z then
    let (validationErr, failed) := Unmarshal httpValidationError_field [] (parse body) in
    if failed then ValidationError 422 [] else ValidationError 422 validationErr
  else if ((StatusCode resp =? 401) || (StatusCode resp =? 403))%Z then
    AuthenticationError getMessage
  else if (StatusCode resp =? 404)%Z then NotFoundError getMessage
  else if (StatusCode resp =? 429)%Z then
    let ra := Header_RetryAfter resp in
    let retryAfter := if ra =? "" then 0%Z else fst (Atoi ra) in
    RateLimitError getMessage retryAfter
  else if (500 <=? StatusCode resp)%Z then
    InternalServerError (StatusCode resp) getMessage
  else APIError (StatusCode resp) getMessage body.

End Handle.
End Errors.

Module Voices.

Record VoiceListParams : Type := {
  Skip : Z;
  Limit : Z;
  IncludeCatalog : bool
}.

(** The URL that [List(ctx, params)] requests; [params] may be nil. *)
Definition List_url (baseURL : string) (params : option VoiceListParams) : string :=
  let url := (baseURL ++ "/voices/")%string in
  match params with
  | None => url
  | Some params =>
      let query := "?" in
      let query := if (0 <? Skip params)%Z
                   then (query ++ "skip=" ++ Itoa (Skip params) ++ "&")%string
                   else query in
      let query := if (0 <? Limit params)%Z
                   then (query ++ "limit=" ++ Itoa (Limit params) ++ "&")%string
                   else query in
      let query := if IncludeCatalog params
                   then (query ++ "include_catalog=true&")%string
                   else query in
      if (1 <? String.length query)%nat
      then (url ++ substring 0 (String.length query - 1) query)%string
      else url
  end.

End Voices.

Module ClientCfg.

Definition Region := string.
Definition RegionEU : Region := "eu".
Definition RegionUS : Region := "us".

Definition apiURLs : list (Region * string) :=
  [(RegionEU, "https://eu.api.gradium.ai/api");
   (RegionUS, "https://us.api.gradium.ai/api")].

Definition wsURLs : list (Region * string) :=
  [(RegionEU, "wss://eu.api.gradium.ai/api/speech");
   (RegionUS, "wss://us.api.gradium.ai/api/speech")].

(** [m[k]] on a [map[Region]string]: the zero value when [k] is absent. *)
Fixpoint index (m : list (Region * string)) (k : Region) : string :=
  match m with
  | [] => ""
  | (k', v) :: rest => if k' =? k then v else index rest k
  end.

(** [strings.TrimSuffix] and [strings.Replace(s, old, new, 1)] for a
    non-empty [old]. *)
Fixpoint HasSuffix (s suffix : string) : bool :=
  (s =? suffix) ||
  match s with
  | EmptyString => false
  | String _ r => HasSuffix r suffix
  end.

Definition TrimSuffix (s suffix : string) : string :=
  if HasSuffix s suffix
  then substring 0 (String.length s - String.length suffix) s
  else s.

Fixpoint Replace1 (s old new : string) : string :=
  if String.prefix old s
  then (new ++ substring (String.length old) (String.length s - String.length old) s)%string
  else match s with
       | EmptyString => EmptyString
       | String c r => String c (Replace1 r old new)
       end.

(** An [http.Client], as far as the options go, and the heap they live
    on: an [*http.Client] is an address, nil being [None]. *)
Record httpClient : Type := { Timeout : Z }.
Definition heap := list httpClient.

Record Client : Type := mkClient {
  apiKey : string;
  region : Region;
  baseURL : string;
  wsURL : string;
  timeout : Z;
  httpClient_ : option nat
}.

(** A [ClientOption] is a function on the client: those that the five
    constructors of the package return, and nil ([NilOption]), which
    [NewClient] calls like any other.  (A function written by the caller
    is not among them.) *)
Inductive ClientOption : Type :=
| WithAPIKey (apiKey : string)
| WithRegion (region : Region)
| WithBaseURL (baseURL : string)
| WithTimeout (timeout : Z)
| WithHTTPClient (httpClient : option nat)
| NilOption.

(** Storing at an address ([None] for one that is not allocated). *)
Fixpoint store (h : heap) (a : nat) (v : httpClient) : option heap :=
  match h, a with
  | [], _ => None
  | _ :: rest, 0 => Some (v :: rest)
  | x :: rest, S a' =>
      match store rest a' v with
      | Some rest' => Some (x :: rest')
      | None => None
      end
  end.

(** Running one option on the client. *)
Definition apply_opt (opt : ClientOption) (c : Client) (h : heap) : call (Client * heap) :=
  match opt with
  | WithAPIKey k =>
      Returns (mkClient k (region c) (baseURL c) (wsURL c) (timeout c) (httpClient_ c), h)
  | WithRegion r =>
      Returns (mkClient (apiKey c) r (index apiURLs r) (index wsURLs r)
                        (timeout c) (httpClient_ c), h)
  | WithBaseURL u =>
      let u := TrimSuffix u "/" in
      let ws := (Replace1 u "https://" "wss://" ++ "/speech")%string in
      let ws := Replace1 ws "http://" "ws://" in
      Returns (mkClient (apiKey c) (region c) u ws (timeout c) (httpClient_ c), h)
  | WithTimeout d =>
      let c' := mkClient (apiKey c) (region c) (baseURL c) (wsURL c) d (httpClient_ c) in
      match httpClient_ c with
      | None => Panics "invalid memory address or nil pointer dereference"
      | Some a =>
          match store h a {| Timeout := d |} with
          | Some h' => Returns (c', h')
          | None => Panics "invalid memory address or nil pointer dereference"
          end
      end
  | WithHTTPClient p =>
      Returns (mkClient (apiKey c) (region c) (baseURL c) (wsURL c) (timeout c) p, h)
  | NilOption => Panics "invalid memory address or nil pointer dereference"
  end.

Fixpoint apply_all (opts : list ClientOption) (c : Client) (h : heap)
  : call (Client * heap) :=
  match opts with
  | [] => Returns (c, h)
  | opt :: rest =>
      match apply_opt opt c h with
      | Returns (c', h') => apply_all rest c' h'
      | Blocked => Blocked
      | Panics why => Panics why
      end
  end.

(** Whether running [opts] in order dereferences a nil pointer: a nil
    option is called, or a [WithTimeout] is run while the client's
    [httpClient] is nil; [is_nil] tells whether it is nil to begin with. *)
Fixpoint nil_dereference (is_nil : bool) (opts : list ClientOption) : bool :=
  match opts with
  | [] => false
  | NilOption :: _ => true
  | WithTimeout _ :: rest => is_nil || nil_dereference is_nil rest
  | WithHTTPClient p :: rest =>
      nil_dereference (match p with None => true | Some _ => false end) rest
  | _ :: rest => nil_dereference is_nil rest
  end.

Definition second : Z := 1000000000.

(** [NewClient(opts...)]: [env] is what [os.Getenv("GRADIUM_API_KEY")]
    gives and [h] the heap, on which the client's own [http.Client] is
    allocated. *)
Definition NewClient (opts : list ClientOption) (env : string) (h : heap)
  : call ((Client + Errors.SDKError) * heap) :=
  let c := mkClient "" RegionEU (index apiURLs RegionEU) (index wsURLs RegionEU)
                    (30 * second) (Some (List.length h)) in
  let h := h ++ [{| Timeout := 30 * second |}] in
  match apply_all opts c h with
  | Blocked => Blocked
  | Panics why => Panics why
  | Returns (c, h) =>
      let c := if apiKey c =? ""
               then mkClient env (region c) (baseURL c) (wsURL c) (timeout c) (httpClient_ c)
               else c in
      if apiKey c =? ""
      then Returns (inr (Errors.AuthenticationError
                           "API key is required. Use WithAPIKey option or set GRADIUM_API_KEY environment variable."),
                    h)
      else Returns (inl c, h)
  end.

Definition APIKey (c : Client) : string := apiKey c.
Definition BaseURL (c : Client) : string := baseURL c.
Definition WSURL (c : Client) : string := wsURL c.

End ClientCfg.


Unset Implicit Arguments.

(** * Proofs *)

Lemma closes_app c a b : closes c (a ++ b) = closes c a + closes c b.
Proof. unfold closes. now rewrite filter_app, length_app. Qed.

Lemma closes_caller c tr : forallb caller_event tr = true -> closes c tr = 0.
Proof.
  unfold closes. induction tr as [|e tr IH]; simpl; [easy|].
  intros H. apply andb_true_iff in H as [He Htr].
  destruct e; simpl in *; try discriminate; auto.
Qed.

Lemma closes_loop c tr :
  c <> ChReady -> forallb loop_event tr = true -> closes c tr = 0.
Proof.
  intros Hc. unfold closes. induction tr as [|e tr IH]; simpl; [easy|].
  intros H. apply andb_true_iff in H as [He Htr].
  destruct e as [| | c' | |]; simpl in *; auto.
  destruct c, c'; simpl in *; auto; try discriminate; congruence.
Qed.

Lemma forallb_snoc (A : Type) (f : A -> bool) l x :
  forallb f (l ++ [x]) = forallb f l && f x.
Proof. rewrite forallb_app. simpl. now rewrite andb_true_r. Qed.

Lemma close_returns_app a b :
  close_returns (a ++ b) = close_returns a ++ close_returns b.
Proof. unfold close_returns. now rewrite flat_map_app. Qed.

Ltac go_unfold :=
  unfold bind, ret, get, panic, when in *.

Module TTSFacts.
Import TTS TTSProps.

Section Facts.
Context {Data : Type} {codec : Codec Data}.

Ltac tts_unfold :=
  unfold step, handleMessages_step, iteration, deferred, close_chan, publish_audio,
    setError, emit, update, set_dispatcher, Close, Conn_Close,
    Chan.close, Chan.try_send, Chan.recv in *;
  go_unfold.

Ltac case_err :=
  lazymatch goal with
  | |- context [err ?s] => destruct (err s) eqn:?; simpl
  end.

(** The branches of [iteration], in the order of the source. *)
Ltac tts_branches rd rs :=
  tts_unfold; unfold kind_of in *;
  destruct rd as [data|why]; simpl;
  [ let msg := fresh "msg" in
    let failed := fresh "failed" in
    destruct (Unmarshal_wsMessage data) as [msg failed]; simpl;
    destruct failed; simpl;
    [ | destruct (Type_ msg =? msgTypeReady) eqn:Eready; simpl;
        [ destruct (Unmarshal_ttsReadyMessage data) as [? ?]; simpl;
          destruct rs; simpl
        | destruct (Type_ msg =? "audio") eqn:Eaudio; simpl;
          [ apply String.eqb_eq in Eaudio; rewrite ?Eaudio; simpl;
            destruct (Unmarshal_ttsAudioMessage data) as [? [|]]; simpl;
            [ | destruct (base64_DecodeString _); simpl ]
          | destruct (Type_ msg =? msgTypeEndOfStream) eqn:Eeos; simpl;
            [ | destruct (Type_ msg =? msgTypeError) eqn:Eerr; simpl;
                [ destruct (Unmarshal_ttsErrorMessage data) as [? ?]; simpl;
                  destruct rs; simpl; case_err
                | ] ] ] ] ]
  | destruct rs; simpl; case_err ].

Lemma tts_deliver_effect rd s rs tr :
  closed (ready s) = rs -> closed (audioCh s) = false -> closed (done s) = false ->
  exists s' g' evs,
    handleMessages_step rd (mkSession s (Running rs) tr)
    = Ok tt (mkSession s' g' (tr ++ EvRead :: evs)) /\
    conn s' = conn s /\ closeOnce s' = closeOnce s /\
    cap (audioCh s') = cap (audioCh s) /\
    (bounded (audioCh s) -> bounded (audioCh s')) /\
    close_returns (EvRead :: evs) = [] /\
    match kind_of rd with
    | KReady =>
        g' = Running true /\ closed (ready s') = true /\ err s' = err s /\
        audioCh s' = audioCh s /\ done s' = done s /\ evs = ready_close rs
    | KOther =>
        g' = Running rs /\ ready s' = ready s /\ err s' = err s /\
        requestID s' = requestID s /\
        closed (audioCh s') = false /\ done s' = done s /\
        (evs = [] \/ exists q, evs = [EvPublish ChAudio q])
    | KEndOfStream =>
        g' = Returned /\ ready s' = ready s /\ err s' = err s /\
        requestID s' = requestID s /\
        closed (audioCh s') = true /\ buf (audioCh s') = buf (audioCh s) /\
        closed (done s') = true /\
        evs = closing
    | KError | KReadFailure =>
        g' = Returned /\ closed (ready s') = true /\
        (err s = None -> exists e, err s' = Some e) /\
        (forall e, err s = Some e -> err s' = Some e) /\
        requestID s' = requestID s /\
        closed (audioCh s') = true /\ buf (audioCh s') = buf (audioCh s) /\
        closed (done s') = true /\
        evs = ready_close rs ++ closing
    end.
Proof.
  intros Hr Ha Hd. unfold bounded.
  tts_branches rd rs; do 4 (rewrite ?Hr, ?Ha, ?Hd; simpl);
    try destruct (Nat.ltb_spec (List.length (buf (audioCh s))) (cap (audioCh s))); simpl;
    rewrite <- ?app_assoc; simpl;
    (eexists _, _, _; split; [reflexivity|]); simpl;
    repeat split; eauto; try congruence;
    try (rewrite length_app; simpl; lia).
Qed.

(** What the caller's steps leave alone. *)
Lemma tts_caller_effect a s g tr :
  is_deliver a = false ->
  exists s' evs,
    step a (mkSession s g tr) = Ok tt (mkSession s' g (tr ++ evs)) /\
    forallb caller_event evs = true /\
    ready s' = ready s /\ done s' = done s /\ err s' = err s /\
    requestID s' = requestID s /\
    cap (audioCh s') = cap (audioCh s) /\
    closed (audioCh s') = closed (audioCh s) /\
    (bounded (audioCh s) -> bounded (audioCh s')).
Proof.
  destruct a as [rd| |]; simpl; [discriminate| |]; intros _.
  - tts_unfold. simpl.
    destruct (buf (audioCh s)) as [|x r] eqn:Eb; simpl.
    + exists s, []. rewrite app_nil_r.
      destruct (closed (audioCh s)); repeat split; auto.
    + eexists _, []. rewrite app_nil_r. split; [reflexivity|].
      simpl. repeat split; auto.
      unfold bounded; simpl. rewrite Eb. simpl. lia.
  - tts_unfold. simpl.
    destruct (closeOnce s); simpl.
    + eexists _, [_]. split; [reflexivity|]. repeat split; auto.
    + eexists _, [_; _]. rewrite <- app_assoc. split; [reflexivity|].
      repeat split; auto.
Qed.

Lemma tts_Inv_Stream dial write params w :
  Stream dial write params = inl w -> Inv w.
Proof.
  unfold Stream. destruct dial as [c|why]; [|discriminate].
  destruct write; [discriminate|]. intros H. injection H as <-.
  unfold Inv, bounded; simpl. repeat split; auto; lia.
Qed.

Lemma tts_step_Inv a w :
  Inv w -> exists w', step a w = Ok tt w' /\ Inv w'.
Proof.
  destruct w as [s g tr]. unfold Inv; simpl. intros (Hcap & Hb & H).
  destruct (is_deliver a) eqn:Ea.
  - destruct a as [rd| |]; try discriminate. simpl.
    destruct g as [rs|].
    + destruct H as (Hr & Ha & Hd & Hl & Hc).
      destruct (tts_deliver_effect rd s rs tr Hr Ha Hd)
        as (s' & g' & evs & -> & _ & _ & Hcap' & Hb' & _ & Hk).
      eexists; split; [reflexivity|]. simpl.
      rewrite Hcap'. split; [exact Hcap|]. split; [auto|].
      assert (Hread : forallb loop_event (tr ++ [EvRead]) = true)
        by (rewrite forallb_snoc, Hl; reflexivity).
      assert (Hcr : closes ChReady (tr ++ [EvRead]) = Nat.b2n rs)
        by (rewrite closes_app, Hc; unfold closes; simpl; lia).
      change (tr ++ EvRead :: evs) with (tr ++ [EvRead] ++ evs).
      rewrite app_assoc.
      destruct (kind_of rd).
      * destruct Hk as (-> & Hr' & _ & -> & -> & ->).
        repeat split; auto.
        -- rewrite forallb_app, Hread. destruct rs; reflexivity.
        -- rewrite closes_app, Hcr. destruct rs; reflexivity.
      * destruct Hk as (-> & Hr' & _ & _ & _ & Ha' & _ & Hd' & ->).
        repeat split; auto.
        exists ((tr ++ [EvRead]) ++ ready_close rs), [].
        split; [unfold closing; now rewrite <- !app_assoc|].
        repeat split; auto.
        -- rewrite forallb_app, Hread. destruct rs; reflexivity.
        -- rewrite closes_app, Hcr, Hr'. destruct rs; reflexivity.
      * destruct Hk as (-> & Hr' & _ & _ & _ & Ha' & _ & Hd' & ->).
        repeat split; auto.
        exists ((tr ++ [EvRead]) ++ ready_close rs), [].
        split; [unfold closing; now rewrite <- !app_assoc|].
        repeat split; auto.
        -- rewrite forallb_app, Hread. destruct rs; reflexivity.
        -- rewrite closes_app, Hcr, Hr'. destruct rs; reflexivity.
      * destruct Hk as (-> & -> & _ & _ & Ha' & _ & Hd' & ->).
        repeat split; auto.
        exists (tr ++ [EvRead]), [].
        split; [reflexivity|]. repeat split; auto. now rewrite Hcr, Hr.
      * destruct Hk as (-> & -> & _ & _ & Ha' & -> & Hev).
        repeat split; auto.
        -- rewrite forallb_app, Hread.
           destruct Hev as [->|[q ->]]; reflexivity.
        -- rewrite closes_app, Hcr.
           destruct Hev as [->|[q ->]]; unfold closes; simpl; lia.
    + tts_unfold. simpl. eexists; split; [reflexivity|]. simpl. auto.
  - destruct (tts_caller_effect a s g tr Ea)
      as (s' & evs & -> & Hev & Hr' & Hd' & _ & _ & Hcap' & Ha' & Hb').
    eexists; split; [reflexivity|]. simpl.
    rewrite Hcap', Hr', Hd', Ha'. split; [exact Hcap|]. split; [auto|].
    destruct g as [rs|].
    + destruct H as (Hr & Ha & Hd & Hl & Hc). repeat split; auto.
      * rewrite forallb_app, Hl. simpl.
        clear - Hev. induction evs as [|e evs IH]; simpl in *; auto.
        apply andb_true_iff in Hev as [He Hev]. rewrite (IH Hev).
        destruct e; simpl in *; try discriminate; reflexivity.
      * rewrite closes_app, Hc, (closes_caller _ _ Hev). lia.
    + destruct H as (Ha & Hd & pre & post & -> & Hpre & Hpost & Hc).
      repeat split; auto.
      exists pre, (post ++ evs). rewrite <- !app_assoc. repeat split; auto.
      now rewrite forallb_app, Hpost, Hev.
Qed.

Lemma tts_run_cons a acts w w' :
  run (a :: acts) w = Ok tt w' ->
  exists w1, step a w = Ok tt w1 /\ run acts w1 = Ok tt w'.
Proof.
  simpl. unfold bind at 1. destruct (step a w) as [[] w1|]; [|discriminate].
  intros H. exists w1. auto.
Qed.

(** [handleMessages] on a list of reads is the run that delivers them. *)
Lemma tts_handleMessages_run (reads : list (ReadResult Data)) : forall w,
  handleMessages reads w = run (map (@Deliver Data) reads) w.
Proof.
  induction reads as [|rd reads IH]; intros w; simpl; [reflexivity|].
  unfold bind. destruct (handleMessages_step rd w); [apply IH|reflexivity].
Qed.

Lemma tts_run_Inv acts : forall w,
  Inv w -> exists w', run acts w = Ok tt w' /\ Inv w'.
Proof.
  induction acts as [|a acts IH]; intros w H.
  - exists w. auto.
  - destruct (tts_step_Inv a w H) as (w1 & E1 & H1).
    destruct (IH w1 H1) as (w' & E' & H').
    exists w'. split; [|exact H']. simpl. unfold bind. now rewrite E1.
Qed.

Lemma tts_reachable_Inv w : reachable w -> Inv w.
Proof.
  induction 1 as [dial write params w H|w a w' _ IH E].
  - eapply tts_Inv_Stream; eauto.
  - destruct (tts_step_Inv a w IH) as (w1 & E1 & H1). congruence.
Qed.

Lemma tts_reachable_run acts : forall w w',
  reachable w -> run acts w = Ok tt w' -> reachable w'.
Proof.
  induction acts as [|a acts IH]; intros w w' R E.
  - injection E as <-. exact R.
  - apply tts_run_cons in E as (w1 & E1 & E').
    apply (IH w1 w'); [|exact E']. eapply reach_step; eauto.
Qed.

Lemma tts_step_Inv' a w w1 : Inv w -> step a w = Ok tt w1 -> Inv w1.
Proof.
  intros H E. destruct (tts_step_Inv a w H) as (w' & E' & H'). congruence.
Qed.

Lemma tts_Inv_closes w :
  Inv w -> closes ChReady (trace w) = Nat.b2n (closed (ready (stream w))).
Proof.
  unfold Inv. intros (_ & _ & H). destruct (dispatcher w).
  - destruct H as (Hr & _ & _ & _ & Hc). now rewrite Hc, Hr.
  - destruct H as (_ & _ & pre & post & -> & _ & Hpost & Hc).
    rewrite !closes_app, Hc, (closes_caller _ _ Hpost).
    unfold closes; simpl. lia.
Qed.

(** The gate after a run, from the kinds of the reads. *)
Lemma tts_run_gate acts : forall w w',
  Inv w -> run acts w = Ok tt w' ->
  closed (ready (stream w')) =
  match dispatcher w with
  | Running rs => rs || gate_resolved_by (kinds acts)
  | Returned => closed (ready (stream w))
  end.
Proof.
  induction acts as [|a acts IH]; intros w w' H E.
  - injection E as <-. destruct w as [s [rs|] tr]; simpl; auto.
    unfold Inv in H; simpl in H. destruct H as (_ & _ & Hr & _).
    now rewrite orb_false_r.
  - apply tts_run_cons in E as (w1 & E1 & E').
    pose proof (tts_step_Inv' a w w1 H E1) as H1.
    rewrite (IH w1 w' H1 E'). clear IH E' w'.
    destruct w as [s g tr]. simpl.
    destruct (is_deliver a) eqn:Ea.
    + destruct a as [rd| |]; try discriminate. unfold kinds; simpl.
      destruct g as [rs|].
      * unfold Inv in H; simpl in H. destruct H as (_ & _ & Hr & Ha & Hd & _).
        destruct (tts_deliver_effect rd s rs tr Hr Ha Hd)
          as (s' & g' & evs & E & _ & _ & _ & _ & _ & Hk).
        simpl in E1. rewrite E in E1. injection E1 as <-. simpl.
        destruct (kind_of rd); simpl.
        -- destruct Hk as (-> & _). now rewrite orb_true_r.
        -- destruct Hk as (-> & -> & _). now rewrite orb_true_r.
        -- destruct Hk as (-> & -> & _). now rewrite orb_true_r.
        -- destruct Hk as (-> & -> & _). now rewrite Hr, orb_false_r.
        -- destruct Hk as (-> & _). reflexivity.
      * simpl in E1. tts_unfold. simpl in E1. injection E1 as <-. reflexivity.
    + destruct (tts_caller_effect a s g tr Ea)
        as (s' & evs & E & _ & Hr' & _).
      rewrite E in E1. injection E1 as <-. simpl. rewrite Hr'.
      replace (kinds (a :: acts)) with (kinds acts); [reflexivity|].
      destruct a; try discriminate; reflexivity.
Qed.

Lemma tts_run_returned acts : forall w w',
  Inv w -> run acts w = Ok tt w' ->
  returned (dispatcher w') = returned (dispatcher w) || terminated_by (kinds acts).
Proof.
  induction acts as [|a acts IH]; intros w w' H E.
  - injection E as <-. now rewrite orb_false_r.
  - apply tts_run_cons in E as (w1 & E1 & E').
    pose proof (tts_step_Inv' a w w1 H E1) as H1.
    rewrite (IH w1 w' H1 E'). clear IH E' w'.
    destruct w as [s g tr]. simpl.
    destruct (is_deliver a) eqn:Ea.
    + destruct a; try discriminate. unfold kinds; simpl.
      destruct g as [rs|].
      * unfold Inv in H; simpl in H. destruct H as (_ & _ & Hr & Ha & Hd & _).
        destruct (tts_deliver_effect rd s rs tr Hr Ha Hd)
          as (s' & g' & evs & E & _ & _ & _ & _ & _ & Hk).
        simpl in E1. rewrite E in E1. injection E1 as <-. simpl.
        destruct (kind_of rd); simpl; destruct Hk as (-> & _); reflexivity.
      * simpl in E1. tts_unfold. simpl in E1. injection E1 as <-. reflexivity.
    + destruct (tts_caller_effect a s g tr Ea) as (s' & evs & E & _).
      rewrite E in E1. injection E1 as <-. simpl.
      replace (kinds (a :: acts)) with (kinds acts); [reflexivity|].
      destruct a; try discriminate; reflexivity.
Qed.

(** The error register and the gate only move one way. *)
Lemma tts_run_err acts : forall w w',
  Inv w -> run acts w = Ok tt w' ->
  (closed (ready (stream w)) = true -> closed (ready (stream w')) = true) /\
  (forall e, err (stream w) = Some e -> err (stream w') = Some e) /\
  (calm acts = true -> err (stream w') = err (stream w)).
Proof.
  induction acts as [|a acts IH]; intros w w' H E.
  - injection E as <-. auto.
  - apply tts_run_cons in E as (w1 & E1 & E').
    pose proof (tts_step_Inv' a w w1 H E1) as H1.
    destruct (IH w1 w' H1 E') as (IHr & IHe & IHc). clear IH E'.
    assert (Hstep :
      (closed (ready (stream w)) = true -> closed (ready (stream w1)) = true) /\
      (forall e, err (stream w) = Some e -> err (stream w1) = Some e) /\
      (calm [a] = true -> err (stream w1) = err (stream w))).
    { destruct w as [s g tr]. simpl.
      destruct (is_deliver a) eqn:Ea.
      + destruct a as [rd| |]; try discriminate. unfold calm, kinds; simpl.
        destruct g as [rs|].
        * unfold Inv in H; simpl in H. destruct H as (_ & _ & Hr & Ha & Hd & _).
          destruct (tts_deliver_effect rd s rs tr Hr Ha Hd)
            as (s' & g' & evs & E & _ & _ & _ & _ & _ & Hk).
          simpl in E1. rewrite E in E1. injection E1 as <-. simpl.
          destruct (kind_of rd); simpl.
          -- destruct Hk as (_ & Hr' & -> & _). auto.
          -- destruct Hk as (_ & Hr' & _ & He & _). repeat split; auto; discriminate.
          -- destruct Hk as (_ & Hr' & _ & He & _). repeat split; auto; discriminate.
          -- destruct Hk as (_ & -> & -> & _). auto.
          -- destruct Hk as (_ & -> & -> & _). auto.
        * simpl in E1. tts_unfold. simpl in E1. injection E1 as <-. auto.
      + destruct (tts_caller_effect a s g tr Ea)
          as (s' & evs & E & _ & Hr' & _ & He' & _).
        rewrite E in E1. injection E1 as <-. simpl. rewrite Hr', He'. auto. }
    destruct Hstep as (Sr & Se & Sc).
    repeat split; auto.
    intros Hcalm.
    assert (calm [a] = true /\ calm acts = true) as [C1 C2].
    { unfold calm, kinds in *. destruct a; simpl in *; auto.
      apply andb_true_iff in Hcalm as [-> ->]. auto. }
    rewrite (IHc C2). auto.
Qed.

(** What [Close] has done after a run. *)
Lemma tts_run_close acts : forall w w',
  Inv w -> run acts w = Ok tt w' ->
  closeErr (conn (stream w')) = closeErr (conn (stream w)) /\
  closeOnce (stream w') = closeOnce (stream w) || (0 <? close_calls acts)%nat /\
  closeCalls (conn (stream w')) =
    closeCalls (conn (stream w))
    + (if closeOnce (stream w) then 0 else Nat.min 1 (close_calls acts)) /\
  close_returns (trace w') =
    close_returns (trace w)
    ++ match close_calls acts with
       | 0 => []
       | S n => (if closeOnce (stream w) then None else closeErr (conn (stream w)))
                :: repeat None n
       end.
Proof.
  induction acts as [|a acts IH]; intros w w' H E.
  - injection E as <-. simpl.
    rewrite orb_false_r, app_nil_r. destruct (closeOnce (stream w)); auto.
  - apply tts_run_cons in E as (w1 & E1 & E').
    pose proof (tts_step_Inv' a w w1 H E1) as H1.
    destruct (IH w1 w' H1 E') as (-> & -> & -> & ->). clear IH E' H1.
    destruct w as [s g tr]. simpl.
    destruct a as [rd| |].
    + replace (close_calls (Deliver rd :: acts)) with (close_calls acts) by reflexivity.
      destruct g as [rs|].
      * unfold Inv in H; simpl in H. destruct H as (_ & _ & Hr & Ha & Hd & _).
        destruct (tts_deliver_effect rd s rs tr Hr Ha Hd)
          as (s' & g' & evs & E & Hco & Hon & _ & _ & Hcr & _).
        simpl in E1. rewrite E in E1. injection E1 as <-. simpl.
        rewrite Hco, Hon, close_returns_app, Hcr, app_nil_r. auto.
      * simpl in E1. tts_unfold. simpl in E1. injection E1 as <-. auto.
    + replace (close_calls (TakeAudio :: acts)) with (close_calls acts) by reflexivity.
      simpl in E1. tts_unfold. simpl in E1.
      destruct (buf (audioCh s)); [destruct (closed (audioCh s))|];
        injection E1 as <-; simpl; auto.
    + replace (close_calls (CallClose :: acts)) with (S (close_calls acts)) by reflexivity.
      simpl in E1. tts_unfold. simpl in E1.
      destruct (closeOnce s) eqn:Eo; simpl in E1; injection E1 as <-; simpl;
        rewrite ?Eo; simpl; rewrite ?close_returns_app; simpl;
        rewrite <- ?app_assoc; simpl.
      * repeat split; auto.
        destruct (close_calls acts); simpl; auto.
      * repeat split; auto; try lia.
        destruct (close_calls acts); simpl; auto.
Qed.

Lemma tts_discard data w rs :
  discardable data -> dispatcher w = Running rs ->
  handleMessages_step (ReadOK data) w
  = Ok tt (mkSession (stream w) (Running rs) (trace w ++ [EvRead])).
Proof.
  destruct w as [s g tr]; simpl. intros D ->. tts_unfold. simpl.
  destruct D as [H|H N1 N2 N3 N4|H T P|H T P B];
    destruct (Unmarshal_wsMessage data) as [msg failed]; simpl in *; subst;
    try reflexivity.
  - apply String.eqb_neq in N1, N2, N3, N4. rewrite N1, N2, N3, N4. reflexivity.
  - rewrite T. simpl.
    destruct (Unmarshal_ttsAudioMessage data) as [am f]; simpl in *; subst.
    reflexivity.
  - rewrite T. simpl.
    destruct (Unmarshal_ttsAudioMessage data) as [am f]; simpl in *; subst.
    rewrite B. reflexivity.
Qed.

Lemma tts_publish data decoded w rs :
  audio_frame data decoded -> dispatcher w = Running rs ->
  closed (audioCh (stream w)) = false ->
  handleMessages_step (ReadOK data) w
  = Ok tt (mkSession (set_audioCh (offer decoded (audioCh (stream w))) (stream w))
                     (Running rs)
                     (trace w ++ [EvRead; EvPublish ChAudio (has_room (audioCh (stream w)))])).
Proof.
  destruct w as [s g tr]; simpl. intros (H & T & P & B) -> Ha. tts_unfold. simpl.
  destruct (Unmarshal_wsMessage data) as [msg failed]; simpl in *; subst.
  rewrite T. simpl.
  destruct (Unmarshal_ttsAudioMessage data) as [am f]; simpl in *; subst.
  rewrite B. simpl. rewrite Ha. unfold offer, has_room.
  destruct (_ <? _)%nat; simpl; rewrite <- ?app_assoc; simpl; rewrite ?Ha; try reflexivity.
Qed.

(** What one read does to the audio queue and to the error register. *)
Lemma tts_deliver_more rd s rs tr :
  closed (ready s) = rs -> closed (audioCh s) = false -> closed (done s) = false ->
  exists w',
    handleMessages_step rd (mkSession s (Running rs) tr) = Ok tt w' /\
    dispatcher w' = (if terminal (kind_of rd) then Returned
                     else Running (rs || match kind_of rd with KReady => true | _ => false end)) /\
    buf (audioCh (stream w')) =
      match TTSMore.audio_payload rd with
      | Some c => buf (offer c (audioCh s))
      | None => buf (audioCh s)
      end /\
    (terminal (kind_of rd) = true -> TTSMore.audio_payload rd = None) /\
    err (stream w') =
      match err s with
      | Some e => Some e
      | None => TTSMore.error_of rd
      end /\
    (terminal (kind_of rd) = false -> TTSMore.error_of rd = None).
Proof.
  intros Hr Ha Hd.
  unfold TTSMore.audio_payload, TTSMore.error_of, terminal, offer.
  tts_branches rd rs; do 4 (rewrite ?Hr, ?Ha, ?Hd; simpl);
    repeat match goal with
           | H : (Type_ _ =? _) = true |- _ => apply String.eqb_eq in H
           | H : Type_ _ = _ |- _ => rewrite H; clear H
           | H : (Type_ _ =? _) = false |- _ => rewrite H; clear H
           end; simpl;
    try destruct (Nat.ltb_spec (List.length (buf (audioCh s))) (cap (audioCh s))); simpl;
    (eexists; split; [reflexivity|]); simpl;
    rewrite ?orb_false_r, ?orb_true_r;
    repeat split; auto; try discriminate; try congruence;
    try (destruct (err s); reflexivity).
Qed.

Lemma tts_returned_deliver rd w :
  dispatcher w = Returned -> step (Deliver rd) w = Ok tt w.
Proof.
  destruct w as [s g tr]; simpl. intros ->. tts_unfold. reflexivity.
Qed.

Lemma tts_take_step w :
  exists w',
    step (@TakeAudio Data) w = Ok tt w' /\
    dispatcher w' = dispatcher w /\ err (stream w') = err (stream w) /\
    buf (audioCh (stream w')) = tl (buf (audioCh (stream w))).
Proof.
  destruct w as [s g tr]. tts_unfold. simpl.
  destruct (buf (audioCh s)) as [|x r] eqn:Eb; simpl.
  - destruct (closed (audioCh s)); eexists; (split; [reflexivity|]); simpl;
      rewrite ?Eb; auto.
  - eexists; (split; [reflexivity|]); simpl; auto.
Qed.

Lemma tts_close_step w :
  exists w',
    step (@CallClose Data) w = Ok tt w' /\
    dispatcher w' = dispatcher w /\ err (stream w') = err (stream w) /\
    audioCh (stream w') = audioCh (stream w) /\
    closeCalls (conn (stream w')) =
      closeCalls (conn (stream w)) + (if closeOnce (stream w) then 0 else 1).
Proof.
  destruct w as [s g tr]. tts_unfold. simpl.
  destruct (closeOnce s); simpl; eexists; (split; [reflexivity|]); simpl;
    repeat split; auto; lia.
Qed.

(** The error register after a run: the error of the read that ended
    the loop, the first to be recorded. *)
Lemma tts_run_first_error acts : forall w w',
  Inv w -> run acts w = Ok tt w' ->
  err (stream w') =
    match err (stream w) with
    | Some e => Some e
    | None => if returned (dispatcher w) then None
              else TTSMore.first_error (delivered acts)
    end.
Proof.
  induction acts as [|a acts IH]; intros w w' H E.
  - injection E as <-. destruct (err (stream w)), (returned (dispatcher w)); reflexivity.
  - apply tts_run_cons in E as (w1 & E1 & E').
    pose proof (tts_step_Inv' a w w1 H E1) as H1.
    rewrite (IH w1 w' H1 E'). clear IH E' w'.
    destruct a as [rd| |].
    + destruct w as [s [rs|] tr].
      * pose proof H as (_ & _ & Hr & Ha & Hd & _). simpl in Hr, Ha, Hd.
        destruct (tts_deliver_more rd s rs tr Hr Ha Hd)
          as (w2 & E2 & Hg & _ & _ & He & Hn).
        simpl in E1. rewrite E2 in E1. injection E1 as <-.
        rewrite He, Hg. simpl.
        destruct (err s) as [e|]; [reflexivity|].
        destruct (terminal (kind_of rd)) eqn:Et; simpl.
        -- destruct (TTSMore.error_of rd); reflexivity.
        -- now rewrite (Hn eq_refl).
      * rewrite (tts_returned_deliver rd (mkSession s Returned tr) eq_refl) in E1. injection E1 as <-.
        reflexivity.
    + destruct (tts_take_step w) as (w2 & E2 & Hg & He & _).
      rewrite E2 in E1. injection E1 as <-. now rewrite He, Hg.
    + destruct (tts_close_step w) as (w2 & E2 & Hg & He & _).
      rewrite E2 in E1. injection E1 as <-. now rewrite He, Hg.
Qed.

Lemma fill_offer (A : Type) (c : A) (ch : chan A) (xs : list A) :
  fill (cap ch) (buf (offer c ch)) xs = fill (cap ch) (buf ch) (c :: xs).
Proof.
  unfold fill, offer.
  destruct (Nat.ltb_spec (List.length (buf ch)) (cap ch)); simpl.
  - rewrite length_app, <- app_assoc. simpl.
    destruct (cap ch - List.length (buf ch)) as [|k] eqn:Ek; [lia|].
    replace (cap ch - (List.length (buf ch) + 1)) with k by lia. reflexivity.
  - replace (cap ch - List.length (buf ch)) with 0 by lia. reflexivity.
Qed.

(** With nobody taking, the queue after the reads is what fitted of the
    decoded chunks, in their order. *)
Lemma tts_run_fill reads : forall w w',
  Inv w -> run (map (@Deliver Data) reads) w = Ok tt w' ->
  buf (audioCh (stream w')) =
    if returned (dispatcher w) then buf (audioCh (stream w))
    else fill 100 (buf (audioCh (stream w))) (TTSMore.chunks_of reads).
Proof.
  induction reads as [|rd reads IH]; intros w w' H E.
  - injection E as <-. destruct (returned (dispatcher w)); [reflexivity|].
    unfold fill. cbn [TTSMore.chunks_of map]. now rewrite firstn_nil, app_nil_r.
  - change (map (@Deliver Data) (rd :: reads))
      with (Deliver rd :: map (@Deliver Data) reads) in E.
    apply tts_run_cons in E as (w1 & E1 & E').
    pose proof (tts_step_Inv' _ w w1 H E1) as H1.
    rewrite (IH w1 w' H1 E'). clear IH E' w'.
    destruct w as [s [rs|] tr].
    + pose proof H as (Hcap & _ & Hr & Ha & Hd & _). simpl in Hcap, Hr, Ha, Hd.
      destruct (tts_deliver_more rd s rs tr Hr Ha Hd)
        as (w2 & E2 & Hg & Hb & Hp & _).
      simpl in E1. rewrite E2 in E1. injection E1 as <-.
      rewrite Hg, Hb. cbn [TTSMore.chunks_of returned].
      destruct (terminal (kind_of rd)) eqn:Et; cbn [returned].
      * rewrite (Hp eq_refl). unfold fill. now rewrite firstn_nil, app_nil_r.
      * destruct (TTSMore.audio_payload rd) as [c|]; [|reflexivity].
        rewrite <- Hcap. apply fill_offer.
    + rewrite (tts_returned_deliver rd (mkSession s Returned tr) eq_refl) in E1. injection E1 as <-.
      reflexivity.
Qed.

(** With a consumer taking at any time: what it has received, followed
    by what is queued, is what was queued before followed by the chunks
    that were accepted, a selection in order of the decoded ones; when
    all fitted, none was left out. *)
Lemma tts_run_fifo acts : forall w w',
  Inv w -> run acts w = Ok tt w' ->
  let decoded := if returned (dispatcher w) then []
                 else TTSMore.chunks_of (delivered acts) in
  exists kept,
    subseq kept decoded /\
    buf (audioCh (stream w)) ++ kept
    = TTSMore.received acts w ++ buf (audioCh (stream w')) /\
    (List.length (buf (audioCh (stream w))) + List.length decoded <= 100 ->
     kept = decoded).
Proof.
  induction acts as [|a acts IH]; intros w w' H E; simpl.
  - injection E as <-. exists []. rewrite app_nil_r.
    destruct (returned (dispatcher w)); repeat split; auto; constructor.
  - apply tts_run_cons in E as (w1 & E1 & E').
    pose proof (tts_step_Inv' a w w1 H E1) as H1.
    destruct (IH w1 w' H1 E') as (kept1 & S1 & B1 & L1). clear IH E'.
    rewrite E1.
    destruct a as [rd| |].
    + destruct w as [s [rs|] tr].
      * pose proof H as (Hcap & _ & Hr & Ha & Hd & _). simpl in Hcap, Hr, Ha, Hd.
        destruct (tts_deliver_more rd s rs tr Hr Ha Hd)
          as (w2 & E2 & Hg & Hb & Hp & _).
        simpl in E1. rewrite E2 in E1. injection E1 as <-.
        rewrite Hg, Hb in *.
        cbn [TTSMore.chunks_of returned delivered flat_map app stream dispatcher] in *.
        destruct (terminal (kind_of rd)) eqn:Et; cbn [returned] in *.
        -- rewrite (Hp eq_refl) in *. exists kept1. auto.
        -- destruct (TTSMore.audio_payload rd) as [c|]; [|exists kept1; auto].
           unfold offer in *.
           destruct (Nat.ltb_spec (List.length (buf (audioCh s))) (cap (audioCh s)));
             cbn [buf] in *.
           ++ exists (c :: kept1). rewrite <- app_assoc in B1.
              repeat split; auto.
              ** now constructor.
              ** intros Hl. rewrite L1; [reflexivity|].
                 rewrite length_app. simpl in *. lia.
           ++ exists kept1. repeat split; auto.
              ** now constructor.
              ** intros Hl. simpl in Hl. lia.
      * rewrite (tts_returned_deliver rd (mkSession s Returned tr) eq_refl) in E1.
        injection E1 as <-. exists kept1. auto.
    + destruct (tts_take_step w) as (w2 & E2 & Hg & _ & Hb).
      rewrite E2 in E1. injection E1 as <-.
      rewrite Hg, Hb in *.
      replace (delivered (TakeAudio :: acts)) with (delivered acts) by reflexivity.
      exists kept1. destruct (buf (audioCh (stream w))) as [|x r]; simpl in *.
      * auto.
      * repeat split; auto.
        -- now rewrite B1.
        -- intros Hl. apply L1. lia.
    + destruct (tts_close_step w) as (w2 & E2 & Hg & _ & Hb & _).
      rewrite E2 in E1. injection E1 as <-.
      rewrite Hg, Hb in *.
      replace (delivered (CallClose :: acts)) with (delivered acts) by reflexivity.
      exists kept1. auto.
Qed.

End Facts.

(** [Collect] *)

Lemma copy_prefix (A : Type) (src : list A) : forall dst,
  List.length src <= List.length dst ->
  copy dst src = src ++ skipn (List.length src) dst.
Proof.
  induction src as [|x src IH]; intros [|d dst]; simpl; intros H; auto; try lia.
  rewrite IH by lia. reflexivity.
Qed.

Lemma combine_chunks_concat (chunks : list bytes) : forall pre rest,
  List.length rest = List.length (List.concat chunks) ->
  combine_chunks chunks (pre ++ rest) (List.length pre) = Some (pre ++ List.concat chunks).
Proof.
  induction chunks as [|c chunks IH]; intros pre rest H; simpl in *.
  - destruct rest; [reflexivity|discriminate].
  - rewrite length_app in H. unfold copy_at.
    rewrite length_app.
    destruct (Nat.leb_spec (List.length pre) (List.length pre + List.length rest)); [|lia].
    rewrite firstn_app, Nat.sub_diag, firstn_all, firstn_O, app_nil_r.
    rewrite skipn_app, Nat.sub_diag, skipn_all, skipn_O. simpl.
    rewrite copy_prefix by lia.
    replace (List.length pre + List.length c) with (List.length (pre ++ c))
      by now rewrite length_app.
    rewrite (app_assoc pre c (skipn _ rest)).
    rewrite IH; [now rewrite <- app_assoc|].
    rewrite length_skipn. lia.
Qed.

Lemma Collect_loop_chunks chunks : forall acc total s rest,
  total = List.length (List.concat acc) ->
  Collect_loop (map GotChunk chunks ++ GotClosed :: rest) acc total s =
  match getError s with
  | Some e => Returns (None, Some e)
  | None => Returns (Some {| RawData := List.concat (acc ++ chunks);
                             SampleRate := 48000;
                             tr_RequestID := requestID s |}, None)
  end.
Proof.
  induction chunks as [|c chunks IH]; intros acc total s rest ->; simpl.
  - destruct (getError s); [reflexivity|].
    rewrite app_nil_r.
    pose proof (combine_chunks_concat acc [] (repeat x00 (List.length (List.concat acc)))) as H.
    simpl in H. rewrite H; [reflexivity|]. now rewrite repeat_length.
  - rewrite IH.
    + now rewrite <- app_assoc.
    + rewrite concat_app, length_app. simpl. now rewrite app_nil_r.
Qed.

Lemma Collect_loop_rate sel : forall acc total s r e,
  Collect_loop sel acc total s = Returns (Some r, e) -> SampleRate r = 48000%Z.
Proof.
  induction sel as [|x sel IH]; intros acc total s r e; simpl; [discriminate|].
  destruct x as [chunk| |e'].
  - apply IH.
  - destruct (getError s); [discriminate|].
    destruct (combine_chunks _ _ _); [|discriminate].
    intros H. injection H as <- _. reflexivity.
  - discriminate.
Qed.

End TTSFacts.

Module STTFacts.
Import STT STTProps.

Section Facts.
Context {Data : Type} {codec : Codec Data}.

Ltac stt_unfold :=
  unfold step, take, handleMessages_step, iteration, deferred, close_chan, publish,
    setError, emit, update, set_dispatcher, Close, Conn_Close,
    Chan.close, Chan.try_send, Chan.recv in *;
  go_unfold.

Ltac case_err :=
  lazymatch goal with
  | |- context [err ?s] => destruct (err s) eqn:?; simpl
  end.

Ltac item_branch E dec :=
  apply String.eqb_eq in E; rewrite ?E; simpl;
  destruct dec as [? [|]]; simpl.

(** The branches of [iteration], in the order of the source. *)
Ltac stt_branches rd rs :=
  stt_unfold; unfold kind_of in *;
  destruct rd as [data|why]; simpl;
  [ let msg := fresh "msg" in
    let failed := fresh "failed" in
    destruct (Unmarshal_wsMessage data) as [msg failed]; simpl;
    destruct failed; simpl;
    [ | destruct (Type_ msg =? msgTypeReady) eqn:Eready; simpl;
        [ destruct (Unmarshal_sttReadyMessage data) as [? ?]; simpl;
          destruct rs; simpl
        | destruct (Type_ msg =? "text") eqn:Etext; simpl;
          [ item_branch Etext (Unmarshal_sttTextMessage data)
          | destruct (Type_ msg =? "step") eqn:Estep; simpl;
            [ item_branch Estep (Unmarshal_sttStepMessage data)
            | destruct (Type_ msg =? "end_text") eqn:Eend; simpl;
              [ item_branch Eend (Unmarshal_sttEndTextMessage data)
              | destruct (Type_ msg =? msgTypeEndOfStream) eqn:Eeos; simpl;
                [ | destruct (Type_ msg =? msgTypeError) eqn:Eerr; simpl;
                    [ destruct (Unmarshal_sttErrorMessage data) as [? ?]; simpl;
                      destruct rs; simpl; case_err
                    | ] ] ] ] ] ] ]
  | destruct rs; simpl; case_err ].

Ltac case_room :=
  repeat match goal with
         | |- context [(?a <? ?b)%nat] => destruct (Nat.ltb_spec a b); simpl
         end.

Lemma stt_deliver_effect rd s rs tr :
  closed (ready s) = rs -> flags s false ->
  exists s' g' evs,
    handleMessages_step rd (mkSession s (Running rs) tr)
    = Ok tt (mkSession s' g' (tr ++ EvRead :: evs)) /\
    conn s' = conn s /\ closeOnce s' = closeOnce s /\
    (capacities s -> capacities s') /\
    (all_bounded s -> all_bounded s') /\
    close_returns (EvRead :: evs) = [] /\
    match kind_of rd with
    | KReady =>
        g' = Running true /\ closed (ready s') = true /\ err s' = err s /\
        flags s' false /\ evs = ready_close rs /\
        (exists info, readyInfo s' = Some info)
    | KOther =>
        g' = Running rs /\ ready s' = ready s /\ err s' = err s /\
        readyInfo s' = readyInfo s /\ flags s' false /\
        forallb loop_event evs = true /\ closes ChReady evs = 0
    | KEndOfStream =>
        g' = Returned /\ ready s' = ready s /\ err s' = err s /\
        readyInfo s' = readyInfo s /\ flags s' true /\
        buf (textCh s') = buf (textCh s) /\
        evs = closing
    | KError | KReadFailure =>
        g' = Returned /\ closed (ready s') = true /\
        (err s = None -> exists e, err s' = Some e) /\
        (forall e, err s = Some e -> err s' = Some e) /\
        readyInfo s' = readyInfo s /\ flags s' true /\
        buf (textCh s') = buf (textCh s) /\
        evs = ready_close rs ++ closing
    end.
Proof.
  intros Hr (Ht & Hv & He & Hl & Hd).
  unfold flags, capacities, all_bounded, bounded.
  stt_branches rd rs;
    do 6 (rewrite ?Hr, ?Ht, ?Hv, ?He, ?Hl, ?Hd; simpl; case_room);
    rewrite <- ?app_assoc; simpl;
    (eexists _, _, _; split; [reflexivity|]); simpl;
    repeat split; eauto; try congruence; try tauto;
    try (rewrite ?length_app; simpl; lia).
Qed.

Ltac take_case s ch :=
  stt_unfold; simpl;
  destruct (buf (ch s)) as [|x r] eqn:Eb; simpl;
  [ exists s, []; rewrite app_nil_r;
    destruct (closed (ch s)); repeat (split; [solve [auto]|]); auto
  | eexists _, []; rewrite app_nil_r; (split; [reflexivity|]);
    simpl; unfold all_bounded, bounded, capacities, flags; simpl;
    rewrite ?Eb; simpl; intuition (auto; lia) ].

Lemma stt_caller_effect a s g tr :
  is_deliver a = false ->
  exists s' evs,
    step a (mkSession s g tr) = Ok tt (mkSession s' g (tr ++ evs)) /\
    forallb caller_event evs = true /\
    ready s' = ready s /\ err s' = err s /\ readyInfo s' = readyInfo s /\
    (forall b, flags s b -> flags s' b) /\
    (capacities s -> capacities s') /\
    (all_bounded s -> all_bounded s').
Proof.
  destruct a as [rd| | | | |]; simpl; [discriminate| | | | |]; intros _.
  - take_case s textCh.
  - take_case s vadCh.
  - take_case s endTextCh.
  - take_case s allMsgCh.
  - stt_unfold. simpl.
    destruct (closeOnce s); simpl.
    + eexists _, [_]. split; [reflexivity|].
      repeat (split; [solve [auto]|]); auto.
    + eexists _, [_; _]. rewrite <- app_assoc. split; [reflexivity|].
      repeat (split; [solve [auto]|]); auto.
Qed.

Lemma stt_Inv_Stream dial write params w :
  Stream dial write params = inl w -> Inv w.
Proof.
  unfold Stream. destruct dial as [c|why]; [|discriminate].
  destruct write; [discriminate|]. intros H. injection H as <-.
  unfold Inv, capacities, all_bounded, flags, bounded; simpl.
  repeat split; auto; lia.
Qed.

Lemma forallb_caller_loop evs :
  forallb caller_event evs = true -> forallb loop_event evs = true.
Proof.
  induction evs as [|e evs IH]; simpl; auto.
  intros H. apply andb_true_iff in H as [He Hev]. rewrite (IH Hev).
  destruct e; simpl in *; try discriminate; reflexivity.
Qed.

Lemma stt_step_Inv a w :
  Inv w -> exists w', step a w = Ok tt w' /\ Inv w'.
Proof.
  destruct w as [s g tr]. unfold Inv; simpl. intros (Hcap & Hb & H).
  destruct (is_deliver a) eqn:Ea.
  - destruct a as [rd| | | | |]; try discriminate. simpl.
    destruct g as [rs|].
    + destruct H as (Hr & Hf & Hl & Hc).
      destruct (stt_deliver_effect rd s rs tr Hr Hf)
        as (s' & g' & evs & -> & _ & _ & Hcap' & Hb' & _ & Hk).
      eexists; split; [reflexivity|]. simpl.
      split; [auto|]. split; [auto|].
      assert (Hread : forallb loop_event (tr ++ [EvRead]) = true)
        by (rewrite forallb_snoc, Hl; reflexivity).
      assert (Hcr : closes ChReady (tr ++ [EvRead]) = Nat.b2n rs)
        by (rewrite closes_app, Hc; unfold closes; simpl; lia).
      change (tr ++ EvRead :: evs) with (tr ++ [EvRead] ++ evs).
      rewrite app_assoc.
      destruct (kind_of rd).
      * destruct Hk as (-> & Hr' & _ & Hf' & -> & _).
        repeat split; try apply Hf'; auto.
        -- rewrite forallb_app, Hread. destruct rs; reflexivity.
        -- rewrite closes_app, Hcr. destruct rs; reflexivity.
      * destruct Hk as (-> & Hr' & _ & _ & _ & Hf' & _ & ->).
        split; [exact Hf'|].
        exists ((tr ++ [EvRead]) ++ ready_close rs), [].
        split; [unfold closing; now rewrite <- !app_assoc|].
        repeat split; auto.
        -- rewrite forallb_app, Hread. destruct rs; reflexivity.
        -- rewrite closes_app, Hcr, Hr'. destruct rs; reflexivity.
      * destruct Hk as (-> & Hr' & _ & _ & _ & Hf' & _ & ->).
        split; [exact Hf'|].
        exists ((tr ++ [EvRead]) ++ ready_close rs), [].
        split; [unfold closing; now rewrite <- !app_assoc|].
        repeat split; auto.
        -- rewrite forallb_app, Hread. destruct rs; reflexivity.
        -- rewrite closes_app, Hcr, Hr'. destruct rs; reflexivity.
      * destruct Hk as (-> & -> & _ & _ & Hf' & _ & ->).
        split; [exact Hf'|].
        exists (tr ++ [EvRead]), [].
        split; [reflexivity|]. repeat split; auto. now rewrite Hcr, Hr.
      * destruct Hk as (-> & -> & _ & _ & Hf' & Hev & Hcl).
        repeat split; try apply Hf'; auto.
        -- now rewrite forallb_app, Hread, Hev.
        -- rewrite closes_app, Hcr, Hcl. lia.
    + stt_unfold. simpl. eexists; split; [reflexivity|]. simpl. auto.
  - destruct (stt_caller_effect a s g tr Ea)
      as (s' & evs & -> & Hev & Hr' & _ & _ & Hf' & Hcap' & Hb').
    eexists; split; [reflexivity|]. simpl.
    rewrite Hr'. split; [auto|]. split; [auto|].
    destruct g as [rs|].
    + destruct H as (Hr & Hf & Hl & Hc). repeat split; try apply Hf'; auto.
      * now rewrite forallb_app, Hl, (forallb_caller_loop _ Hev).
      * rewrite closes_app, Hc, (closes_caller _ _ Hev). lia.
    + destruct H as (Hf & pre & post & -> & Hpre & Hpost & Hc).
      split; [auto|].
      exists pre, (post ++ evs). rewrite <- !app_assoc. repeat split; auto.
      now rewrite forallb_app, Hpost, Hev.
Qed.

Lemma stt_run_cons a acts w w' :
  run (a :: acts) w = Ok tt w' ->
  exists w1, step a w = Ok tt w1 /\ run acts w1 = Ok tt w'.
Proof.
  simpl. unfold bind at 1. destruct (step a w) as [[] w1|]; [|discriminate].
  intros H. exists w1. auto.
Qed.

(** [handleMessages] on a list of reads is the run that delivers them. *)
Lemma stt_handleMessages_run (reads : list (ReadResult Data)) : forall w,
  handleMessages reads w = run (map (@Deliver Data) reads) w.
Proof.
  induction reads as [|rd reads IH]; intros w; simpl; [reflexivity|].
  unfold bind. destruct (handleMessages_step rd w); [apply IH|reflexivity].
Qed.

Lemma stt_run_Inv acts : forall w,
  Inv w -> exists w', run acts w = Ok tt w' /\ Inv w'.
Proof.
  induction acts as [|a acts IH]; intros w H.
  - exists w. auto.
  - destruct (stt_step_Inv a w H) as (w1 & E1 & H1).
    destruct (IH w1 H1) as (w' & E' & H').
    exists w'. split; [|exact H']. simpl. unfold bind. now rewrite E1.
Qed.

Lemma stt_reachable_Inv w : reachable w -> Inv w.
Proof.
  induction 1 as [dial write params w H|w a w' _ IH E].
  - eapply stt_Inv_Stream; eauto.
  - destruct (stt_step_Inv a w IH) as (w1 & E1 & H1). congruence.
Qed.

Lemma stt_reachable_run acts : forall w w',
  reachable w -> run acts w = Ok tt w' -> reachable w'.
Proof.
  induction acts as [|a acts IH]; intros w w' R E.
  - injection E as <-. exact R.
  - apply stt_run_cons in E as (w1 & E1 & E').
    apply (IH w1 w'); [|exact E']. eapply reach_step; eauto.
Qed.

Lemma stt_step_Inv' a w w1 : Inv w -> step a w = Ok tt w1 -> Inv w1.
Proof.
  intros H E. destruct (stt_step_Inv a w H) as (w' & E' & H'). congruence.
Qed.

Lemma stt_Inv_closes w :
  Inv w -> closes ChReady (trace w) = Nat.b2n (closed (ready (stream w))).
Proof.
  unfold Inv. intros (_ & _ & H). destruct (dispatcher w).
  - destruct H as (Hr & _ & _ & Hc). now rewrite Hc, Hr.
  - destruct H as (_ & pre & post & -> & _ & Hpost & Hc).
    rewrite !closes_app, Hc, (closes_caller _ _ Hpost).
    unfold closes; simpl. lia.
Qed.

Lemma stt_run_gate acts : forall w w',
  Inv w -> run acts w = Ok tt w' ->
  closed (ready (stream w')) =
  match dispatcher w with
  | Running rs => rs || gate_resolved_by (kinds acts)
  | Returned => closed (ready (stream w))
  end.
Proof.
  induction acts as [|a acts IH]; intros w w' H E.
  - injection E as <-. destruct w as [s [rs|] tr]; simpl; auto.
    unfold Inv in H; simpl in H. destruct H as (_ & _ & Hr & _).
    now rewrite orb_false_r.
  - apply stt_run_cons in E as (w1 & E1 & E').
    pose proof (stt_step_Inv' a w w1 H E1) as H1.
    rewrite (IH w1 w' H1 E'). clear IH E' w'.
    destruct w as [s g tr]. simpl.
    destruct (is_deliver a) eqn:Ea.
    + destruct a as [rd| | | | |]; try discriminate. unfold kinds; simpl.
      destruct g as [rs|].
      * unfold Inv in H; simpl in H. destruct H as (_ & _ & Hr & Hf & _).
        destruct (stt_deliver_effect rd s rs tr Hr Hf)
          as (s' & g' & evs & E & _ & _ & _ & _ & _ & Hk).
        simpl in E1. rewrite E in E1. injection E1 as <-. simpl.
        destruct (kind_of rd); simpl.
        -- destruct Hk as (-> & _). now rewrite orb_true_r.
        -- destruct Hk as (-> & -> & _). now rewrite orb_true_r.
        -- destruct Hk as (-> & -> & _). now rewrite orb_true_r.
        -- destruct Hk as (-> & -> & _). now rewrite Hr, orb_false_r.
        -- destruct Hk as (-> & _). reflexivity.
      * simpl in E1. stt_unfold. simpl in E1. injection E1 as <-. reflexivity.
    + destruct (stt_caller_effect a s g tr Ea)
        as (s' & evs & E & _ & Hr' & _).
      rewrite E in E1. injection E1 as <-. simpl. rewrite Hr'.
      replace (kinds (a :: acts)) with (kinds acts); [reflexivity|].
      destruct a; try discriminate; reflexivity.
Qed.

Lemma stt_run_returned acts : forall w w',
  Inv w -> run acts w = Ok tt w' ->
  returned (dispatcher w') = returned (dispatcher w) || terminated_by (kinds acts).
Proof.
  induction acts as [|a acts IH]; intros w w' H E.
  - injection E as <-. now rewrite orb_false_r.
  - apply stt_run_cons in E as (w1 & E1 & E').
    pose proof (stt_step_Inv' a w w1 H E1) as H1.
    rewrite (IH w1 w' H1 E'). clear IH E' w'.
    destruct w as [s g tr]. simpl.
    destruct (is_deliver a) eqn:Ea.
    + destruct a; try discriminate. unfold kinds; simpl.
      destruct g as [rs|].
      * unfold Inv in H; simpl in H. destruct H as (_ & _ & Hr & Hf & _).
        destruct (stt_deliver_effect rd s rs tr Hr Hf)
          as (s' & g' & evs & E & _ & _ & _ & _ & _ & Hk).
        simpl in E1. rewrite E in E1. injection E1 as <-. simpl.
        destruct (kind_of rd); simpl; destruct Hk as (-> & _); reflexivity.
      * simpl in E1. stt_unfold. simpl in E1. injection E1 as <-. reflexivity.
    + destruct (stt_caller_effect a s g tr Ea) as (s' & evs & E & _).
      rewrite E in E1. injection E1 as <-. simpl.
      replace (kinds (a :: acts)) with (kinds acts); [reflexivity|].
      destruct a; try discriminate; reflexivity.
Qed.

Lemma stt_run_err acts : forall w w',
  Inv w -> run acts w = Ok tt w' ->
  (closed (ready (stream w)) = true -> closed (ready (stream w')) = true) /\
  (forall e, err (stream w) = Some e -> err (stream w') = Some e) /\
  (calm acts = true -> err (stream w') = err (stream w)) /\
  (no_ready acts = true -> readyInfo (stream w') = readyInfo (stream w)).
Proof.
  induction acts as [|a acts IH]; intros w w' H E.
  - injection E as <-. auto.
  - apply stt_run_cons in E as (w1 & E1 & E').
    pose proof (stt_step_Inv' a w w1 H E1) as H1.
    destruct (IH w1 w' H1 E') as (IHr & IHe & IHc & IHi). clear IH E'.
    assert (Hstep :
      (closed (ready (stream w)) = true -> closed (ready (stream w1)) = true) /\
      (forall e, err (stream w) = Some e -> err (stream w1) = Some e) /\
      (calm [a] = true -> err (stream w1) = err (stream w)) /\
      (no_ready [a] = true -> readyInfo (stream w1) = readyInfo (stream w))).
    { destruct w as [s g tr]. simpl.
      destruct (is_deliver a) eqn:Ea.
      + destruct a as [rd| | | | |]; try discriminate.
        unfold calm, no_ready, kinds; simpl.
        destruct g as [rs|].
        * unfold Inv in H; simpl in H. destruct H as (_ & _ & Hr & Hf & _).
          destruct (stt_deliver_effect rd s rs tr Hr Hf)
            as (s' & g' & evs & E & _ & _ & _ & _ & _ & Hk).
          simpl in E1. rewrite E in E1. injection E1 as <-. simpl.
          destruct (kind_of rd); simpl.
          -- destruct Hk as (_ & Hr' & -> & _). repeat split; auto; discriminate.
          -- destruct Hk as (_ & Hr' & _ & He & -> & _).
             repeat split; auto; discriminate.
          -- destruct Hk as (_ & Hr' & _ & He & -> & _).
             repeat split; auto; discriminate.
          -- destruct Hk as (_ & -> & -> & -> & _). auto.
          -- destruct Hk as (_ & -> & -> & -> & _). auto.
        * simpl in E1. stt_unfold. simpl in E1. injection E1 as <-. auto.
      + destruct (stt_caller_effect a s g tr Ea)
          as (s' & evs & E & _ & Hr' & He' & Hi' & _).
        rewrite E in E1. injection E1 as <-. simpl. rewrite Hr', He', Hi'. auto. }
    destruct Hstep as (Sr & Se & Sc & Si).
    repeat split; auto.
    + intros Hcalm.
      assert (calm [a] = true /\ calm acts = true) as [C1 C2].
      { unfold calm, kinds in *. destruct a; simpl in *; auto.
        apply andb_true_iff in Hcalm as [-> ->]. auto. }
      rewrite (IHc C2). auto.
    + intros Hnr.
      assert (no_ready [a] = true /\ no_ready acts = true) as [C1 C2].
      { unfold no_ready, kinds in *. destruct a; simpl in *; auto.
        apply andb_true_iff in Hnr as [-> ->]. auto. }
      rewrite (IHi C2). auto.
Qed.

Lemma stt_run_close acts : forall w w',
  Inv w -> run acts w = Ok tt w' ->
  closeErr (conn (stream w')) = closeErr (conn (stream w)) /\
  closeOnce (stream w') = closeOnce (stream w) || (0 <? close_calls acts)%nat /\
  closeCalls (conn (stream w')) =
    closeCalls (conn (stream w))
    + (if closeOnce (stream w) then 0 else Nat.min 1 (close_calls acts)) /\
  close_returns (trace w') =
    close_returns (trace w)
    ++ match close_calls acts with
       | 0 => []
       | S n => (if closeOnce (stream w) then None else closeErr (conn (stream w)))
                :: repeat None n
       end.
Proof.
  induction acts as [|a acts IH]; intros w w' H E.
  - injection E as <-. simpl.
    rewrite orb_false_r, app_nil_r. destruct (closeOnce (stream w)); auto.
  - apply stt_run_cons in E as (w1 & E1 & E').
    pose proof (stt_step_Inv' a w w1 H E1) as H1.
    destruct (IH w1 w' H1 E') as (-> & -> & -> & ->). clear IH E' H1.
    destruct w as [s g tr]. simpl.
    assert (Hkeep : forall s1 tr1,
               w1 = mkSession s1 (dispatcher w1) tr1 ->
               conn s1 = conn s -> closeOnce s1 = closeOnce s ->
               close_returns tr1 = close_returns tr ->
               close_calls (a :: acts) = close_calls acts ->
               closeErr (conn (stream w1)) = closeErr (conn s) /\
               closeOnce (stream w1) || (0 <? close_calls acts)%nat =
               closeOnce s || (0 <? close_calls (a :: acts))%nat /\
               closeCalls (conn (stream w1)) +
               (if closeOnce (stream w1) then 0 else Nat.min 1 (close_calls acts)) =
               closeCalls (conn s) +
               (if closeOnce s then 0 else Nat.min 1 (close_calls (a :: acts))) /\
               close_returns (trace w1) ++
               match close_calls acts with
               | 0 => []
               | S n => (if closeOnce (stream w1) then None
                         else closeErr (conn (stream w1))) :: repeat None n
               end =
               close_returns tr ++
               match close_calls (a :: acts) with
               | 0 => []
               | S n => (if closeOnce s then None else closeErr (conn s))
                        :: repeat None n
               end).
    { intros s1 tr1 -> Hc Ho Ht Hn. simpl. rewrite Hc, Ho, Ht, Hn. auto. }
    destruct (is_deliver a) eqn:Ea.
    + destruct a as [rd| | | | |]; try discriminate.
      destruct g as [rs|].
      * unfold Inv in H; simpl in H. destruct H as (_ & _ & Hr & Hf & _).
        destruct (stt_deliver_effect rd s rs tr Hr Hf)
          as (s' & g' & evs & E & Hco & Hon & _ & _ & Hcr & _).
        simpl in E1. rewrite E in E1. injection E1 as <-.
        apply (Hkeep s' (tr ++ EvRead :: evs)); auto.
        now rewrite close_returns_app, Hcr, app_nil_r.
      * simpl in E1. stt_unfold. simpl in E1. injection E1 as <-.
        apply (Hkeep s tr); auto.
    + destruct a as [rd| | | | |]; try discriminate.
      1-4: (simpl in E1; stt_unfold; simpl in E1;
            match type of E1 with
            | context [buf (?ch ?s0)] =>
                destruct (buf (ch s0)); [destruct (closed (ch s0))|]
            end;
            injection E1 as <-; eapply Hkeep; simpl; eauto).
      clear Hkeep.
      replace (close_calls (CallClose :: acts)) with (S (close_calls acts)) by reflexivity.
      simpl in E1. stt_unfold. simpl in E1.
      destruct (closeOnce s) eqn:Eo; simpl in E1; injection E1 as <-; simpl;
        rewrite ?Eo; simpl; rewrite ?close_returns_app; simpl;
        rewrite <- ?app_assoc; simpl.
      * repeat split; auto.
        destruct (close_calls acts); simpl; auto.
      * repeat split; auto; try lia.
        destruct (close_calls acts); simpl; auto.
Qed.

Lemma stt_discard data w rs :
  discardable data -> dispatcher w = Running rs ->
  handleMessages_step (ReadOK data) w
  = Ok tt (mkSession (stream w) (Running rs) (trace w ++ [EvRead])).
Proof.
  destruct w as [s g tr]; simpl. intros D ->. stt_unfold. simpl.
  destruct D as [H|H N1 N2 N3 N4 N5 N6|[H T] P|[H T] P|[H T] P];
    destruct (Unmarshal_wsMessage data) as [msg failed]; simpl in *; subst;
    try reflexivity.
  - apply String.eqb_neq in N1, N2, N3, N4, N5, N6.
    rewrite N1, N2, N3, N4, N5, N6. reflexivity.
  - rewrite T. simpl.
    destruct (Unmarshal_sttTextMessage data) as [m f]; simpl in *; subst.
    reflexivity.
  - rewrite T. simpl.
    destruct (Unmarshal_sttStepMessage data) as [m f]; simpl in *; subst.
    reflexivity.
  - rewrite T. simpl.
    destruct (Unmarshal_sttEndTextMessage data) as [m f]; simpl in *; subst.
    reflexivity.
Qed.

Ltac publish_case data dec Hf :=
  let Ht := fresh in let Hv := fresh in let He := fresh in
  let Hl := fresh in let Hd := fresh in
  destruct Hf as (Ht & Hv & He & Hl & Hd);
  stt_unfold; simpl;
  destruct (Unmarshal_wsMessage data) as [? ?]; simpl in *; subst;
  match goal with T : Type_ _ = _ |- _ => rewrite T end; simpl;
  destruct dec as [? ?]; simpl in *; subst; simpl;
  unfold offer, has_room;
  do 2 (rewrite ?Ht, ?Hv, ?He, ?Hl; simpl;
        try match goal with
            | |- context [(?a <? ?b)%nat] => destruct (a <? b)%nat; simpl
            end);
  rewrite <- ?app_assoc; simpl; rewrite ?Ht, ?Hv, ?He, ?Hl; reflexivity.

Lemma stt_publish_text data r w rs :
  text_frame data r -> dispatcher w = Running rs -> flags (stream w) false ->
  let s := stream w in
  handleMessages_step (ReadOK data) w
  = Ok tt (mkSession
             (set_allMsgCh (offer (AnyText r) (allMsgCh s))
                           (set_textCh (offer r (textCh s)) s))
             (Running rs)
             (trace w ++ [EvRead; EvPublish ChText (has_room (textCh s));
                          EvPublish ChAll (has_room (allMsgCh s))])).
Proof.
  destruct w as [s g tr]; simpl. intros ([H T] & P & ->) -> Hf.
  publish_case data (Unmarshal_sttTextMessage data) Hf.
Qed.

Lemma stt_publish_step data r w rs :
  step_frame data r -> dispatcher w = Running rs -> flags (stream w) false ->
  let s := stream w in
  handleMessages_step (ReadOK data) w
  = Ok tt (mkSession
             (set_allMsgCh (offer (AnyStep r) (allMsgCh s))
                           (set_vadCh (offer r (vadCh s)) s))
             (Running rs)
             (trace w ++ [EvRead; EvPublish ChVad (has_room (vadCh s));
                          EvPublish ChAll (has_room (allMsgCh s))])).
Proof.
  destruct w as [s g tr]; simpl. intros ([H T] & P & ->) -> Hf.
  publish_case data (Unmarshal_sttStepMessage data) Hf.
Qed.

Lemma stt_publish_end_text data r w rs :
  end_text_frame data r -> dispatcher w = Running rs -> flags (stream w) false ->
  let s := stream w in
  handleMessages_step (ReadOK data) w
  = Ok tt (mkSession
             (set_allMsgCh (offer (AnyEndText r) (allMsgCh s))
                           (set_endTextCh (offer r (endTextCh s)) s))
             (Running rs)
             (trace w ++ [EvRead; EvPublish ChEndText (has_room (endTextCh s));
                          EvPublish ChAll (has_room (allMsgCh s))])).
Proof.
  destruct w as [s g tr]; simpl. intros ([H T] & P & ->) -> Hf.
  publish_case data (Unmarshal_sttEndTextMessage data) Hf.
Qed.

(** What one read does to the four queues and to the error register. *)
Lemma stt_deliver_more rd s rs tr :
  closed (ready s) = rs -> flags s false ->
  exists w',
    handleMessages_step rd (mkSession s (Running rs) tr) = Ok tt w' /\
    dispatcher w' = (if terminal (kind_of rd) then Returned
                     else Running (rs || match kind_of rd with KReady => true | _ => false end)) /\
    buf (allMsgCh (stream w')) =
      match STTMore.item_of rd with
      | Some i => buf (offer i (allMsgCh s))
      | None => buf (allMsgCh s)
      end /\
    buf (textCh (stream w')) =
      match STTMore.item_of rd with
      | Some (AnyText r) => buf (offer r (textCh s))
      | _ => buf (textCh s)
      end /\
    buf (vadCh (stream w')) =
      match STTMore.item_of rd with
      | Some (AnyStep r) => buf (offer r (vadCh s))
      | _ => buf (vadCh s)
      end /\
    buf (endTextCh (stream w')) =
      match STTMore.item_of rd with
      | Some (AnyEndText r) => buf (offer r (endTextCh s))
      | _ => buf (endTextCh s)
      end /\
    (terminal (kind_of rd) = true -> STTMore.item_of rd = None) /\
    err (stream w') =
      match err s with
      | Some e => Some e
      | None => STTMore.error_of rd
      end /\
    (terminal (kind_of rd) = false -> STTMore.error_of rd = None).
Proof.
  intros Hr (Ht & Hv & He & Hl & Hd).
  unfold STTMore.item_of, STTMore.error_of, terminal, offer, text_of, step_of, end_text_of.
  stt_branches rd rs;
    do 6 (rewrite ?Hr, ?Ht, ?Hv, ?He, ?Hl, ?Hd; simpl);
    repeat match goal with
           | H : (Type_ _ =? _) = true |- _ => apply String.eqb_eq in H
           | H : Type_ _ = _ |- _ => rewrite H; clear H
           | H : (Type_ _ =? _) = false |- _ => rewrite H; clear H
           end; simpl;
    do 6 (rewrite ?Hr, ?Ht, ?Hv, ?He, ?Hl, ?Hd; simpl; case_room);
    (eexists; split; [reflexivity|]); simpl;
    rewrite ?orb_false_r, ?orb_true_r;
    repeat split; auto; try discriminate; try congruence;
    try (destruct (err s); reflexivity).
Qed.

Lemma stt_returned_deliver rd w :
  dispatcher w = Returned -> step (Deliver rd) w = Ok tt w.
Proof.
  destruct w as [s g tr]; simpl. intros ->. stt_unfold. reflexivity.
Qed.

Lemma stt_run_first_error acts : forall w w',
  Inv w -> run acts w = Ok tt w' ->
  err (stream w') =
    match err (stream w) with
    | Some e => Some e
    | None => if returned (dispatcher w) then None
              else STTMore.first_error (delivered acts)
    end.
Proof.
  induction acts as [|a acts IH]; intros w w' H E.
  - injection E as <-. destruct (err (stream w)), (returned (dispatcher w)); reflexivity.
  - apply stt_run_cons in E as (w1 & E1 & E').
    pose proof (stt_step_Inv' a w w1 H E1) as H1.
    rewrite (IH w1 w' H1 E'). clear IH E' w'.
    destruct (is_deliver a) eqn:Ea.
    + destruct a as [rd| | | | |]; try discriminate.
      destruct w as [s [rs|] tr].
      * pose proof H as (_ & _ & Hr & Hf & _). simpl in Hr, Hf.
        destruct (stt_deliver_more rd s rs tr Hr Hf)
          as (w2 & E2 & Hg & _ & _ & _ & _ & _ & He & Hn).
        simpl in E1. rewrite E2 in E1. injection E1 as <-.
        rewrite He, Hg. simpl.
        destruct (err s) as [e|]; [reflexivity|].
        destruct (terminal (kind_of rd)) eqn:Et; simpl.
        -- destruct (STTMore.error_of rd); reflexivity.
        -- now rewrite (Hn eq_refl).
      * rewrite (stt_returned_deliver rd (mkSession s Returned tr) eq_refl) in E1.
        injection E1 as <-. reflexivity.
    + destruct w as [s g tr].
      destruct (stt_caller_effect a s g tr Ea) as (s' & evs & E2 & _ & _ & He & _).
      rewrite E2 in E1. injection E1 as <-.
      replace (delivered (a :: acts)) with (delivered acts)
        by (destruct a; try discriminate; reflexivity).
      cbn [stream dispatcher]. now rewrite He.
Qed.

(** With nobody taking, each queue after the reads is what fitted of
    the decoded items of its category, in their order, and the unified
    feed what fitted of all of them. *)
Lemma stt_run_fill reads : forall w w',
  Inv w -> run (map (@Deliver Data) reads) w = Ok tt w' ->
  returned (dispatcher w) = false ->
  let items := STTMore.items_of reads in
  buf (allMsgCh (stream w')) = fill 100 (buf (allMsgCh (stream w))) items /\
  buf (textCh (stream w'))
  = fill 100 (buf (textCh (stream w))) (STTMore.texts_in items) /\
  buf (vadCh (stream w'))
  = fill 100 (buf (vadCh (stream w))) (STTMore.steps_in items) /\
  buf (endTextCh (stream w'))
  = fill 10 (buf (endTextCh (stream w))) (STTMore.end_texts_in items).
Proof.
  assert (Hnil : forall (A : Type) n (b : list A), fill n b [] = b)
    by (intros; unfold fill; now rewrite firstn_nil, app_nil_r).
  assert (Hstay : forall rs' w1 w',
             dispatcher w1 = Returned ->
             run (map (@Deliver Data) rs') w1 = Ok tt w' -> w' = w1).
  { induction rs' as [|r rs' IH]; intros w1 w' Hd E.
    - now injection E as <-.
    - change (map (@Deliver Data) (r :: rs'))
        with (Deliver r :: map (@Deliver Data) rs') in E.
      apply stt_run_cons in E as (w2 & E2 & E').
      rewrite (stt_returned_deliver r w1 Hd) in E2. injection E2 as <-.
      now apply IH. }
  induction reads as [|rd reads IH]; intros w w' H E Hrun.
  - injection E as <-. cbn [STTMore.items_of STTMore.texts_in STTMore.steps_in
                             STTMore.end_texts_in flat_map].
    now rewrite !Hnil.
  - change (map (@Deliver Data) (rd :: reads))
      with (Deliver rd :: map (@Deliver Data) reads) in E.
    apply stt_run_cons in E as (w1 & E1 & E').
    pose proof (stt_step_Inv' _ w w1 H E1) as H1.
    destruct w as [s [rs|] tr]; [|discriminate].
    pose proof H as ((C1 & C2 & C3 & C4) & _ & Hr & Hf & _). simpl in C1, C2, C3, C4, Hr, Hf.
    destruct (stt_deliver_more rd s rs tr Hr Hf)
      as (w2 & E2 & Hg & Ba & Bt & Bv & Be & Hp & _).
    simpl in E1. rewrite E2 in E1. injection E1 as <-.
    cbn [STTMore.items_of stream].
    destruct (terminal (kind_of rd)) eqn:Et.
    + rewrite (Hstay reads w2 w' Hg E').
      rewrite Ba, Bt, Bv, Be, (Hp eq_refl).
      cbn [STTMore.texts_in STTMore.steps_in STTMore.end_texts_in flat_map].
      now rewrite !Hnil.
    + assert (Hrun1 : returned (dispatcher w2) = false) by now rewrite Hg.
      destruct (IH w2 w' H1 E' Hrun1) as (-> & -> & -> & ->).
      rewrite Ba, Bt, Bv, Be.
      assert (F : forall (A : Type) (c : A) (ch : chan A) xs n,
                 cap ch = n -> fill n (buf (offer c ch)) xs = fill n (buf ch) (c :: xs))
        by (intros; subst; apply TTSFacts.fill_offer).
      destruct (STTMore.item_of rd) as [[r|r|r]|];
        cbn [STTMore.texts_in STTMore.steps_in STTMore.end_texts_in flat_map app];
        try rewrite (F _ _ _ _ _ C1); try rewrite (F _ _ _ _ _ C2);
        try rewrite (F _ _ _ _ _ C3); try rewrite (F _ _ _ _ _ C4);
        repeat split; reflexivity.
Qed.

(** Once the gate is closed with no error recorded, a Ready envelope
    has been read and its info is stored. *)
Lemma stt_reachable_info w :
  reachable w ->
  closed (ready (stream w)) = true -> err (stream w) = None ->
  exists info, readyInfo (stream w) = Some info.
Proof.
  induction 1 as [dial write params w Hs|w a w' R IH E].
  - unfold Stream in Hs. destruct dial; [|discriminate].
    destruct write; [discriminate|]. injection Hs as <-. discriminate.
  - pose proof (stt_reachable_Inv w R) as H.
    destruct w as [s g tr]. simpl in IH.
    destruct (is_deliver a) eqn:Ea.
    + destruct a as [rd| | | | |]; try discriminate.
      destruct g as [rs|].
      * pose proof H as (_ & _ & Hr & Hf & _). simpl in Hr, Hf.
        destruct (stt_deliver_effect rd s rs tr Hr Hf)
          as (s' & g' & evs & E2 & _ & _ & _ & _ & _ & Hk).
        simpl in E. rewrite E2 in E. injection E as <-. simpl.
        destruct (kind_of rd).
        -- destruct Hk as (_ & _ & _ & _ & _ & Hi). auto.
        -- destruct Hk as (_ & _ & Hn & Hs & _). intros _ He.
           destruct (err s) as [e|].
           ++ rewrite (Hs e eq_refl) in He. discriminate.
           ++ destruct (Hn eq_refl) as (e & He'). congruence.
        -- destruct Hk as (_ & _ & Hn & Hs & _). intros _ He.
           destruct (err s) as [e|].
           ++ rewrite (Hs e eq_refl) in He. discriminate.
           ++ destruct (Hn eq_refl) as (e & He'). congruence.
        -- destruct Hk as (_ & -> & -> & -> & _). exact IH.
        -- destruct Hk as (_ & -> & -> & -> & _). exact IH.
      * rewrite (stt_returned_deliver rd (mkSession s Returned tr) eq_refl) in E.
        injection E as <-. exact IH.
    + destruct (stt_caller_effect a s g tr Ea) as (s' & evs & E2 & _ & Hr & He & Hi & _).
      rewrite E2 in E. injection E as <-. simpl. rewrite Hr, He, Hi. exact IH.
Qed.

End Facts.

(** [CollectText] *)

Lemma append_assoc (a b c : string) : ((a ++ b) ++ c = a ++ b ++ c)%string.
Proof. induction a as [|x a IH]; simpl; congruence. Qed.

Lemma fold_join (rest : list string) : forall e,
  fold_left (fun b s => (b ++ " " ++ s)%string) rest e
  = match rest with
    | [] => e
    | _ => (e ++ " " ++ spaced rest)%string
    end.
Proof.
  induction rest as [|x rest IH]; intros e; simpl; [reflexivity|].
  rewrite IH. destruct rest as [|y rest]; [reflexivity|].
  now rewrite append_assoc.
Qed.

Lemma Join_spaced texts : Join texts " " = spaced texts.
Proof.
  destruct texts as [|t [|u rest]]; try reflexivity.
  unfold Join. now rewrite fold_join.
Qed.

Lemma CollectText_loop_texts segs : forall acc s rest,
  CollectText_loop (map GotText segs ++ GotClosed :: rest) acc s =
  match getError s with
  | Some e => Returns (EmptyString, Some e)
  | None => Returns (spaced (acc ++ map Text segs), None)
  end.
Proof.
  induction segs as [|x segs IH]; intros acc s rest; simpl.
  - rewrite app_nil_r, Join_spaced. reflexivity.
  - rewrite IH, <- app_assoc. reflexivity.
Qed.

End STTFacts.

(** * The claims *)

Import Wire Examples.

(** C1, as stated, fails: a session whose first frame is
    [end_of_stream] ends with [ready] never closed, in either stream. *)
Lemma gate_left_open_by_end_of_stream :
  let w := tts_after [TTS.Deliver f_end_of_stream] (tts_session plain) in
  let v := stt_after [STT.Deliver f_end_of_stream] (stt_session plain) in
  TTS.Stream (inl plain) None (tts_params FormatPCM) = inl (tts_session plain) /\
  TTS.dispatcher w = Returned /\
  closes ChReady (TTS.trace w) = 0 /\
  closed (TTS.ready (TTS.stream w)) = false /\
  STT.dispatcher v = Returned /\
  closes ChReady (STT.trace v) = 0 /\
  closed (STT.ready (STT.stream v)) = false.
Proof. vm_compute. repeat split. Qed.

(** C1, amended: whatever the dispatcher reads and whatever the caller
    does meanwhile, the run never panics and [ready] is closed at most
    once: exactly once when the reads contain a Ready envelope, or a
    server Error envelope or read failure with no end of stream before it,
    and not at all when an end of stream comes before any of these or none
    of them has been read yet. *)
Theorem readiness_gate_resolution :
  forall (Data : Type) (codec : Codec Data)
         tdial twrite tparams tw0 (tacts : list (TTS.action Data))
         sdial swrite sparams sw0 (sacts : list (STT.action Data)),
    TTS.Stream tdial twrite tparams = inl tw0 ->
    STT.Stream sdial swrite sparams = inl sw0 ->
    (exists w, TTS.run tacts tw0 = Ok tt w /\
               closes ChReady (TTS.trace w)
               = Nat.b2n (gate_resolved_by (TTSProps.kinds tacts)) /\
               closed (TTS.ready (TTS.stream w))
               = gate_resolved_by (TTSProps.kinds tacts) /\
               closes ChReady (TTS.trace w) <= 1) /\
    (exists w, STT.run sacts sw0 = Ok tt w /\
               closes ChReady (STT.trace w)
               = Nat.b2n (gate_resolved_by (STTProps.kinds sacts)) /\
               closed (STT.ready (STT.stream w))
               = gate_resolved_by (STTProps.kinds sacts) /\
               closes ChReady (STT.trace w) <= 1).
Proof.
  intros Data codec tdial twrite tparams tw0 tacts sdial swrite sparams sw0 sacts Ht Hs.
  split.
  - pose proof (TTSFacts.tts_Inv_Stream _ _ _ _ Ht) as H0.
    destruct (TTSFacts.tts_run_Inv tacts tw0 H0) as (w & E & H).
    exists w. split; [exact E|].
    pose proof (TTSFacts.tts_run_gate tacts tw0 w H0 E) as G.
    assert (D : TTS.dispatcher tw0 = Running false).
    { unfold TTS.Stream in Ht. destruct tdial; [|discriminate].
      destruct twrite; [discriminate|]. injection Ht as <-. reflexivity. }
    rewrite D in G. simpl in G.
    rewrite (TTSFacts.tts_Inv_closes w H), G.
    repeat split. destruct (gate_resolved_by _); simpl; lia.
  - pose proof (STTFacts.stt_Inv_Stream _ _ _ _ Hs) as H0.
    destruct (STTFacts.stt_run_Inv sacts sw0 H0) as (w & E & H).
    exists w. split; [exact E|].
    pose proof (STTFacts.stt_run_gate sacts sw0 w H0 E) as G.
    assert (D : STT.dispatcher sw0 = Running false).
    { unfold STT.Stream in Hs. destruct sdial; [|discriminate].
      destruct swrite; [discriminate|]. injection Hs as <-. reflexivity. }
    rewrite D in G. simpl in G.
    rewrite (STTFacts.stt_Inv_closes w H), G.
    repeat split. destruct (gate_resolved_by _); simpl; lia.
Qed.

Lemma readiness_gate_resolution_witness :
  TTS.Stream (inl plain) None (tts_params FormatPCM) = inl (tts_session plain) /\
  STT.Stream (inl plain) None stt_params = inl (stt_session plain) /\
  (exists w, TTS.run [TTS.Deliver (f_audio "YWI="); TTS.Deliver (f_ready "req-1");
                      TTS.TakeAudio; TTS.Deliver (f_ready "req-2");
                      TTS.Deliver (f_error "late" 500)] (tts_session plain) = Ok tt w /\
             closes ChReady (TTS.trace w) = 1 /\
             closed (TTS.ready (TTS.stream w)) = true /\
             closes ChReady (TTS.trace w) <= 1) /\
  (exists w, STT.run [STT.Deliver (ReadErr "EOF" : ReadResult frame)] (stt_session plain) = Ok tt w /\
             closes ChReady (STT.trace w) = 1 /\
             closed (STT.ready (STT.stream w)) = true /\
             closes ChReady (STT.trace w) <= 1).
Proof.
  split; [reflexivity|]. split; [reflexivity|].
  apply (readiness_gate_resolution frame codec
           (inl plain) None (tts_params FormatPCM) (tts_session plain)
           [TTS.Deliver (f_audio "YWI="); TTS.Deliver (f_ready "req-1");
            TTS.TakeAudio; TTS.Deliver (f_ready "req-2");
            TTS.Deliver (f_error "late" 500)]
           (inl plain) None stt_params (stt_session plain)
           [STT.Deliver (ReadErr "EOF" : ReadResult frame)]); reflexivity.
Defined.

(** C2: every result channel is closed exactly once, by the deferred
    calls of the dispatcher and by nothing else, after its last read, and
    [done] is closed after all of them.  The dispatcher has returned
    exactly when an end of stream, a server Error envelope or a read
    failure has been read; until then no result channel is closed; from
    then on the trace is the loop's events, the closes (result channels
    first, [done] last), and after them only what [Close] adds. *)
Theorem result_channels_closed_once :
  forall (Data : Type) (codec : Codec Data)
         tdial twrite tparams tw0 (tacts : list (TTS.action Data))
         sdial swrite sparams sw0 (sacts : list (STT.action Data)),
    TTS.Stream tdial twrite tparams = inl tw0 ->
    STT.Stream sdial swrite sparams = inl sw0 ->
    (exists w,
        TTS.run tacts tw0 = Ok tt w /\
        returned (TTS.dispatcher w) = terminated_by (TTSProps.kinds tacts) /\
        closed (TTS.audioCh (TTS.stream w)) = returned (TTS.dispatcher w) /\
        closed (TTS.done (TTS.stream w)) = returned (TTS.dispatcher w) /\
        (forall c, In c [ChAudio; ChDone] ->
                   closes c (TTS.trace w) = Nat.b2n (returned (TTS.dispatcher w))) /\
        (returned (TTS.dispatcher w) = true ->
         exists pre post,
           TTS.trace w = pre ++ [EvClose ChAudio; EvClose ChDone] ++ post /\
           forallb loop_event pre = true /\
           forallb caller_event post = true)) /\
    (exists w,
        STT.run sacts sw0 = Ok tt w /\
        returned (STT.dispatcher w) = terminated_by (STTProps.kinds sacts) /\
        STTProps.flags (STT.stream w) (returned (STT.dispatcher w)) /\
        (forall c, In c [ChText; ChVad; ChEndText; ChAll; ChDone] ->
                   closes c (STT.trace w) = Nat.b2n (returned (STT.dispatcher w))) /\
        (returned (STT.dispatcher w) = true ->
         exists pre post,
           STT.trace w = pre ++ [EvClose ChAll; EvClose ChEndText; EvClose ChVad;
                                 EvClose ChText; EvClose ChDone] ++ post /\
           forallb loop_event pre = true /\
           forallb caller_event post = true)).
Proof.
  intros Data codec tdial twrite tparams tw0 tacts sdial swrite sparams sw0 sacts Ht Hs.
  split.
  - pose proof (TTSFacts.tts_Inv_Stream _ _ _ _ Ht) as H0.
    destruct (TTSFacts.tts_run_Inv tacts tw0 H0) as (w & E & H).
    exists w. split; [exact E|].
    pose proof (TTSFacts.tts_run_returned tacts tw0 w H0 E) as R.
    assert (D : TTS.dispatcher tw0 = Running false).
    { unfold TTS.Stream in Ht. destruct tdial; [|discriminate].
      destruct twrite; [discriminate|]. injection Ht as <-. reflexivity. }
    rewrite D in R. simpl in R. split; [exact R|]. clear R D.
    destruct H as (_ & _ & H). destruct (TTS.dispatcher w) as [rs|]; simpl.
    + destruct H as (_ & Ha & Hd & Hl & _). repeat split; auto; try discriminate.
      intros c [<-|[<-|[]]]; apply closes_loop; auto; discriminate.
    + destruct H as (Ha & Hd & pre & post & -> & Hpre & Hpost & _).
      repeat split; auto.
      * intros c Hc. rewrite !closes_app, (closes_caller _ _ Hpost).
        destruct Hc as [<-|[<-|[]]]; rewrite closes_loop by (auto; discriminate);
          reflexivity.
      * intros _. exists pre, post. auto.
  - pose proof (STTFacts.stt_Inv_Stream _ _ _ _ Hs) as H0.
    destruct (STTFacts.stt_run_Inv sacts sw0 H0) as (w & E & H).
    exists w. split; [exact E|].
    pose proof (STTFacts.stt_run_returned sacts sw0 w H0 E) as R.
    assert (D : STT.dispatcher sw0 = Running false).
    { unfold STT.Stream in Hs. destruct sdial; [|discriminate].
      destruct swrite; [discriminate|]. injection Hs as <-. reflexivity. }
    rewrite D in R. simpl in R. split; [exact R|]. clear R D.
    destruct H as (_ & _ & H). destruct (STT.dispatcher w) as [rs|]; simpl.
    + destruct H as (_ & Hf & Hl & _). repeat split; try apply Hf; try discriminate.
      intros c [<-|[<-|[<-|[<-|[<-|[]]]]]]; apply closes_loop; auto; discriminate.
    + destruct H as (Hf & pre & post & -> & Hpre & Hpost & _).
      repeat split; try apply Hf.
      * intros c Hc. rewrite !closes_app, (closes_caller _ _ Hpost).
        destruct Hc as [<-|[<-|[<-|[<-|[<-|[]]]]]];
          rewrite closes_loop by (auto; discriminate); reflexivity.
      * intros _. exists pre, post. auto.
Qed.

Lemma result_channels_closed_once_witness :
  TTS.Stream (inl plain) None (tts_params FormatPCM) = inl (tts_session plain) /\
  STT.Stream (inl plain) None stt_params = inl (stt_session plain) /\
  (exists w,
      TTS.run [TTS.Deliver (f_ready "req-1"); TTS.Deliver (f_audio "YWI=");
               TTS.CallClose; TTS.Deliver (ReadErr "use of closed network connection");
               TTS.CallClose] (tts_session plain) = Ok tt w /\
      returned (TTS.dispatcher w) = true /\
      closed (TTS.audioCh (TTS.stream w)) = returned (TTS.dispatcher w) /\
      closed (TTS.done (TTS.stream w)) = returned (TTS.dispatcher w) /\
      (forall c, In c [ChAudio; ChDone] ->
                 closes c (TTS.trace w) = Nat.b2n (returned (TTS.dispatcher w))) /\
      (returned (TTS.dispatcher w) = true ->
       exists pre post,
         TTS.trace w = pre ++ [EvClose ChAudio; EvClose ChDone] ++ post /\
         forallb loop_event pre = true /\
         forallb caller_event post = true)) /\
  (exists w,
      STT.run [STT.Deliver (f_ready "req-1"); STT.Deliver (f_text "Hello");
               STT.TakeText; STT.Deliver f_end_of_stream] (stt_session plain) = Ok tt w /\
      returned (STT.dispatcher w) = true /\
      STTProps.flags (STT.stream w) (returned (STT.dispatcher w)) /\
      (forall c, In c [ChText; ChVad; ChEndText; ChAll; ChDone] ->
                 closes c (STT.trace w) = Nat.b2n (returned (STT.dispatcher w))) /\
      (returned (STT.dispatcher w) = true ->
       exists pre post,
         STT.trace w = pre ++ [EvClose ChAll; EvClose ChEndText; EvClose ChVad;
                               EvClose ChText; EvClose ChDone] ++ post /\
         forallb loop_event pre = true /\
         forallb caller_event post = true)).
Proof.
  split; [reflexivity|]. split; [reflexivity|].
  apply (result_channels_closed_once frame codec
           (inl plain) None (tts_params FormatPCM) (tts_session plain)
           [TTS.Deliver (f_ready "req-1"); TTS.Deliver (f_audio "YWI=");
            TTS.CallClose; TTS.Deliver (ReadErr "use of closed network connection");
            TTS.CallClose]
           (inl plain) None stt_params (stt_session plain)
           [STT.Deliver (f_ready "req-1"); STT.Deliver (f_text "Hello");
            STT.TakeText; STT.Deliver f_end_of_stream]); reflexivity.
Defined.

(** C3, as stated, fails for the two tags whose payload is decoded with
    the error ignored ([_ = json.Unmarshal]): an [error] frame whose
    payload does not parse ([code] is a string) still records an error
    and ends the session, and a [ready] frame whose payload does not parse
    still closes [ready]. *)
Lemma malformed_error_and_ready_are_acted_on :
  let w := tts_after [TTS.Deliver (ReadOK bad_error_frame)] (tts_session plain) in
  let v := stt_after [STT.Deliver (ReadOK bad_ready_frame)] (stt_session plain) in
  Unmarshal_wsMessage bad_error_frame = ({| Type_ := "error" |}, false) /\
  snd (Unmarshal_ttsErrorMessage bad_error_frame) = true /\
  TTS.err (TTS.stream w) = Some (WebSocketError "" 0) /\
  closed (TTS.audioCh (TTS.stream w)) = true /\
  TTS.dispatcher w = Returned /\
  Unmarshal_wsMessage bad_ready_frame = ({| Type_ := "ready" |}, false) /\
  snd (Unmarshal_sttReadyMessage bad_ready_frame) = true /\
  closed (STT.ready (STT.stream v)) = true /\
  STT.stream v <> STT.stream (stt_session plain).
Proof. vm_compute. repeat split. discriminate. Qed.

(** C3, amended: a frame that is not tagged JSON, or whose tag is not
    one the stream knows, or whose tag is that of a result item (audio;
    text, step, end_text) with a payload that does not parse, or whose
    audio is not base64, is dropped: the dispatcher stays in its loop with
    the same [readySignaled], the stream is unchanged in every field (no
    error recorded, no channel touched) and the read is all the trace
    gains. *)
Theorem malformed_frames_discarded :
  forall (Data : Type) (codec : Codec Data)
         (tdata : Data) (tw : TTS.Session) (trs : bool)
         (sdata : Data) (sw : STT.Session) (srs : bool),
    TTSProps.discardable tdata -> TTS.dispatcher tw = Running trs ->
    STTProps.discardable sdata -> STT.dispatcher sw = Running srs ->
    TTS.handleMessages_step (ReadOK tdata) tw
    = Ok tt (TTS.mkSession (TTS.stream tw) (Running trs) (TTS.trace tw ++ [EvRead])) /\
    STT.handleMessages_step (ReadOK sdata) sw
    = Ok tt (STT.mkSession (STT.stream sw) (Running srs) (STT.trace sw ++ [EvRead])).
Proof.
  intros Data codec tdata tw trs sdata sw srs Dt Rt Ds Rs. split.
  - now apply TTSFacts.tts_discard.
  - now apply STTFacts.stt_discard.
Qed.

Lemma malformed_frames_discarded_witness :
  let tdata := Value (JObject [("type", JString "audio"); ("audio", JString "%%%")]) in
  let sdata := Value (JObject [("type", JString "text"); ("text", int 5)]) in
  TTSProps.discardable tdata /\
  STTProps.discardable sdata /\
  TTS.handleMessages_step (ReadOK tdata) (tts_session plain)
  = Ok tt (TTS.mkSession (tts_stream plain) (Running false) [EvRead]) /\
  STT.handleMessages_step (ReadOK sdata) (stt_session plain)
  = Ok tt (STT.mkSession (stt_stream plain) (Running false) [EvRead]).
Proof.
  intros tdata sdata.
  assert (Dt : TTSProps.discardable tdata)
    by (apply TTSProps.disc_bad_base64; reflexivity).
  assert (Ds : STTProps.discardable sdata)
    by (apply STTProps.disc_bad_text; [split|]; reflexivity).
  split; [exact Dt|]. split; [exact Ds|].
  exact (malformed_frames_discarded frame codec
           tdata (tts_session plain) false sdata (stt_session plain) false
           Dt eq_refl Ds eq_refl).
Defined.

(** C4: publishing a decoded item never blocks.  The dispatcher comes out
    of the step still in its loop, and each destination queue, on its own,
    either gains the item at its end (when it has room) or is left as it
    was (when it is at capacity, the new item being the one dropped): for
    a text, step or end-text item the queue of its category and the
    unified feed are decided separately. *)
Theorem publish_never_blocks :
  forall (Data : Type) (codec : Codec Data)
         (tw : TTS.Session) (trs : bool) (tdata : Data) (decoded : bytes)
         (sw : STT.Session) (srs : bool)
         (dtext : Data) (rtext : STTTextResult)
         (dstep : Data) (rstep : STTStepResult)
         (dend : Data) (rend : STTEndTextResult),
    TTSProps.reachable tw -> TTS.dispatcher tw = Running trs ->
    TTSProps.audio_frame tdata decoded ->
    STTProps.reachable sw -> STT.dispatcher sw = Running srs ->
    STTProps.text_frame dtext rtext ->
    STTProps.step_frame dstep rstep ->
    STTProps.end_text_frame dend rend ->
    let t := TTS.stream tw in
    let s := STT.stream sw in
    TTS.handleMessages_step (ReadOK tdata) tw
    = Ok tt (TTS.mkSession
               (TTS.set_audioCh (offer decoded (TTS.audioCh t)) t)
               (Running trs)
               (TTS.trace tw ++ [EvRead; EvPublish ChAudio (has_room (TTS.audioCh t))])) /\
    STT.handleMessages_step (ReadOK dtext) sw
    = Ok tt (STT.mkSession
               (STT.set_allMsgCh (offer (STT.AnyText rtext) (STT.allMsgCh s))
                                 (STT.set_textCh (offer rtext (STT.textCh s)) s))
               (Running srs)
               (STT.trace sw ++ [EvRead; EvPublish ChText (has_room (STT.textCh s));
                                 EvPublish ChAll (has_room (STT.allMsgCh s))])) /\
    STT.handleMessages_step (ReadOK dstep) sw
    = Ok tt (STT.mkSession
               (STT.set_allMsgCh (offer (STT.AnyStep rstep) (STT.allMsgCh s))
                                 (STT.set_vadCh (offer rstep (STT.vadCh s)) s))
               (Running srs)
               (STT.trace sw ++ [EvRead; EvPublish ChVad (has_room (STT.vadCh s));
                                 EvPublish ChAll (has_room (STT.allMsgCh s))])) /\
    STT.handleMessages_step (ReadOK dend) sw
    = Ok tt (STT.mkSession
               (STT.set_allMsgCh (offer (STT.AnyEndText rend) (STT.allMsgCh s))
                                 (STT.set_endTextCh (offer rend (STT.endTextCh s)) s))
               (Running srs)
               (STT.trace sw ++ [EvRead; EvPublish ChEndText (has_room (STT.endTextCh s));
                                 EvPublish ChAll (has_room (STT.allMsgCh s))])).
Proof.
  intros Data codec tw trs tdata decoded sw srs dtext rtext dstep rstep dend rend
         Rt Dt Ft Rs Ds Ftext Fstep Fend t s.
  pose proof (TTSFacts.tts_reachable_Inv tw Rt) as (_ & _ & It).
  pose proof (STTFacts.stt_reachable_Inv sw Rs) as (_ & _ & Is).
  rewrite Dt in It. rewrite Ds in Is.
  destruct It as (_ & Ha & _). destruct Is as (_ & Hf & _).
  repeat split.
  - now apply TTSFacts.tts_publish.
  - now apply STTFacts.stt_publish_text.
  - now apply STTFacts.stt_publish_step.
  - now apply STTFacts.stt_publish_end_text.
Qed.

(** Ten end-text frames with nobody reading: the eleventh is dropped
    from its own queue and still enters the unified feed. *)
Lemma publish_never_blocks_witness :
  let tw := tts_session plain in
  let sw := stt_after (repeat (STT.Deliver f_end_text) 10) (stt_session plain) in
  let rend := {| StopS := S754_finite false 4503599627370496 (-52);
                 et_StreamID := None |} in
  STTProps.reachable sw /\
  has_room (STT.endTextCh (STT.stream sw)) = false /\
  has_room (STT.allMsgCh (STT.stream sw)) = true /\
  STT.handleMessages_step f_end_text sw
  = Ok tt (STT.mkSession
             (STT.set_allMsgCh
                (offer (STT.AnyEndText rend) (STT.allMsgCh (STT.stream sw)))
                (STT.set_endTextCh (STT.endTextCh (STT.stream sw)) (STT.stream sw)))
             (Running false)
             (STT.trace sw ++ [EvRead; EvPublish ChEndText false; EvPublish ChAll true])).
Proof.
  intros tw sw rend.
  assert (Rt : TTSProps.reachable tw)
    by (apply (TTSProps.reach_Stream (inl plain) None (tts_params FormatPCM));
        reflexivity).
  assert (Rs : STTProps.reachable sw).
  { apply (STTFacts.stt_reachable_run (repeat (STT.Deliver f_end_text) 10)
             (stt_session plain)).
    - apply (STTProps.reach_Stream (inl plain) None stt_params). reflexivity.
    - vm_compute. reflexivity. }
  split; [exact Rs|]. split; [reflexivity|]. split; [reflexivity|].
  refine (proj2 (proj2 (proj2
    (publish_never_blocks frame codec
       tw false (Value (JObject [("type", JString "audio"); ("audio", JString "YWI=")]))
       (list_byte_of_string "ab")
       sw false
       (Value (JObject [("type", JString "text"); ("text", JString "Hello")]))
       {| Text := "Hello"; StartS := float64_zero; StreamID := None |}
       (Value (JObject [("type", JString "step"); ("step_idx", int 3)]))
       {| VAD := []; StepIdx := 3; StepDurationS := float64_zero;
          TotalDurationS := float64_zero |}
       (Value (JObject [("type", JString "end_text"); ("stop_s", int 1)]))
       rend
       Rt eq_refl _ Rs _ _ _ _)))).
  - repeat split.
  - vm_compute. reflexivity.
  - repeat split.
  - repeat split.
  - repeat split.
Defined.

(** C5: when the selects of [Collect] yield the chunks c1..cN and then
    the closed channel, [Collect] returns the error held by the register
    ([s.err]) and no result if one is set, and otherwise a result whose
    raw data is c1 ++ ... ++ cN in that order (with no panic in the
    copying).  So for [ready], audio "ab", audio "cd" (in base64),
    [end_of_stream], it returns "abcd"; and when an [error] frame comes
    in place of the end of stream, it returns that error and no result. *)
Theorem collect_concatenates :
  (forall (chunks : list bytes) (s : TTS.TTSStream) (rest : list TTS.selected),
      TTS.Collect (map TTS.GotChunk chunks ++ TTS.GotClosed :: rest) s =
      match TTS.err s with
      | Some e => Returns (None, Some e)
      | None => Returns (Some {| RawData := List.concat chunks;
                                 SampleRate := 48000;
                                 tr_RequestID := TTS.requestID s |}, None)
      end) /\
  (let w := tts_after [TTS.Deliver (f_ready "req-123"); TTS.Deliver (f_audio "YWI=");
                       TTS.Deliver (f_audio "Y2Q="); TTS.Deliver f_end_of_stream]
                      (tts_session plain) in
   TTS.selects_of (TTS.stream w)
   = [TTS.GotChunk (list_byte_of_string "ab"); TTS.GotChunk (list_byte_of_string "cd");
      TTS.GotClosed] /\
   TTS.Collect (TTS.selects_of (TTS.stream w)) (TTS.stream w)
   = Returns (Some {| RawData := list_byte_of_string "abcd";
                      SampleRate := 48000;
                      tr_RequestID := "req-123" |}, None)) /\
  (let w := tts_after [TTS.Deliver (f_ready "req-123"); TTS.Deliver (f_audio "YWI=");
                       TTS.Deliver (f_audio "Y2Q="); TTS.Deliver (f_error "boom" 500)]
                      (tts_session plain) in
   TTS.err (TTS.stream w) = Some (WebSocketError "boom" 500) /\
   TTS.selects_of (TTS.stream w)
   = [TTS.GotChunk (list_byte_of_string "ab"); TTS.GotChunk (list_byte_of_string "cd");
      TTS.GotClosed] /\
   TTS.Collect (TTS.selects_of (TTS.stream w)) (TTS.stream w)
   = Returns (None, Some (WebSocketError "boom" 500))).
Proof.
  split; [|split].
  - intros chunks s rest.
    pose proof (TTSFacts.Collect_loop_chunks chunks [] 0 s rest eq_refl) as C.
    unfold TTS.getError in C. exact C.
  - vm_compute. split; reflexivity.
  - vm_compute. repeat split.
Qed.

(** C6: when the selects of [CollectText] yield the segments t1..tN and
    then the closed channel, it returns the error held by the register
    ([s.err]) if one is set, and otherwise the texts in that order with
    one space between neighbours ([spaced], which [strings.Join]
    computes).  So for "Hello", "world", [end_of_stream] it returns
    "Hello world"; and when an [error] frame comes in place of the end of
    stream, it returns that error and the empty transcript. *)
Theorem collect_text_joins :
  (forall (segs : list STTTextResult) (s : STT.STTStream) (rest : list STT.selected),
      STT.CollectText (map STT.GotText segs ++ STT.GotClosed :: rest) s =
      match STT.err s with
      | Some e => Returns (EmptyString, Some e)
      | None => Returns (spaced (map Text segs), None)
      end) /\
  (forall texts, Join texts " " = spaced texts) /\
  (let w := stt_after [STT.Deliver (f_ready "req-123"); STT.Deliver (f_text "Hello");
                       STT.Deliver (f_text "world"); STT.Deliver f_end_of_stream]
                      (stt_session plain) in
   map Text (buf (STT.textCh (STT.stream w))) = ["Hello"; "world"] /\
   STT.CollectText (STT.selects_of (STT.stream w)) (STT.stream w)
   = Returns ("Hello world", None)) /\
  (let w := stt_after [STT.Deliver (f_ready "req-123"); STT.Deliver (f_text "Hello");
                       STT.Deliver (f_text "world"); STT.Deliver (f_error "boom" 500)]
                      (stt_session plain) in
   STT.err (STT.stream w) = Some (WebSocketError "boom" 500) /\
   map Text (buf (STT.textCh (STT.stream w))) = ["Hello"; "world"] /\
   STT.CollectText (STT.selects_of (STT.stream w)) (STT.stream w)
   = Returns (EmptyString, Some (WebSocketError "boom" 500))).
Proof.
  split; [|split; [|split]].
  - intros segs s rest.
    pose proof (STTFacts.CollectText_loop_texts segs [] s rest) as C.
    unfold STT.getError in C. exact C.
  - exact STTFacts.Join_spaced.
  - vm_compute. split; reflexivity.
  - vm_compute. repeat split.
Qed.

(** C10: a result returned by [Collect] has [SampleRate] 48000, whatever
    the parameters the stream was made with (the output format among
    them), whatever the server sent and whatever the caller did. *)
Theorem collect_sample_rate :
  forall (Data : Type) (codec : Codec Data)
         dial write (params : TTSParams) w0 (acts : list (TTS.action Data)) w
         (sel : list TTS.selected) (r : TTSResult) (e : option error),
    TTS.Stream dial write params = inl w0 ->
    TTS.run acts w0 = Ok tt w ->
    TTS.Collect sel (TTS.stream w) = Returns (Some r, e) ->
    SampleRate r = 48000%Z.
Proof.
  intros Data codec dial write params w0 acts w sel r e _ _ H.
  exact (TTSFacts.Collect_loop_rate sel [] 0 (TTS.stream w) r e H).
Qed.

Lemma collect_sample_rate_witness :
  let acts := [TTS.Deliver (f_ready "req-123"); TTS.Deliver (f_audio "YWI=");
               TTS.Deliver f_end_of_stream] in
  let w := tts_after acts (tts_session plain) in
  let r := {| RawData := list_byte_of_string "ab"; SampleRate := 48000;
              tr_RequestID := "req-123" |} in
  TTS.Stream (inl plain) None (tts_params FormatPCM16000) = inl (tts_session plain) /\
  TTS.run acts (tts_session plain) = Ok tt w /\
  TTS.Collect (TTS.selects_of (TTS.stream w)) (TTS.stream w) = Returns (Some r, None) /\
  SampleRate r = 48000%Z.
Proof.
  intros acts w r.
  assert (H1 : TTS.Stream (inl plain) None (tts_params FormatPCM16000)
               = inl (tts_session plain)) by reflexivity.
  assert (H2 : TTS.run acts (tts_session plain) = Ok tt w) by (vm_compute; reflexivity).
  assert (H3 : TTS.Collect (TTS.selects_of (TTS.stream w)) (TTS.stream w)
               = Returns (Some r, None)) by (vm_compute; reflexivity).
  split; [exact H1|]. split; [exact H2|]. split; [exact H3|].
  exact (collect_sample_rate frame codec (inl plain) None (tts_params FormatPCM16000)
           (tts_session plain) acts w (TTS.selects_of (TTS.stream w)) r None H1 H2 H3).
Defined.

(** C7, as stated, fails: [WaitReady] returns the error register as it
    is when the call is made.  After a Ready envelope the call succeeds;
    after a later Error envelope the next call, through the same closed
    gate, returns the error.  For the other stream a second Ready envelope
    changes the info that the call returns. *)
Lemma wait_ready_outcome_changes :
  let w1 := tts_after [TTS.Deliver (f_ready "req-1")] (tts_session plain) in
  let w2 := tts_after [TTS.Deliver (f_error "boom" 500)] w1 in
  let v1 := stt_after [STT.Deliver (f_ready "req-1")] (stt_session plain) in
  let v2 := stt_after [STT.Deliver (f_ready "req-2")] v1 in
  TTS.WaitReady None false (TTS.stream w1) = Returns None /\
  TTS.WaitReady None false (TTS.stream w2) = Returns (Some (WebSocketError "boom" 500)) /\
  (exists i1 i2,
      STT.WaitReady None false (STT.stream v1) = Returns (Some i1, None) /\
      STT.WaitReady None false (STT.stream v2) = Returns (Some i2, None) /\
      ri_RequestID i1 = "req-1" /\ ri_RequestID i2 = "req-2").
Proof.
  vm_compute. split; [reflexivity|]. split; [reflexivity|].
  eexists _, _. repeat split.
Qed.

(** C7, amended: between two calls of [WaitReady] that return through
    the gate, whatever the dispatcher reads and the caller does: the gate
    stays resolved; a call that returned an error is followed by calls
    that return the same error; a call that succeeded is followed by calls
    that succeed as long as no Error envelope and no read failure has
    been read in between, and for the other stream they return the same
    info as long as, besides, no further Ready envelope has been read. *)
Theorem wait_ready_stable :
  forall (Data : Type) (codec : Codec Data)
         (tw tw' : TTS.Session) (tacts : list (TTS.action Data))
         (sw sw' : STT.Session) (sacts : list (STT.action Data)),
    TTSProps.reachable tw -> TTS.run tacts tw = Ok tt tw' ->
    STTProps.reachable sw -> STT.run sacts sw = Ok tt sw' ->
    (closed (TTS.ready (TTS.stream tw)) = true ->
     closed (TTS.ready (TTS.stream tw')) = true) /\
    (forall e b b',
        TTS.WaitReady None b (TTS.stream tw) = Returns (Some e) ->
        TTS.WaitReady None b' (TTS.stream tw') = Returns (Some e)) /\
    (forall b b',
        TTS.WaitReady None b (TTS.stream tw) = Returns None ->
        TTSProps.calm tacts = true ->
        TTS.WaitReady None b' (TTS.stream tw') = Returns None) /\
    (closed (STT.ready (STT.stream sw)) = true ->
     closed (STT.ready (STT.stream sw')) = true) /\
    (forall e b b',
        STT.WaitReady None b (STT.stream sw) = Returns (None, Some e) ->
        STT.WaitReady None b' (STT.stream sw') = Returns (None, Some e)) /\
    (forall info b b',
        STT.WaitReady None b (STT.stream sw) = Returns (info, None) ->
        STTProps.calm sacts = true ->
        exists info',
          STT.WaitReady None b' (STT.stream sw') = Returns (info', None) /\
          (STTProps.no_ready sacts = true -> info' = info)).
Proof.
  intros Data codec tw tw' tacts sw sw' sacts Rt Et Rs Es.
  pose proof (TTSFacts.tts_run_err tacts tw tw' (TTSFacts.tts_reachable_Inv tw Rt) Et)
    as (Tr & Te & Tc).
  pose proof (STTFacts.stt_run_err sacts sw sw' (STTFacts.stt_reachable_Inv sw Rs) Es)
    as (Sr & Se & Sc & Si).
  unfold TTS.WaitReady, STT.WaitReady, TTS.getError, STT.getError.
  repeat split; auto.
  - intros e b b'. destruct (closed (TTS.ready (TTS.stream tw))); [|discriminate].
    intros H. injection H as H. now rewrite (Tr eq_refl), (Te e H).
  - intros b b'. destruct (closed (TTS.ready (TTS.stream tw))); [|discriminate].
    intros H Hc. injection H as H. now rewrite (Tr eq_refl), (Tc Hc), H.
  - intros e b b'. destruct (closed (STT.ready (STT.stream sw))); [|discriminate].
    destruct (STT.err (STT.stream sw)) as [e0|] eqn:E0; [|discriminate].
    intros H. injection H as <-. now rewrite (Sr eq_refl), (Se e0 eq_refl).
  - intros info b b'. destruct (closed (STT.ready (STT.stream sw))); [|discriminate].
    destruct (STT.err (STT.stream sw)) as [e0|] eqn:E0; [discriminate|].
    intros H Hc. injection H as <-.
    exists (STT.readyInfo (STT.stream sw')).
    rewrite (Sr eq_refl), (Sc Hc), ?E0.
    split; [reflexivity|]. intros Hn. exact (Si Hn).
Qed.

Lemma wait_ready_stable_witness :
  let tw := tts_after [TTS.Deliver (f_error "Invalid voice ID" 400)] (tts_session plain) in
  let tacts := [TTS.Deliver (f_ready "late"); TTS.CallClose;
                TTS.Deliver (ReadErr "closed" : ReadResult frame)] in
  let tw' := tts_after tacts tw in
  let sw := stt_after [STT.Deliver (f_ready "req-1")] (stt_session plain) in
  let sacts := [STT.Deliver (f_text "Hello"); STT.TakeAll; STT.Deliver (f_ready "req-2")] in
  let sw' := stt_after sacts sw in
  TTSProps.reachable tw /\ TTS.run tacts tw = Ok tt tw' /\
  STTProps.reachable sw /\ STT.run sacts sw = Ok tt sw' /\
  TTS.WaitReady None false (TTS.stream tw)
  = Returns (Some (WebSocketError "Invalid voice ID" 400)) /\
  TTS.WaitReady None false (TTS.stream tw')
  = Returns (Some (WebSocketError "Invalid voice ID" 400)) /\
  STT.WaitReady None false (STT.stream sw)
  = Returns (STT.readyInfo (STT.stream sw), None) /\
  STTProps.calm sacts = true /\
  exists info',
    STT.WaitReady None false (STT.stream sw') = Returns (info', None) /\
    (STTProps.no_ready sacts = true -> info' = STT.readyInfo (STT.stream sw)).
Proof.
  intros tw tacts tw' sw sacts sw'.
  assert (Rt : TTSProps.reachable tw).
  { apply (TTSFacts.tts_reachable_run [TTS.Deliver (f_error "Invalid voice ID" 400)]
             (tts_session plain)).
    - apply (TTSProps.reach_Stream (inl plain) None (tts_params FormatPCM)). reflexivity.
    - vm_compute. reflexivity. }
  assert (Rs : STTProps.reachable sw).
  { apply (STTFacts.stt_reachable_run [STT.Deliver (f_ready "req-1")] (stt_session plain)).
    - apply (STTProps.reach_Stream (inl plain) None stt_params). reflexivity.
    - vm_compute. reflexivity. }
  assert (Et : TTS.run tacts tw = Ok tt tw') by (vm_compute; reflexivity).
  assert (Es : STT.run sacts sw = Ok tt sw') by (vm_compute; reflexivity).
  assert (Wt : TTS.WaitReady None false (TTS.stream tw)
               = Returns (Some (WebSocketError "Invalid voice ID" 400)))
    by (vm_compute; reflexivity).
  assert (Ws : STT.WaitReady None false (STT.stream sw)
               = Returns (STT.readyInfo (STT.stream sw), None))
    by (vm_compute; reflexivity).
  assert (Cs : STTProps.calm sacts = true) by (vm_compute; reflexivity).
  destruct (wait_ready_stable frame codec tw tw' tacts sw sw' sacts Rt Et Rs Es)
    as (_ & Te & _ & _ & _ & Si).
  split; [exact Rt|]. split; [exact Et|]. split; [exact Rs|]. split; [exact Es|].
  split; [exact Wt|].
  split; [exact (Te _ false false Wt)|].
  split; [exact Ws|].
  split; [exact Cs|].
  exact (Si _ false false Ws Cs).
Defined.

(** C8, as stated, fails on the first call: [Close] hands back what
    [conn.Close()] returned, so on a connection whose close reports an
    error the first of two calls returns that error; the second returns
    nil and the connection is closed once. *)
Lemma first_close_returns_transport_error :
  let w := tts_after [TTS.CallClose; TTS.CallClose] (tts_session broken) in
  let v := stt_after [STT.CallClose; STT.CallClose] (stt_session broken) in
  TTS.Stream (inl broken) None (tts_params FormatPCM) = inl (tts_session broken) /\
  close_returns (TTS.trace w)
  = [Some (TransportError "tls: failed to send closeNotify alert"); None] /\
  closeCalls (TTS.conn (TTS.stream w)) = 1 /\
  close_returns (STT.trace v)
  = [Some (TransportError "tls: failed to send closeNotify alert"); None] /\
  closeCalls (STT.conn (STT.stream v)) = 1.
Proof. vm_compute. repeat split. Qed.

(** C8, amended: however often [Close] is called, and wherever the
    calls fall among the dispatcher's reads (before or after it returns),
    nothing panics, [conn.Close()] is reached exactly once if [Close] is
    called at all, the first call returns what [conn.Close()] returned
    (nil when the transport closes cleanly) and every later call returns
    nil. *)
Theorem close_idempotent :
  forall (Data : Type) (codec : Codec Data)
         (tc : Conn) twrite tparams tw0 (tacts : list (TTS.action Data))
         (sc : Conn) swrite sparams sw0 (sacts : list (STT.action Data)),
    TTS.Stream (inl tc) twrite tparams = inl tw0 ->
    STT.Stream (inl sc) swrite sparams = inl sw0 ->
    (exists w,
        TTS.run tacts tw0 = Ok tt w /\
        closeCalls (TTS.conn (TTS.stream w))
        = closeCalls tc + Nat.min 1 (TTSProps.close_calls tacts) /\
        close_returns (TTS.trace w)
        = match TTSProps.close_calls tacts with
          | 0 => []
          | S n => closeErr tc :: repeat None n
          end) /\
    (exists w,
        STT.run sacts sw0 = Ok tt w /\
        closeCalls (STT.conn (STT.stream w))
        = closeCalls sc + Nat.min 1 (STTProps.close_calls sacts) /\
        close_returns (STT.trace w)
        = match STTProps.close_calls sacts with
          | 0 => []
          | S n => closeErr sc :: repeat None n
          end).
Proof.
  intros Data codec tc twrite tparams tw0 tacts sc swrite sparams sw0 sacts Ht Hs.
  split.
  - pose proof (TTSFacts.tts_Inv_Stream _ _ _ _ Ht) as H0.
    destruct (TTSFacts.tts_run_Inv tacts tw0 H0) as (w & E & _).
    exists w. split; [exact E|].
    destruct (TTSFacts.tts_run_close tacts tw0 w H0 E) as (_ & _ & Hn & Hr).
    unfold TTS.Stream in Ht. destruct twrite; [discriminate|]. injection Ht as <-.
    simpl in *. auto.
  - pose proof (STTFacts.stt_Inv_Stream _ _ _ _ Hs) as H0.
    destruct (STTFacts.stt_run_Inv sacts sw0 H0) as (w & E & _).
    exists w. split; [exact E|].
    destruct (STTFacts.stt_run_close sacts sw0 w H0 E) as (_ & _ & Hn & Hr).
    unfold STT.Stream in Hs. destruct swrite; [discriminate|]. injection Hs as <-.
    simpl in *. auto.
Qed.

Lemma close_idempotent_witness :
  let tacts := [TTS.CallClose; TTS.Deliver (ReadErr "closed" : ReadResult frame);
                TTS.CallClose; TTS.CallClose] in
  let sacts := [STT.Deliver f_end_of_stream; STT.CallClose; STT.CallClose] in
  TTS.Stream (inl plain) None (tts_params FormatPCM) = inl (tts_session plain) /\
  STT.Stream (inl broken) None stt_params = inl (stt_session broken) /\
  (exists w,
      TTS.run tacts (tts_session plain) = Ok tt w /\
      closeCalls (TTS.conn (TTS.stream w)) = 1 /\
      close_returns (TTS.trace w) = [None; None; None]) /\
  (exists w,
      STT.run sacts (stt_session broken) = Ok tt w /\
      closeCalls (STT.conn (STT.stream w)) = 1 /\
      close_returns (STT.trace w) = [closeErr broken; None]).
Proof.
  intros tacts sacts.
  split; [reflexivity|]. split; [reflexivity|].
  exact (close_idempotent frame codec
           plain None (tts_params FormatPCM) (tts_session plain) tacts
           broken None stt_params (stt_session broken) sacts eq_refl eq_refl).
Defined.

(** C9, as stated, fails for the end-text channel, which is made with
    capacity 10: with nobody reading, the eleventh end-text item is
    dropped from it while the unified feed takes all eleven. *)
Lemma end_text_queue_holds_ten :
  let w := stt_after (repeat (STT.Deliver f_end_text) 11) (stt_session plain) in
  STT.Stream (inl plain) None stt_params = inl (stt_session plain) /\
  cap (STT.endTextCh (STT.stream (stt_session plain))) = 10 /\
  cap (STT.endTextCh (STT.stream (stt_session plain))) <> 100 /\
  List.length (buf (STT.endTextCh (STT.stream w))) = 10 /\
  List.length (buf (STT.allMsgCh (STT.stream w))) = 11 /\
  last (STT.trace w) EvRead = EvPublish ChAll true /\
  In (EvPublish ChEndText false) (STT.trace w).
Proof.
  vm_compute. repeat split; try discriminate.
  do 31 right. left. reflexivity.
Qed.

(** C9, amended: every result channel is a bounded queue whose capacity
    is fixed when [Stream] makes it and never changes: 100 for the audio
    channel, 100 for the text channel, for the step channel and for the
    unified feed, and 10 for the end-text channel; no queue ever holds
    more than its capacity. *)
Theorem channel_capacities :
  forall (Data : Type) (codec : Codec Data) (tw : TTS.Session) (sw : STT.Session),
    @TTSProps.reachable Data codec tw -> @STTProps.reachable Data codec sw ->
    (cap (TTS.audioCh (TTS.stream tw)) = 100 /\
     List.length (buf (TTS.audioCh (TTS.stream tw))) <= 100) /\
    (cap (STT.textCh (STT.stream sw)) = 100 /\
     List.length (buf (STT.textCh (STT.stream sw))) <= 100) /\
    (cap (STT.vadCh (STT.stream sw)) = 100 /\
     List.length (buf (STT.vadCh (STT.stream sw))) <= 100) /\
    (cap (STT.endTextCh (STT.stream sw)) = 10 /\
     List.length (buf (STT.endTextCh (STT.stream sw))) <= 10) /\
    (cap (STT.allMsgCh (STT.stream sw)) = 100 /\
     List.length (buf (STT.allMsgCh (STT.stream sw))) <= 100).
Proof.
  intros Data codec tw sw Rt Rs.
  destruct (TTSFacts.tts_reachable_Inv tw Rt) as (Ca & Ba & _).
  destruct (STTFacts.stt_reachable_Inv sw Rs)
    as ((C1 & C2 & C3 & C4) & (B1 & B2 & B3 & B4) & _).
  unfold bounded in *.
  rewrite Ca in Ba. rewrite C1 in B1. rewrite C2 in B2. rewrite C3 in B3. rewrite C4 in B4.
  repeat split; assumption.
Qed.

Lemma channel_capacities_witness :
  let tw := tts_session plain in
  let sw := stt_after (repeat (STT.Deliver f_end_text) 11) (stt_session plain) in
  TTSProps.reachable tw /\ STTProps.reachable sw /\
  cap (TTS.audioCh (TTS.stream tw)) = 100 /\
  cap (STT.endTextCh (STT.stream sw)) = 10 /\
  List.length (buf (STT.endTextCh (STT.stream sw))) <= 10.
Proof.
  intros tw sw.
  assert (Rt : TTSProps.reachable tw)
    by (apply (TTSProps.reach_Stream (inl plain) None (tts_params FormatPCM));
        reflexivity).
  assert (Rs : STTProps.reachable sw).
  { apply (STTFacts.stt_reachable_run (repeat (STT.Deliver f_end_text) 11)
             (stt_session plain)).
    - apply (STTProps.reach_Stream (inl plain) None stt_params). reflexivity.
    - vm_compute. reflexivity. }
  destruct (channel_capacities frame codec tw sw Rt Rs)
    as ((Ca & _) & _ & _ & (Ce & Be) & _).
  split; [exact Rt|]. split; [exact Rs|]. split; [exact Ca|]. split; [exact Ce|].
  exact Be.
Defined.
(** * Further properties of the streams *)

Section StreamFacts.
Context {Data : Type} {codec : Codec Data}.

Lemma tts_Stream_fresh dial write params w0 :
  TTS.Stream dial write params = inl w0 ->
  TTS.dispatcher w0 = Running false /\
  TTS.err (TTS.stream w0) = None /\
  buf (TTS.audioCh (TTS.stream w0)) = [] /\
  TTS.closeOnce (TTS.stream w0) = false /\
  (exists c, dial = inl c /\ TTS.conn (TTS.stream w0) = c).
Proof.
  unfold TTS.Stream. destruct dial as [c|why]; [|discriminate].
  destruct write; [discriminate|]. intros H. injection H as <-.
  simpl. repeat split; eauto.
Qed.

Lemma stt_Stream_fresh dial write params w0 :
  STT.Stream dial write params = inl w0 ->
  STT.dispatcher w0 = Running false /\
  STT.err (STT.stream w0) = None /\
  buf (STT.textCh (STT.stream w0)) = [] /\
  buf (STT.vadCh (STT.stream w0)) = [] /\
  buf (STT.endTextCh (STT.stream w0)) = [] /\
  buf (STT.allMsgCh (STT.stream w0)) = [] /\
  STT.closeOnce (STT.stream w0) = false /\
  (exists c, dial = inl c /\ STT.conn (STT.stream w0) = c).
Proof.
  unfold STT.Stream. destruct dial as [c|why]; [|discriminate].
  destruct write; [discriminate|]. intros H. injection H as <-.
  simpl. repeat split; eauto.
Qed.



Lemma fill_nil (A : Type) (n : nat) (xs : list A) : fill n [] xs = firstn n xs.
Proof. unfold fill. simpl. now rewrite Nat.sub_0_r. Qed.

(** No read is taken for a read failure unless the transport failed. *)
Lemma kind_of_ReadOK (data : Data) : kind_of (ReadOK data) <> KReadFailure.
Proof.
  unfold kind_of. destruct (Unmarshal_wsMessage data) as [msg failed].
  destruct failed; [discriminate|].
  destruct (Type_ msg =? msgTypeReady); [discriminate|].
  destruct (Type_ msg =? msgTypeEndOfStream); [discriminate|].
  destruct (Type_ msg =? msgTypeError); discriminate.
Qed.

(** A gate closed with no Ready envelope read was closed on the error
    path. *)
Lemma tts_gate_by_error (reads : list (ReadResult Data)) :
  gate_resolved_by (map kind_of reads) = true ->
  ~ In KReady (map kind_of reads) ->
  exists e, TTSMore.first_error reads = Some e.
Proof.
  induction reads as [|rd reads IH]; [discriminate|].
  cbn [map gate_resolved_by TTSMore.first_error In].
  destruct (kind_of rd) eqn:K; cbn [terminal]; intros G N.
  - exfalso. apply N. now left.
  - unfold TTSMore.error_of. destruct rd as [data|why]; [rewrite K|]; eauto.
  - unfold TTSMore.error_of. destruct rd as [data|why]; [|eauto].
    exfalso. exact (kind_of_ReadOK data K).
  - discriminate.
  - apply IH; [exact G|]. intros Hin. apply N. now right.
Qed.

Lemma stt_gate_by_error (reads : list (ReadResult Data)) :
  gate_resolved_by (map kind_of reads) = true ->
  ~ In KReady (map kind_of reads) ->
  exists e, STTMore.first_error reads = Some e.
Proof.
  induction reads as [|rd reads IH]; [discriminate|].
  cbn [map gate_resolved_by STTMore.first_error In].
  destruct (kind_of rd) eqn:K; cbn [terminal]; intros G N.
  - exfalso. apply N. now left.
  - unfold STTMore.error_of. destruct rd as [data|why]; [rewrite K|]; eauto.
  - unfold STTMore.error_of. destruct rd as [data|why]; [|eauto].
    exfalso. exact (kind_of_ReadOK data K).
  - discriminate.
  - apply IH; [exact G|]. intros Hin. apply N. now right.
Qed.

End StreamFacts.

(** X1 (tts.go, handleMessages, setError, WaitReady and Collect): in a
    TTS session, whatever the consumer and the caller do meanwhile, the
    error register holds nothing but the error of the read that ended the
    dispatcher's loop (a read failure or a server Error envelope).  The
    error is recorded before any channel is closed, so: once the audio
    channel is seen closed the register is final, and a [Collect] that
    has received the chunks c1..cN and then the closed channel returns
    that error if the loop ended on one, and c1 ++ ... ++ cN otherwise;
    and a gate that is closed although no Ready envelope was read was
    closed on the error path, and [WaitReady] through it returns that
    error, never nil. *)
Theorem tts_error_register :
  forall (Data : Type) (codec : Codec Data) dial write params w0
         (acts : list (TTS.action Data)),
    TTS.Stream dial write params = inl w0 ->
    exists w, TTS.run acts w0 = Ok tt w /\
      (forall e, TTS.err (TTS.stream w) = Some e ->
                 TTSMore.first_error (TTSProps.delivered acts) = Some e) /\
      (closed (TTS.audioCh (TTS.stream w)) = true ->
       TTS.err (TTS.stream w) = TTSMore.first_error (TTSProps.delivered acts) /\
       forall chunks rest,
         TTS.Collect (map TTS.GotChunk chunks ++ TTS.GotClosed :: rest) (TTS.stream w) =
         match TTSMore.first_error (TTSProps.delivered acts) with
         | Some e => Returns (None, Some e)
         | None => Returns (Some {| RawData := List.concat chunks;
                                    SampleRate := 48000;
                                    tr_RequestID := TTS.requestID (TTS.stream w) |}, None)
         end) /\
      (closed (TTS.ready (TTS.stream w)) = true ->
       ~ In KReady (TTSProps.kinds acts) ->
       exists e, TTSMore.first_error (TTSProps.delivered acts) = Some e /\
                 TTS.WaitReady None false (TTS.stream w) = Returns (Some e)).
Proof.
  intros Data codec dial write params w0 acts Hs.
  pose proof (TTSFacts.tts_Inv_Stream _ _ _ _ Hs) as H0.
  destruct (tts_Stream_fresh _ _ _ _ Hs) as (D0 & E0 & _).
  destruct (TTSFacts.tts_run_Inv acts w0 H0) as (w & E & H).
  exists w. split; [exact E|].
  pose proof (TTSFacts.tts_run_first_error acts w0 w H0 E) as He.
  rewrite E0, D0 in He. simpl in He.
  split; [intros e Hw; now rewrite <- He|].
  split.
  - intros _. split; [exact He|]. intros chunks rest.
    pose proof (TTSFacts.Collect_loop_chunks chunks [] 0 (TTS.stream w) rest eq_refl)
      as C.
    unfold TTS.getError in C. rewrite He in C. exact C.
  - intros Hr Hn.
    pose proof (TTSFacts.tts_run_gate acts w0 w H0 E) as Hq.
    rewrite D0, Hr in Hq. simpl in Hq. symmetry in Hq.
    destruct (tts_gate_by_error _ Hq Hn) as (e & Hfe).
    exists e. split; [exact Hfe|].
    unfold TTS.WaitReady, TTS.getError. now rewrite Hr, He, Hfe.
Qed.

Lemma tts_error_register_witness :
  TTS.Stream (inl plain) None (tts_params FormatPCM) = inl (tts_session plain) /\
  exists w,
    TTS.run [TTS.Deliver (f_audio "YWI="); TTS.TakeAudio;
             TTS.Deliver (f_error "boom" 42); TTS.Deliver (ReadErr "EOF")]
            (tts_session plain) = Ok tt w /\
    closed (TTS.audioCh (TTS.stream w)) = true /\
    closed (TTS.ready (TTS.stream w)) = true /\
    TTS.err (TTS.stream w) = Some (WebSocketError "boom" 42) /\
    (forall e, TTS.err (TTS.stream w) = Some e ->
               TTSMore.first_error
                 (TTSProps.delivered
                    [TTS.Deliver (f_audio "YWI="); TTS.TakeAudio;
                     TTS.Deliver (f_error "boom" 42); TTS.Deliver (ReadErr "EOF")])
               = Some e) /\
    (closed (TTS.audioCh (TTS.stream w)) = true ->
     TTS.err (TTS.stream w)
     = TTSMore.first_error
         (TTSProps.delivered
            [TTS.Deliver (f_audio "YWI="); TTS.TakeAudio;
             TTS.Deliver (f_error "boom" 42); TTS.Deliver (ReadErr "EOF")]) /\
     forall chunks rest,
       TTS.Collect (map TTS.GotChunk chunks ++ TTS.GotClosed :: rest) (TTS.stream w) =
       match TTSMore.first_error
               (TTSProps.delivered
                  [TTS.Deliver (f_audio "YWI="); TTS.TakeAudio;
                   TTS.Deliver (f_error "boom" 42); TTS.Deliver (ReadErr "EOF")]) with
       | Some e => Returns (None, Some e)
       | None => Returns (Some {| RawData := List.concat chunks;
                                  SampleRate := 48000;
                                  tr_RequestID := TTS.requestID (TTS.stream w) |}, None)
       end) /\
    (closed (TTS.ready (TTS.stream w)) = true ->
     ~ In KReady (TTSProps.kinds
                    [TTS.Deliver (f_audio "YWI="); TTS.TakeAudio;
                     TTS.Deliver (f_error "boom" 42); TTS.Deliver (ReadErr "EOF")]) ->
     exists e, TTSMore.first_error
                 (TTSProps.delivered
                    [TTS.Deliver (f_audio "YWI="); TTS.TakeAudio;
                     TTS.Deliver (f_error "boom" 42); TTS.Deliver (ReadErr "EOF")])
               = Some e /\
               TTS.WaitReady None false (TTS.stream w) = Returns (Some e)).
Proof.
  split; [reflexivity|].
  destruct (tts_error_register frame codec (inl plain) None (tts_params FormatPCM)
              (tts_session plain)
              [TTS.Deliver (f_audio "YWI="); TTS.TakeAudio;
               TTS.Deliver (f_error "boom" 42); TTS.Deliver (ReadErr "EOF")] eq_refl)
    as (w & E & P).
  exists w. split; [exact E|].
  assert (Ew : w = tts_after [TTS.Deliver (f_audio "YWI="); TTS.TakeAudio;
                              TTS.Deliver (f_error "boom" 42);
                              TTS.Deliver (ReadErr "EOF")] (tts_session plain)).
  { unfold tts_after. now rewrite E. }
  split; [rewrite Ew; vm_compute; reflexivity|].
  split; [rewrite Ew; vm_compute; reflexivity|].
  split; [rewrite Ew; vm_compute; reflexivity|].
  exact P.
Defined.

(** X2 (tts.go, handleMessages and Audio): what a consumer of [Audio()]
    has received so far, followed by what is still queued, is a selection
    of the decoded audio chunks in the order of their frames: chunks may be
    lost (queue full), never reordered, duplicated or invented; and when
    the session decodes no more than 100 chunks none is lost, however
    slow the consumer. *)
Theorem tts_audio_in_order :
  forall (Data : Type) (codec : Codec Data) dial write params w0
         (acts : list (TTS.action Data)),
    TTS.Stream dial write params = inl w0 ->
    exists w, TTS.run acts w0 = Ok tt w /\
      let decoded := TTSMore.chunks_of (TTSProps.delivered acts) in
      let got := TTSMore.received acts w0 ++ buf (TTSMore.Audio (TTS.stream w)) in
      subseq got decoded /\
      (List.length decoded <= 100 -> got = decoded).
Proof.
  intros Data codec dial write params w0 acts Hs.
  pose proof (TTSFacts.tts_Inv_Stream _ _ _ _ Hs) as H0.
  destruct (tts_Stream_fresh _ _ _ _ Hs) as (D0 & _ & B0 & _).
  destruct (TTSFacts.tts_run_Inv acts w0 H0) as (w & E & H).
  exists w. split; [exact E|].
  destruct (TTSFacts.tts_run_fifo acts w0 w H0 E) as (kept & Hk & Hq & Hall).
  rewrite D0 in Hk, Hall. rewrite B0 in Hq, Hall. simpl in Hk, Hq, Hall.
  unfold TTSMore.Audio. cbv zeta. rewrite <- Hq. split; [exact Hk|exact Hall].
Qed.

Lemma tts_audio_in_order_witness :
  TTS.Stream (inl plain) None (tts_params FormatPCM) = inl (tts_session plain) /\
  exists w,
    TTS.run [TTS.Deliver (f_audio "YWI="); TTS.TakeAudio; TTS.TakeAudio;
             TTS.Deliver (f_audio "Y2Q="); TTS.Deliver (f_audio "ZWY=")]
            (tts_session plain) = Ok tt w /\
    let decoded := TTSMore.chunks_of
                     (TTSProps.delivered
                        [TTS.Deliver (f_audio "YWI="); TTS.TakeAudio; TTS.TakeAudio;
                         TTS.Deliver (f_audio "Y2Q="); TTS.Deliver (f_audio "ZWY=")]) in
    let got := TTSMore.received
                 [TTS.Deliver (f_audio "YWI="); TTS.TakeAudio; TTS.TakeAudio;
                  TTS.Deliver (f_audio "Y2Q="); TTS.Deliver (f_audio "ZWY=")]
                 (tts_session plain)
               ++ buf (TTSMore.Audio (TTS.stream w)) in
    subseq got decoded /\
    (List.length decoded <= 100 -> got = decoded).
Proof.
  split; [reflexivity|].
  apply (tts_audio_in_order frame codec (inl plain) None (tts_params FormatPCM)
           (tts_session plain)
           [TTS.Deliver (f_audio "YWI="); TTS.TakeAudio; TTS.TakeAudio;
            TTS.Deliver (f_audio "Y2Q="); TTS.Deliver (f_audio "ZWY=")]); reflexivity.
Defined.

(** X3 (tts.go, handleMessages): with nobody reading [Audio()], the
    queue after any reads holds the first 100 of the chunks decoded up to
    the read that ends the loop, in their order; the 101st and all later
    ones are dropped. *)
Theorem tts_queue_without_consumer :
  forall (Data : Type) (codec : Codec Data) dial write params w0
         (reads : list (ReadResult Data)),
    TTS.Stream dial write params = inl w0 ->
    exists w, TTS.handleMessages reads w0 = Ok tt w /\
      buf (TTSMore.Audio (TTS.stream w)) = firstn 100 (TTSMore.chunks_of reads).
Proof.
  intros Data codec dial write params w0 reads Hs.
  pose proof (TTSFacts.tts_Inv_Stream _ _ _ _ Hs) as H0.
  destruct (tts_Stream_fresh _ _ _ _ Hs) as (D0 & _ & B0 & _).
  rewrite TTSFacts.tts_handleMessages_run.
  destruct (TTSFacts.tts_run_Inv (map (@TTS.Deliver Data) reads) w0 H0) as (w & E & H).
  exists w. split; [exact E|].
  unfold TTSMore.Audio.
  rewrite (TTSFacts.tts_run_fill reads w0 w H0 E), D0, B0. simpl.
  apply fill_nil.
Qed.

Lemma tts_queue_without_consumer_witness :
  TTS.Stream (inl plain) None (tts_params FormatPCM) = inl (tts_session plain) /\
  exists w,
    TTS.handleMessages (repeat (f_audio "YWI=") 101 ++ [f_end_of_stream; f_audio "Y2Q="])
                       (tts_session plain) = Ok tt w /\
    buf (TTSMore.Audio (TTS.stream w))
    = firstn 100 (TTSMore.chunks_of
                    (repeat (f_audio "YWI=") 101 ++ [f_end_of_stream; f_audio "Y2Q="])).
Proof.
  split; [reflexivity|].
  apply (tts_queue_without_consumer frame codec (inl plain) None (tts_params FormatPCM)
           (tts_session plain)
           (repeat (f_audio "YWI=") 101 ++ [f_end_of_stream; f_audio "Y2Q="]));
    reflexivity.
Defined.

(** [Collect] after the reads are over and nothing was taken. *)
Lemma tts_collect_after_reads :
  forall (Data : Type) (codec : Codec Data) dial write params w0
         (reads : list (ReadResult Data)),
    TTS.Stream dial write params = inl w0 ->
    terminated_by (map kind_of reads) = true ->
    exists w, TTS.handleMessages reads w0 = Ok tt w /\
      TTS.Collect (TTS.selects_of (TTS.stream w)) (TTS.stream w) =
      match TTSMore.first_error reads with
      | Some e => Returns (None, Some e)
      | None =>
          Returns (Some {| RawData := List.concat (firstn 100 (TTSMore.chunks_of reads));
                           SampleRate := 48000;
                           tr_RequestID := TTSMore.RequestID (TTS.stream w) |}, None)
      end.
Proof.
  intros Data codec dial write params w0 reads Hs Ht.
  pose proof (TTSFacts.tts_Inv_Stream _ _ _ _ Hs) as H0.
  destruct (tts_Stream_fresh _ _ _ _ Hs) as (D0 & E0 & B0 & _).
  rewrite TTSFacts.tts_handleMessages_run.
  destruct (TTSFacts.tts_run_Inv (map (@TTS.Deliver Data) reads) w0 H0) as (w & E & H).
  exists w. split; [exact E|].
  assert (Hd : TTSProps.delivered (map (@TTS.Deliver Data) reads) = reads).
  { clear. induction reads as [|r rs IH]; simpl; [reflexivity|]. now f_equal. }
  pose proof (TTSFacts.tts_run_first_error _ w0 w H0 E) as He.
  pose proof (TTSFacts.tts_run_returned _ w0 w H0 E) as Hr.
  pose proof (TTSFacts.tts_run_fill reads w0 w H0 E) as Hb.
  unfold TTSProps.kinds in Hr.
  rewrite Hd, E0, D0 in *. rewrite B0 in Hb. simpl in He, Hr, Hb.
  rewrite Ht in Hr. rewrite fill_nil in Hb.
  destruct (TTS.dispatcher w) eqn:D; [discriminate|].
  unfold TTSProps.Inv in H. rewrite D in H. destruct H as (_ & _ & Ha & _).
  unfold TTS.selects_of, TTS.Collect. rewrite Ha, Hb.
  rewrite (TTSFacts.Collect_loop_chunks _ [] 0 (TTS.stream w) [] eq_refl).
  unfold TTS.getError. rewrite He. reflexivity.
Qed.

(** X4 (tts.go, handleMessages then Collect): when the reads contain one
    that ends the loop and nobody took from [Audio()] meanwhile, a
    [Collect] called afterwards under a context that is never done does
    not block: it returns the recorded error if the loop was ended by a
    read failure or an Error envelope, and otherwise the concatenation of
    the first 100 decoded chunks (so it is the whole audio only when no
    more than 100 chunks were sent). *)
Theorem tts_collect_after_the_end :
  forall (Data : Type) (codec : Codec Data) dial write params w0
         (reads : list (ReadResult Data)),
    TTS.Stream dial write params = inl w0 ->
    terminated_by (map kind_of reads) = true ->
    exists w, TTS.handleMessages reads w0 = Ok tt w /\
      TTS.Collect (TTS.selects_of (TTS.stream w)) (TTS.stream w) =
      match TTSMore.first_error reads with
      | Some e => Returns (None, Some e)
      | None =>
          Returns (Some {| RawData := List.concat (firstn 100 (TTSMore.chunks_of reads));
                           SampleRate := 48000;
                           tr_RequestID := TTSMore.RequestID (TTS.stream w) |}, None)
      end.
Proof.
  intros Data codec dial write params w0 reads Hs Ht.
  pose proof (TTSFacts.tts_Inv_Stream _ _ _ _ Hs) as H0.
  destruct (tts_Stream_fresh _ _ _ _ Hs) as (D0 & E0 & B0 & _).
  rewrite TTSFacts.tts_handleMessages_run.
  destruct (TTSFacts.tts_run_Inv (map (@TTS.Deliver Data) reads) w0 H0) as (w & E & H).
  exists w. split; [exact E|].
  assert (Hd : TTSProps.delivered (map (@TTS.Deliver Data) reads) = reads).
  { clear. induction reads as [|r rs IH]; simpl; [reflexivity|]. now f_equal. }
  pose proof (TTSFacts.tts_run_first_error _ w0 w H0 E) as He.
  pose proof (TTSFacts.tts_run_returned _ w0 w H0 E) as Hr.
  pose proof (TTSFacts.tts_run_fill reads w0 w H0 E) as Hb.
  unfold TTSProps.kinds in Hr.
  rewrite Hd, E0, D0 in *. rewrite B0 in Hb. simpl in He, Hr, Hb.
  rewrite Ht in Hr. rewrite fill_nil in Hb.
  destruct (TTS.dispatcher w) eqn:D; [discriminate|].
  unfold TTSProps.Inv in H. rewrite D in H. destruct H as (_ & _ & Ha & _).
  unfold TTS.selects_of, TTS.Collect. rewrite Ha, Hb.
  rewrite (TTSFacts.Collect_loop_chunks _ [] 0 (TTS.stream w) [] eq_refl).
  unfold TTS.getError. rewrite He. reflexivity.
Qed.

Lemma tts_collect_after_the_end_witness :
  TTS.Stream (inl plain) None (tts_params FormatPCM) = inl (tts_session plain) /\
  terminated_by (map kind_of [f_ready "req-1"; f_audio "YWI="; f_audio "Y2Q=";
                             f_end_of_stream]) = true /\
  exists w,
    TTS.handleMessages [f_ready "req-1"; f_audio "YWI="; f_audio "Y2Q="; f_end_of_stream]
                       (tts_session plain) = Ok tt w /\
    TTS.Collect (TTS.selects_of (TTS.stream w)) (TTS.stream w) =
    match TTSMore.first_error [f_ready "req-1"; f_audio "YWI="; f_audio "Y2Q=";
                               f_end_of_stream] with
    | Some e => Returns (None, Some e)
    | None =>
        Returns (Some {| RawData :=
                           List.concat
                             (firstn 100
                                (TTSMore.chunks_of [f_ready "req-1"; f_audio "YWI=";
                                                    f_audio "Y2Q="; f_end_of_stream]));
                         SampleRate := 48000;
                         tr_RequestID := TTSMore.RequestID (TTS.stream w) |}, None)
    end.
Proof.
  split; [reflexivity|]. split; [reflexivity|].
  apply (tts_collect_after_the_end frame codec (inl plain) None (tts_params FormatPCM)
           (tts_session plain)
           [f_ready "req-1"; f_audio "YWI="; f_audio "Y2Q="; f_end_of_stream]);
    reflexivity.
Defined.

(** X5 (STT stream, handleMessages, setError, WaitReady and
    CollectText): in an STT session, whatever the consumers and the
    caller do meanwhile, the error register holds nothing but the error
    of the read that ended the dispatcher's loop.  The error is recorded
    before any channel is closed, so: once the text channel is seen
    closed the register is final, and a [CollectText] that has received
    the segments t1..tN and then the closed channel returns that error
    (with an empty transcript) if the loop ended on one, and the texts
    joined by single spaces otherwise; and a gate that is closed although
    no Ready envelope was read was closed on the error path, and
    [WaitReady] through it returns no ready info but that error. *)
Theorem stt_error_register :
  forall (Data : Type) (codec : Codec Data) dial write params w0
         (acts : list (STT.action Data)),
    STT.Stream dial write params = inl w0 ->
    exists w, STT.run acts w0 = Ok tt w /\
      (forall e, STT.err (STT.stream w) = Some e ->
                 STTMore.first_error (STTProps.delivered acts) = Some e) /\
      (closed (STT.textCh (STT.stream w)) = true ->
       STT.err (STT.stream w) = STTMore.first_error (STTProps.delivered acts) /\
       forall segs rest,
         STT.CollectText (map STT.GotText segs ++ STT.GotClosed :: rest) (STT.stream w) =
         match STTMore.first_error (STTProps.delivered acts) with
         | Some e => Returns (EmptyString, Some e)
         | None => Returns (spaced (map Text segs), None)
         end) /\
      (closed (STT.ready (STT.stream w)) = true ->
       ~ In KReady (STTProps.kinds acts) ->
       exists e, STTMore.first_error (STTProps.delivered acts) = Some e /\
                 STT.WaitReady None false (STT.stream w) = Returns (None, Some e)).
Proof.
  intros Data codec dial write params w0 acts Hs.
  pose proof (STTFacts.stt_Inv_Stream _ _ _ _ Hs) as H0.
  destruct (stt_Stream_fresh _ _ _ _ Hs) as (D0 & E0 & _).
  destruct (STTFacts.stt_run_Inv acts w0 H0) as (w & E & H).
  exists w. split; [exact E|].
  pose proof (STTFacts.stt_run_first_error acts w0 w H0 E) as He.
  rewrite E0, D0 in He. simpl in He.
  split; [intros e Hw; now rewrite <- He|].
  split.
  - intros _. split; [exact He|]. intros segs rest.
    pose proof (STTFacts.CollectText_loop_texts segs [] (STT.stream w) rest) as C.
    unfold STT.getError in C. rewrite He in C. exact C.
  - intros Hr Hn.
    pose proof (STTFacts.stt_run_gate acts w0 w H0 E) as Hq.
    rewrite D0, Hr in Hq. simpl in Hq. symmetry in Hq.
    destruct (stt_gate_by_error _ Hq Hn) as (e & Hfe).
    exists e. split; [exact Hfe|].
    unfold STT.WaitReady, STT.getError. now rewrite Hr, He, Hfe.
Qed.

Lemma stt_error_register_witness :
  STT.Stream (inl plain) None stt_params = inl (stt_session plain) /\
  exists w,
    STT.run [STT.Deliver (f_text "Hello"); STT.TakeAll;
             STT.Deliver (ReadErr "EOF"); STT.Deliver (f_error "late" 500)]
            (stt_session plain) = Ok tt w /\
    closed (STT.textCh (STT.stream w)) = true /\
    closed (STT.ready (STT.stream w)) = true /\
    STT.err (STT.stream w) = Some (WebSocketError "read error: EOF" 0) /\
    (forall e, STT.err (STT.stream w) = Some e ->
               STTMore.first_error
                 (STTProps.delivered
                    [STT.Deliver (f_text "Hello"); STT.TakeAll;
                     STT.Deliver (ReadErr "EOF"); STT.Deliver (f_error "late" 500)])
               = Some e) /\
    (closed (STT.textCh (STT.stream w)) = true ->
     STT.err (STT.stream w)
     = STTMore.first_error
         (STTProps.delivered
            [STT.Deliver (f_text "Hello"); STT.TakeAll;
             STT.Deliver (ReadErr "EOF"); STT.Deliver (f_error "late" 500)]) /\
     forall segs rest,
       STT.CollectText (map STT.GotText segs ++ STT.GotClosed :: rest) (STT.stream w) =
       match STTMore.first_error
               (STTProps.delivered
                  [STT.Deliver (f_text "Hello"); STT.TakeAll;
                   STT.Deliver (ReadErr "EOF"); STT.Deliver (f_error "late" 500)]) with
       | Some e => Returns (EmptyString, Some e)
       | None => Returns (spaced (map Text segs), None)
       end) /\
    (closed (STT.ready (STT.stream w)) = true ->
     ~ In KReady (STTProps.kinds
                    [STT.Deliver (f_text "Hello"); STT.TakeAll;
                     STT.Deliver (ReadErr "EOF"); STT.Deliver (f_error "late" 500)]) ->
     exists e, STTMore.first_error
                 (STTProps.delivered
                    [STT.Deliver (f_text "Hello"); STT.TakeAll;
                     STT.Deliver (ReadErr "EOF"); STT.Deliver (f_error "late" 500)])
               = Some e /\
               STT.WaitReady None false (STT.stream w) = Returns (None, Some e)).
Proof.
  split; [reflexivity|].
  destruct (stt_error_register frame codec (inl plain) None stt_params
              (stt_session plain)
              [STT.Deliver (f_text "Hello"); STT.TakeAll;
               STT.Deliver (ReadErr "EOF"); STT.Deliver (f_error "late" 500)] eq_refl)
    as (w & E & P).
  exists w. split; [exact E|].
  assert (Ew : w = stt_after [STT.Deliver (f_text "Hello"); STT.TakeAll;
                              STT.Deliver (ReadErr "EOF");
                              STT.Deliver (f_error "late" 500)] (stt_session plain)).
  { unfold stt_after. now rewrite E. }
  split; [rewrite Ew; vm_compute; reflexivity|].
  split; [rewrite Ew; vm_compute; reflexivity|].
  split; [rewrite Ew; vm_compute; reflexivity|].
  exact P.
Defined.

(** X6 (STT stream, handleMessages): with nobody reading, after any
    reads [All()] holds the first 100 of the decoded text, step and
    end_text items in wire order, [Text()] the first 100 texts, [VAD()]
    the first 100 steps and [EndText()] the first 10 end markers: each
    queue drops on its own, so an item can be missing from its typed
    channel and present in [All()], or the other way round. *)
Theorem stt_feeds_without_consumer :
  forall (Data : Type) (codec : Codec Data) dial write params w0
         (reads : list (ReadResult Data)),
    STT.Stream dial write params = inl w0 ->
    exists w, STT.handleMessages reads w0 = Ok tt w /\
      let items := STTMore.items_of reads in
      buf (STTMore.All (STT.stream w)) = firstn 100 items /\
      buf (STTMore.Text (STT.stream w)) = firstn 100 (STTMore.texts_in items) /\
      buf (STTMore.VAD (STT.stream w)) = firstn 100 (STTMore.steps_in items) /\
      buf (STTMore.EndText (STT.stream w)) = firstn 10 (STTMore.end_texts_in items).
Proof.
  intros Data codec dial write params w0 reads Hs.
  pose proof (STTFacts.stt_Inv_Stream _ _ _ _ Hs) as H0.
  destruct (stt_Stream_fresh _ _ _ _ Hs) as (D0 & _ & Bt & Bv & Be & Ba & _).
  rewrite STTFacts.stt_handleMessages_run.
  destruct (STTFacts.stt_run_Inv (map (@STT.Deliver Data) reads) w0 H0) as (w & E & H).
  exists w. split; [exact E|].
  assert (Hrun : returned (STT.dispatcher w0) = false) by now rewrite D0.
  pose proof (STTFacts.stt_run_fill reads w0 w H0 E Hrun) as F.
  cbv zeta in F |- *. rewrite Bt, Bv, Be, Ba, !fill_nil in F.
  exact F.
Qed.

Lemma stt_feeds_without_consumer_witness :
  STT.Stream (inl plain) None stt_params = inl (stt_session plain) /\
  exists w,
    STT.handleMessages (repeat f_end_text 11 ++ [f_text "Hello"; f_step])
                       (stt_session plain) = Ok tt w /\
    let items := STTMore.items_of (repeat f_end_text 11 ++ [f_text "Hello"; f_step]) in
    buf (STTMore.All (STT.stream w)) = firstn 100 items /\
    buf (STTMore.Text (STT.stream w)) = firstn 100 (STTMore.texts_in items) /\
    buf (STTMore.VAD (STT.stream w)) = firstn 100 (STTMore.steps_in items) /\
    buf (STTMore.EndText (STT.stream w)) = firstn 10 (STTMore.end_texts_in items).
Proof.
  split; [reflexivity|].
  apply (stt_feeds_without_consumer frame codec (inl plain) None stt_params
           (stt_session plain) (repeat f_end_text 11 ++ [f_text "Hello"; f_step]));
    reflexivity.
Defined.

(** X7 (STT stream, WaitReady and ReadyInfo): in any session, a
    [WaitReady] that returns without error returns ready info that is not
    nil: the gate is closed without an error only by a Ready envelope,
    which stores the info before closing the gate. *)
Theorem stt_ready_info_present :
  forall (Data : Type) (codec : Codec Data) dial write params w0
         (acts : list (STT.action Data)) w ctx_done prefer_ctx info,
    STT.Stream dial write params = inl w0 ->
    STT.run acts w0 = Ok tt w ->
    STT.WaitReady ctx_done prefer_ctx (STT.stream w) = Returns (info, None) ->
    exists i, info = Some i /\ STTMore.ReadyInfo (STT.stream w) = Some i.
Proof.
  intros Data codec dial write params w0 acts w ctx_done prefer_ctx info Hs E Hw.
  assert (R : STTProps.reachable w).
  { apply (STTFacts.stt_reachable_run acts w0 w); [|exact E].
    eapply STTProps.reach_Stream; eauto. }
  pose proof (STTFacts.stt_reachable_info w R) as Hi.
  unfold STT.WaitReady, STT.getError, STTMore.ReadyInfo in *.
  destruct (closed (STT.ready (STT.stream w))) eqn:C.
  - destruct (STT.err (STT.stream w)) eqn:Er.
    + destruct ctx_done; [destruct prefer_ctx|]; discriminate.
    + destruct (Hi eq_refl eq_refl) as (i & Hi').
      exists i. rewrite Hi' in *.
      destruct ctx_done; [destruct prefer_ctx; [discriminate|]|];
        injection Hw as <-; auto.
  - destruct ctx_done; discriminate.
Qed.

Lemma stt_ready_info_present_witness :
  STT.Stream (inl plain) None stt_params = inl (stt_session plain) /\
  STT.run [STT.Deliver (f_text "Hello"); STT.Deliver (f_ready "req-1")]
          (stt_session plain)
  = Ok tt (stt_after [STT.Deliver (f_text "Hello"); STT.Deliver (f_ready "req-1")]
                     (stt_session plain)) /\
  (let w := stt_after [STT.Deliver (f_text "Hello"); STT.Deliver (f_ready "req-1")]
                      (stt_session plain) in
   STT.WaitReady None false (STT.stream w)
   = Returns (STT.readyInfo (STT.stream w), None) /\
   exists i, STT.readyInfo (STT.stream w) = Some i /\
             STTMore.ReadyInfo (STT.stream w) = Some i).
Proof.
  assert (H1 : STT.Stream (inl plain) None stt_params = inl (stt_session plain))
    by reflexivity.
  assert (H2 : STT.run [STT.Deliver (f_text "Hello"); STT.Deliver (f_ready "req-1")]
                       (stt_session plain)
               = Ok tt (stt_after [STT.Deliver (f_text "Hello");
                                   STT.Deliver (f_ready "req-1")] (stt_session plain)))
    by (vm_compute; reflexivity).
  assert (H3 : STT.WaitReady None false
                 (STT.stream (stt_after [STT.Deliver (f_text "Hello");
                                         STT.Deliver (f_ready "req-1")]
                                        (stt_session plain)))
               = Returns (STT.readyInfo
                            (STT.stream (stt_after [STT.Deliver (f_text "Hello");
                                                    STT.Deliver (f_ready "req-1")]
                                                   (stt_session plain))), None))
    by (vm_compute; reflexivity).
  split; [exact H1|]. split; [exact H2|]. cbv zeta. split; [exact H3|].
  exact (stt_ready_info_present frame codec (inl plain) None stt_params
           (stt_session plain)
           [STT.Deliver (f_text "Hello"); STT.Deliver (f_ready "req-1")]
           _ None false _ H1 H2 H3).
Defined.

(** X8 (STT stream, handleMessages then CollectText): when the reads
    contain one that ends the loop and nobody took from [Text()]
    meanwhile, a [CollectText] called afterwards under a context that is
    never done does not block: it returns the recorded error if the loop
    was ended by a read failure or an Error envelope, and otherwise the
    first 100 decoded texts in wire order with one space between
    neighbours. *)
Theorem stt_transcript_after_the_end :
  forall (Data : Type) (codec : Codec Data) dial write params w0
         (reads : list (ReadResult Data)),
    STT.Stream dial write params = inl w0 ->
    terminated_by (map kind_of reads) = true ->
    exists w, STT.handleMessages reads w0 = Ok tt w /\
      STT.CollectText (STT.selects_of (STT.stream w)) (STT.stream w) =
      match STTMore.first_error reads with
      | Some e => Returns (EmptyString, Some e)
      | None =>
          Returns (spaced (map Text (firstn 100 (STTMore.texts_in
                                                    (STTMore.items_of reads)))), None)
      end.
Proof.
  intros Data codec dial write params w0 reads Hs Ht.
  pose proof (STTFacts.stt_Inv_Stream _ _ _ _ Hs) as H0.
  destruct (stt_Stream_fresh _ _ _ _ Hs) as (D0 & E0 & Bt & Bv & Be & Ba & _).
  rewrite STTFacts.stt_handleMessages_run.
  destruct (STTFacts.stt_run_Inv (map (@STT.Deliver Data) reads) w0 H0) as (w & E & H).
  exists w. split; [exact E|].
  assert (Hd : STTProps.delivered (map (@STT.Deliver Data) reads) = reads).
  { clear. induction reads as [|r rs IH]; simpl; [reflexivity|]. now f_equal. }
  assert (Hrun : returned (STT.dispatcher w0) = false) by now rewrite D0.
  pose proof (STTFacts.stt_run_first_error _ w0 w H0 E) as He.
  pose proof (STTFacts.stt_run_returned _ w0 w H0 E) as Hr.
  destruct (STTFacts.stt_run_fill reads w0 w H0 E Hrun) as (_ & Hb & _).
  unfold STTProps.kinds in Hr.
  rewrite Hd, E0, D0 in *. rewrite Bt in Hb. simpl in He, Hr.
  rewrite Ht in Hr. rewrite fill_nil in Hb.
  destruct (STT.dispatcher w) eqn:D; [discriminate|].
  unfold STTProps.Inv in H. rewrite D in H. destruct H as (_ & _ & (Hc & _) & _).
  unfold STT.selects_of, STT.CollectText. rewrite Hc, Hb.
  rewrite (STTFacts.CollectText_loop_texts _ [] (STT.stream w) []).
  unfold STT.getError. rewrite He. reflexivity.
Qed.

Lemma stt_transcript_after_the_end_witness :
  STT.Stream (inl plain) None stt_params = inl (stt_session plain) /\
  terminated_by (map kind_of [f_text "Hello"; f_step; f_text "world";
                             f_end_of_stream]) = true /\
  exists w,
    STT.handleMessages [f_text "Hello"; f_step; f_text "world"; f_end_of_stream]
                       (stt_session plain) = Ok tt w /\
    STT.CollectText (STT.selects_of (STT.stream w)) (STT.stream w) =
    match STTMore.first_error [f_text "Hello"; f_step; f_text "world";
                               f_end_of_stream] with
    | Some e => Returns (EmptyString, Some e)
    | None =>
        Returns (spaced (map Text
                           (firstn 100
                              (STTMore.texts_in
                                 (STTMore.items_of [f_text "Hello"; f_step;
                                                    f_text "world";
                                                    f_end_of_stream])))), None)
    end.
Proof.
  split; [reflexivity|]. split; [reflexivity|].
  apply (stt_transcript_after_the_end frame codec (inl plain) None stt_params
           (stt_session plain)
           [f_text "Hello"; f_step; f_text "world"; f_end_of_stream]);
    reflexivity.
Defined.

(** * The calls built on the streams: helper lemmas *)

Lemma WriteJSON_cases msg wr :
  (exists why, fst (WriteJSON msg wr) = Some (TransportError why) /\
               sent (snd (WriteJSON msg wr)) = sent wr /\
               outcomes wr = Some why :: outcomes (snd (WriteJSON msg wr))) \/
  (fst (WriteJSON msg wr) = None /\
   sent (snd (WriteJSON msg wr)) = sent wr ++ [msg] /\
   outcomes (snd (WriteJSON msg wr)) = tl (outcomes wr)).
Proof.
  unfold WriteJSON. destruct (outcomes wr) as [|[why|] rest]; simpl; eauto.
Qed.

Section Base64Facts.
Import Wire Base64.

Lemma enc_table :
  forallb (fun k => let n := N.of_nat k in
                    match b64_index (enc n) with
                    | Some m => (m =? n)%N
                    | None => false
                    end && negb (is_pad (enc n)) && negb (is_newline (enc n)))
          (seq 0 64) = true.
Proof. vm_compute. reflexivity. Qed.

Lemma enc_sound n :
  (n < 64)%N ->
  b64_index (enc n) = Some n /\ is_pad (enc n) = false /\ is_newline (enc n) = false.
Proof.
  intros Hn. pose proof enc_table as T. rewrite forallb_forall in T.
  specialize (T (N.to_nat n)). rewrite N2Nat.id in T. cbv zeta in T.
  assert (Hin : In (N.to_nat n) (seq 0 64)) by (apply in_seq; lia).
  apply T in Hin. apply andb_prop in Hin as (Hin & H3). apply andb_prop in Hin as (H1 & H2).
  destruct (b64_index (enc n)) as [m|]; [|discriminate].
  apply N.eqb_eq in H1. subst m.
  repeat split; [now destruct (is_pad _)|now destruct (is_newline _)].
Qed.

Lemma byte_of_to_N a : byte_of (Byte.to_N a) = a.
Proof. destruct a; reflexivity. Qed.

Lemma byte_of_mod n : byte_of (n mod 256) = byte_of n.
Proof. unfold byte_of. now rewrite N.Div0.mod_mod. Qed.

Lemma to_N_lt a : (Byte.to_N a < 256)%N.
Proof. pose proof (Byte.to_N_bounded a). lia. Qed.

Lemma quantum a b c :
  let v := val a b c in
  let x := ((v / 262144) mod 64)%N in
  let y := ((v / 4096) mod 64)%N in
  let z := ((v / 64) mod 64)%N in
  let w := (v mod 64)%N in
  (x < 64 /\ y < 64 /\ z < 64 /\ w < 64)%N /\
  byte_of (x * 4 + y / 16) = a /\
  byte_of (y * 16 + z / 4) = b /\
  byte_of (z * 64 + w) = c.
Proof.
  intros v x y z w. subst x y z w v. unfold val.
  pose proof (to_N_lt a). pose proof (to_N_lt b). pose proof (to_N_lt c).
  split; [repeat split; apply N.mod_lt; discriminate|].
  assert (E : forall n x, (n mod 256 = Byte.to_N x)%N -> byte_of n = x).
  { intros n x Hx. rewrite <- byte_of_mod, Hx. apply byte_of_to_N. }
  repeat split; apply E; zify; Z.to_euclidean_division_equations; lia.
Qed.


Lemma is_pad_eq : is_pad "="%char = true.
Proof. reflexivity. Qed.

Lemma Encode_quanta n : forall src,
  List.length src < n ->
  b64_quanta (Encode src) = Some src /\
  forallb (fun c => negb (is_newline c)) (Encode src) = true /\
  List.length (Encode src) = 4 * ((List.length src + 2) / 3).
Proof.
  induction n as [|n IH]; intros src Hn; [lia|].
  destruct src as [|a [|b [|c rest]]].
  - repeat split.
  - destruct (quantum a x00 x00) as ((Hx & Hy & _ & _) & Ha & _ & _).
    cbv zeta in *.
    destruct (enc_sound _ Hx) as (Ix & _ & Nx).
    destruct (enc_sound _ Hy) as (Iy & _ & Ny).
    cbn [Encode b64_quanta forallb]. cbv zeta.
    rewrite Ix, Iy, Nx, Ny, is_pad_eq. cbn [andb negb]. rewrite Ha.
    repeat split.
  - destruct (quantum a b x00) as ((Hx & Hy & Hz & _) & Ha & Hb & _).
    cbv zeta in *.
    destruct (enc_sound _ Hx) as (Ix & _ & Nx).
    destruct (enc_sound _ Hy) as (Iy & _ & Ny).
    destruct (enc_sound _ Hz) as (Iz & Pz & Nz).
    cbn [Encode b64_quanta forallb]. cbv zeta.
    rewrite Ix, Iy, Iz, Pz, Nx, Ny, Nz, is_pad_eq. cbn [andb negb]. rewrite Ha, Hb.
    repeat split.
  - destruct (quantum a b c) as ((Hx & Hy & Hz & Hw) & Ha & Hb & Hc).
    cbv zeta in *.
    destruct (enc_sound _ Hx) as (Ix & _ & Nx).
    destruct (enc_sound _ Hy) as (Iy & _ & Ny).
    destruct (enc_sound _ Hz) as (Iz & Pz & Nz).
    destruct (enc_sound _ Hw) as (Iw & Pw & Nw).
    destruct (IH rest) as (Q & F & L); [simpl in Hn; lia|].
    cbn [Encode b64_quanta forallb]. cbv zeta.
    rewrite Ix, Iy, Iz, Iw, Pz, Pw, Nx, Ny, Nz, Nw, Q, F. cbn [andb negb].
    rewrite Ha, Hb, Hc. repeat split.
    cbn [List.length]. rewrite L.
    replace (S (S (S (List.length rest))) + 2) with (1 * 3 + (List.length rest + 2)) by lia.
    rewrite Nat.div_add_l by discriminate. lia.
Qed.

Lemma filter_all (A : Type) (f : A -> bool) (l : list A) :
  forallb f l = true -> filter f l = l.
Proof.
  induction l as [|x l IH]; simpl; [reflexivity|].
  intros H. apply andb_prop in H as (Hx & Hl). rewrite Hx. f_equal. auto.
Qed.

Lemma Base64_round_trip :
  forall src : bytes,
    DecodeString (EncodeToString src) = Some src /\
    String.length (EncodeToString src) = 4 * ((List.length src + 2) / 3).
Proof.
  intros src.
  destruct (Encode_quanta (S (List.length src)) src (Nat.lt_succ_diag_r _)) as (Q & F & L).
  unfold DecodeString, EncodeToString.
  rewrite list_ascii_of_string_of_list_ascii, (filter_all _ _ _ F).
  split; [exact Q|].
  rewrite <- L. clear. induction (Encode src) as [|c l IH]; simpl; congruence.
Qed.

End Base64Facts.

Section ChunkFacts.
Import STTMore.

(** The loop of [Transcribe] from index [i] on: what it writes. *)
Lemma send_chunks_from audio i wr :
  exists cs,
    sent (snd (send_chunks audio i wr))
    = sent wr ++ map (fun c => OutAudio {| sam_Type := "audio";
                                           sam_Audio := Base64.EncodeToString c |}) cs /\
    Forall (fun c => 1 <= List.length c <= chunkSize) cs /\
    (forall k, S k < List.length cs -> List.length (nth k cs []) = chunkSize) /\
    (List.length audio <= i -> cs = []) /\
    match fst (send_chunks audio i wr) with
    | None => List.concat cs = skipn i audio
    | Some _ =>
        i + List.length cs * chunkSize < List.length audio /\
        List.concat cs = firstn (List.length cs * chunkSize) (skipn i audio)
    end.
Proof.
  funelim (send_chunks audio i wr).
  - exists []. simpl. rewrite app_nil_r.
    repeat split; auto; try (intros; simpl in *; lia).
    rewrite skipn_all2 by lia. reflexivity.
  - exists []. simpl. rewrite app_nil_r.
    unfold SendAudio in Heq. cbv zeta in Heq.
    match type of Heq with
    | WriteJSON ?m wr = _ =>
        destruct (WriteJSON_cases m wr) as [(why & F & S & _)|(F & _)];
          rewrite Heq in *; cbn [fst snd] in *; [|discriminate]
    end.
    repeat split; auto; try (intros; simpl in *; lia).
  - destruct H as (cs & Hs & Hf & Hk & Hn & Hc).
    set (c := slice audio i _) in *.
    assert (Lc : List.length c = Nat.min chunkSize (List.length audio - i)).
    { unfold c, slice. rewrite length_firstn, length_skipn.
      destruct (Nat.ltb_spec (List.length audio) (i + chunkSize)); lia. }
    assert (Cs : 0 < chunkSize) by (unfold chunkSize; lia).
    exists (c :: cs).
    unfold SendAudio in Heq. cbv zeta in Heq.
    match type of Heq with
    | WriteJSON ?m wr = _ =>
        destruct (WriteJSON_cases m wr) as [(why & F & _)|(_ & S & _)];
          rewrite Heq in *; cbn [fst snd] in *; [discriminate|]
    end.
    rewrite Hs, S, <- app_assoc. cbn [map app List.length List.concat fst snd].
    split; [reflexivity|].
    split; [constructor; [lia|exact Hf]|].
    split.
    { intros [|k] Hlen.
      - destruct cs as [|c' cs']; [simpl in Hlen; lia|].
        assert (~ List.length audio <= i + chunkSize)
          by (intros Hle; specialize (Hn Hle); discriminate).
        cbn [nth]. lia.
      - cbn [nth]. apply Hk. cbn [List.length] in Hlen. lia. }
    split; [intros; lia|].
    assert (Split : forall m, i + chunkSize <= List.length audio ->
              c ++ firstn m (skipn (i + chunkSize) audio)
              = firstn (chunkSize + m) (skipn i audio)).
    { intros m Hle. unfold c, slice.
      destruct (Nat.ltb_spec (List.length audio) (i + chunkSize)); [lia|].
      replace (i + chunkSize - i) with chunkSize by lia.
      rewrite (Nat.add_comm i chunkSize), <- skipn_skipn.
      rewrite <- (firstn_skipn chunkSize (skipn i audio)) at 3.
      rewrite firstn_app, length_firstn, length_skipn.
      replace (chunkSize + m - Nat.min chunkSize (List.length audio - i)) with m by lia.
      rewrite firstn_firstn.
      replace (Nat.min (chunkSize + m) chunkSize) with chunkSize by lia.
      reflexivity. }
    destruct (fst (send_chunks audio (i + chunkSize) wr')).
    + destruct Hc as (Hlt & Hc). cbn [List.length Nat.mul]. split; [lia|].
      rewrite Hc. apply Split. lia.
    + rewrite Hc. unfold c, slice.
      destruct (Nat.ltb_spec (List.length audio) (i + chunkSize)).
      * rewrite (@skipn_all2 _ (i + chunkSize) audio) by lia. rewrite app_nil_r.
        rewrite firstn_all2; [reflexivity|]. rewrite length_skipn. lia.
      * replace (i + chunkSize - i) with chunkSize by lia.
        rewrite (Nat.add_comm i chunkSize), <- skipn_skipn.
        apply firstn_skipn.
Qed.

End ChunkFacts.

Section CreateFacts.
Context {Data : Type} {codec : Codec Data}.
Import TTS TTSProps TTSMore.

Lemma tts_close_calls_reads (reads : list (ReadResult Data)) :
  close_calls (map (@Deliver Data) reads) = 0.
Proof. induction reads as [|r rs IH]; [reflexivity|exact IH]. Qed.

(** The dispatcher's reads leave the connection alone. *)
Lemma tts_reads_keep_conn (reads : list (ReadResult Data)) w :
  Inv w ->
  exists w', handleMessages reads w = Ok tt w' /\ Inv w' /\
    closeOnce (stream w') = closeOnce (stream w) /\
    closeCalls (conn (stream w')) = closeCalls (conn (stream w)).
Proof.
  intros H. rewrite TTSFacts.tts_handleMessages_run.
  destruct (TTSFacts.tts_run_Inv (map (@Deliver Data) reads) w H) as (w' & E & H').
  exists w'. split; [exact E|]. split; [exact H'|].
  destruct (TTSFacts.tts_run_close _ w w' H E) as (_ & Ho & Hc & _).
  rewrite tts_close_calls_reads in Ho, Hc. simpl in Ho, Hc.
  rewrite orb_false_r in Ho. split; [exact Ho|].
  destruct (closeOnce (stream w)); lia.
Qed.

Lemma tts_leave (A : Type) (r : A) w wr :
  Inv w -> closeOnce (stream w) = false ->
  exists w', leave r w wr = Returns (r, Some w', wr) /\
    closeOnce (stream w') = true /\
    closeCalls (conn (stream w')) = S (closeCalls (conn (stream w))).
Proof.
  intros H Ho. unfold leave.
  destruct (TTSFacts.tts_run_Inv [@CallClose Data] w H) as (w' & E & _).
  destruct (TTSFacts.tts_run_close _ w w' H E) as (_ & Ho' & Hc & _).
  apply TTSFacts.tts_run_cons in E as (w1 & E1 & E').
  injection E' as <-. rewrite E1. exists w1. split; [reflexivity|].
  rewrite Ho in *. simpl in Ho', Hc. split; [exact Ho'|lia].
Qed.

Lemma Collect_loop_shape sel : forall acc total s,
  total = List.length (List.concat acc) ->
  Collect_loop sel acc total s = Blocked \/
  (exists e, Collect_loop sel acc total s = Returns (None, Some e)) \/
  (exists res, Collect_loop sel acc total s = Returns (Some res, None) /\
               SampleRate res = 48000%Z /\ getError s = None).
Proof.
  induction sel as [|x sel IH]; intros acc total s Ht; simpl; [auto|].
  destruct x as [chunk| |e].
  - apply IH. rewrite concat_app, length_app. simpl. rewrite app_nil_r. lia.
  - destruct (getError s) as [e|]; [right; left; eauto|].
    pose proof (TTSFacts.combine_chunks_concat acc [] (repeat x00 total)) as C.
    simpl in C. rewrite C by (rewrite repeat_length; exact Ht).
    right; right. eexists. split; [reflexivity|]. auto.
  - right; left; eauto.
Qed.

Lemma Collect_shape sel s :
  Collect sel s = Blocked \/
  (exists e, Collect sel s = Returns (None, Some e)) \/
  (exists res, Collect sel s = Returns (Some res, None) /\
               SampleRate res = 48000%Z /\ getError s = None).
Proof. unfold Collect. exact (Collect_loop_shape sel [] 0 s eq_refl). Qed.

Lemma WaitReady_shape ctx_done prefer_ctx s :
  WaitReady ctx_done prefer_ctx s = Blocked \/
  exists r, WaitReady ctx_done prefer_ctx s = Returns r.
Proof.
  unfold WaitReady.
  destruct (closed (ready s)), ctx_done as [e|]; try destruct prefer_ctx; eauto.
Qed.

Lemma tts_Create_cases dial write params w0 before ctx_done prefer_ctx wr after sel :
  Stream dial write params = inl w0 ->
  let r := Create dial write params before ctx_done prefer_ctx wr after sel in
  r = Blocked \/
  exists out w wr',
    r = Returns (out, Some w, wr') /\
    closeOnce (stream w) = true /\
    closeCalls (conn (stream w)) = S (closeCalls (conn (stream w0))) /\
    ((exists e, out = (None, Some e) /\ wr' = wr) \/
     (exists why, out = (None, Some (TransportError why)) /\ sent wr' = sent wr) \/
     (exists why, out = (None, Some (TransportError why)) /\
                  sent wr' = sent wr ++ [text_msg (tp_Text params)]) \/
     (sent wr' = sent wr ++ [text_msg (tp_Text params); eos_msg] /\
      ((exists e, out = (None, Some e)) \/
       (exists res, out = (Some res, None) /\ SampleRate res = 48000%Z)))).
Proof.
  intros Hs r. subst r. unfold Create. rewrite Hs.
  pose proof (TTSFacts.tts_Inv_Stream _ _ _ _ Hs) as H0.
  assert (O0 : closeOnce (stream w0) = false).
  { unfold Stream in Hs. destruct dial; [|discriminate].
    destruct write; [discriminate|]. now injection Hs as <-. }
  destruct (tts_reads_keep_conn before w0 H0) as (w1 & E1 & H1 & O1 & C1).
  rewrite E1. rewrite O0 in O1.
  destruct (WaitReady_shape ctx_done prefer_ctx (stream w1)) as [W|([e|] & W)];
    rewrite W; [left; reflexivity| |].
  { destruct (tts_leave _ (@None TTSResult, Some e) w1 wr H1 O1) as (w' & L & Lo & Lc).
    right. exists (None, Some e), w', wr. rewrite L, Lc, C1. eauto 10. }
  unfold SendText.
  destruct (WriteJSON_cases (text_msg (tp_Text params)) wr) as [(why & F & S & _)|(F & S & _)];
    unfold text_msg in *;
    destruct (WriteJSON _ wr) as [e1 wr1]; cbn [fst snd] in F, S; subst e1.
  { destruct (tts_leave _ (@None TTSResult, Some (TransportError why)) w1 wr1 H1 O1)
      as (w' & L & Lo & Lc).
    right. exists (None, Some (TransportError why)), w', wr1.
    rewrite L, Lc, C1. eauto 10. }
  unfold SendEndOfStream.
  destruct (WriteJSON_cases eos_msg wr1) as [(why & F2 & S2 & _)|(F2 & S2 & _)];
    unfold eos_msg in *;
    destruct (WriteJSON _ wr1) as [e2 wr2]; cbn [fst snd] in F2, S2; subst e2.
  { destruct (tts_leave _ (@None TTSResult, Some (TransportError why)) w1 wr2 H1 O1)
      as (w' & L & Lo & Lc).
    right. exists (None, Some (TransportError why)), w', wr2.
    rewrite L, Lc, C1, S2, S. eauto 10. }
  destruct (tts_reads_keep_conn after w1 H1) as (w2 & E2 & H2 & O2 & C2).
  rewrite E2. rewrite O1 in O2.
  assert (Sw : sent wr2
               = sent wr ++ [OutText {| ttm_Type := "text"; ttm_Text := tp_Text params |};
                             OutMessage {| Type_ := msgTypeEndOfStream |}]).
  { rewrite S2, S, <- app_assoc. reflexivity. }
  destruct (Collect_shape sel (stream w2))
    as [B|[(e & B)|(res & B & Hr & _)]]; rewrite B; [left; reflexivity| |].
  - destruct (tts_leave _ (@None TTSResult, Some e) w2 wr2 H2 O2) as (w' & L & Lo & Lc).
    right. exists (None, Some e), w', wr2. rewrite L, Lc, C2, C1.
    split; [reflexivity|]. split; [exact Lo|]. split; [reflexivity|].
    right; right; right. split; [exact Sw|]. left. eauto.
  - destruct (tts_leave _ (Some res, @None error) w2 wr2 H2 O2) as (w' & L & Lo & Lc).
    right. exists (Some res, None), w', wr2. rewrite L, Lc, C2, C1.
    split; [reflexivity|]. split; [exact Lo|]. split; [reflexivity|].
    right; right; right. split; [exact Sw|]. right. eauto.
Qed.

End CreateFacts.

Section TranscribeFacts.
Context {Data : Type} {codec : Codec Data}.
Import STT STTProps STTMore.

Lemma stt_close_calls_reads (reads : list (ReadResult Data)) :
  close_calls (map (@Deliver Data) reads) = 0.
Proof. induction reads as [|r rs IH]; [reflexivity|exact IH]. Qed.

Lemma stt_reads_keep_conn (reads : list (ReadResult Data)) w :
  Inv w ->
  exists w', handleMessages reads w = Ok tt w' /\ Inv w' /\
    closeOnce (stream w') = closeOnce (stream w) /\
    closeCalls (conn (stream w')) = closeCalls (conn (stream w)).
Proof.
  intros H. rewrite STTFacts.stt_handleMessages_run.
  destruct (STTFacts.stt_run_Inv (map (@Deliver Data) reads) w H) as (w' & E & H').
  exists w'. split; [exact E|]. split; [exact H'|].
  destruct (STTFacts.stt_run_close _ w w' H E) as (_ & Ho & Hc & _).
  rewrite stt_close_calls_reads in Ho, Hc. simpl in Ho, Hc.
  rewrite orb_false_r in Ho. split; [exact Ho|].
  destruct (closeOnce (stream w)); lia.
Qed.

Lemma stt_leave (A : Type) (r : A) w wr :
  Inv w -> closeOnce (stream w) = false ->
  exists w', leave r w wr = Returns (r, Some w', wr) /\
    closeOnce (stream w') = true /\
    closeCalls (conn (stream w')) = S (closeCalls (conn (stream w))).
Proof.
  intros H Ho. unfold leave.
  destruct (STTFacts.stt_run_Inv [@CallClose Data] w H) as (w' & E & _).
  destruct (STTFacts.stt_run_close _ w w' H E) as (_ & Ho' & Hc & _).
  apply STTFacts.stt_run_cons in E as (w1 & E1 & E').
  injection E' as <-. rewrite E1. exists w1. split; [reflexivity|].
  rewrite Ho in *. simpl in Ho', Hc. split; [exact Ho'|lia].
Qed.

Lemma CollectText_loop_shape sel : forall acc s,
  CollectText_loop sel acc s = Blocked \/
  (exists e, CollectText_loop sel acc s = Returns (EmptyString, Some e)) \/
  (exists text, CollectText_loop sel acc s = Returns (text, None) /\ getError s = None).
Proof.
  induction sel as [|x sel IH]; intros acc s; simpl; [auto|].
  destruct x as [text| |e].
  - apply IH.
  - destruct (getError s) as [e|]; [right; left; eauto|].
    right; right. eauto.
  - right; left; eauto.
Qed.

Lemma CollectText_shape sel s :
  CollectText sel s = Blocked \/
  (exists e, CollectText sel s = Returns (EmptyString, Some e)) \/
  (exists text, CollectText sel s = Returns (text, None) /\ getError s = None).
Proof. unfold CollectText. apply CollectText_loop_shape. Qed.

Lemma stt_WaitReady_shape ctx_done prefer_ctx s :
  WaitReady ctx_done prefer_ctx s = Blocked \/
  (exists e, WaitReady ctx_done prefer_ctx s = Returns (None, Some e)) \/
  (exists info, WaitReady ctx_done prefer_ctx s = Returns (info, None)).
Proof.
  unfold WaitReady.
  destruct (closed (ready s)), ctx_done as [e|]; try destruct prefer_ctx;
    try destruct (getError s); eauto.
Qed.

Lemma stt_Transcribe_cases dial write params audio w0 before ctx_done prefer_ctx wr
      after sel :
  Stream dial write params = inl w0 ->
  let r := Transcribe dial write params audio before ctx_done prefer_ctx wr after sel in
  let wr1 := snd (send_chunks audio 0 wr) in
  r = Blocked \/
  exists out w wr',
    r = Returns (out, Some w, wr') /\
    closeOnce (stream w) = true /\
    closeCalls (conn (stream w)) = S (closeCalls (conn (stream w0))) /\
    ((exists e, out = (EmptyString, Some e) /\ wr' = wr) \/
     (exists e, out = (EmptyString, Some e) /\ wr' = wr1 /\
                fst (send_chunks audio 0 wr) = Some e) \/
     (exists why, out = (EmptyString, Some (TransportError why)) /\
                  sent wr' = sent wr1 /\ fst (send_chunks audio 0 wr) = None) \/
     (sent wr' = sent wr1 ++ [OutMessage {| Type_ := msgTypeEndOfStream |}] /\
      fst (send_chunks audio 0 wr) = None /\
      ((exists e, out = (EmptyString, Some e)) \/ (exists text, out = (text, None))))).
Proof.
  intros Hs r wr1. subst r wr1. unfold Transcribe. rewrite Hs.
  pose proof (STTFacts.stt_Inv_Stream _ _ _ _ Hs) as H0.
  assert (O0 : closeOnce (stream w0) = false).
  { unfold Stream in Hs. destruct dial; [|discriminate].
    destruct write; [discriminate|]. now injection Hs as <-. }
  destruct (stt_reads_keep_conn before w0 H0) as (w1 & E1 & H1 & O1 & C1).
  rewrite E1. rewrite O0 in O1.
  destruct (stt_WaitReady_shape ctx_done prefer_ctx (stream w1)) as [W|[(e & W)|(info & W)]];
    rewrite W; [left; reflexivity| |].
  { destruct (stt_leave _ (EmptyString, Some e) w1 wr H1 O1) as (w' & L & Lo & Lc).
    right. exists (EmptyString, Some e), w', wr. rewrite L, Lc, C1. eauto 10. }
  destruct (send_chunks audio 0 wr) as [[e|] wr1]; cbn [fst snd].
  { destruct (stt_leave _ (EmptyString, Some e) w1 wr1 H1 O1) as (w' & L & Lo & Lc).
    right. exists (EmptyString, Some e), w', wr1. rewrite L, Lc, C1.
    split; [reflexivity|]. split; [exact Lo|]. split; [reflexivity|].
    right; left. eauto. }
  unfold SendEndOfStream.
  destruct (WriteJSON_cases (OutMessage {| Type_ := msgTypeEndOfStream |}) wr1)
    as [(why & F2 & S2 & _)|(F2 & S2 & _)];
    destruct (WriteJSON _ wr1) as [e2 wr2]; cbn [fst snd] in F2, S2; subst e2.
  { destruct (stt_leave _ (EmptyString, Some (TransportError why)) w1 wr2 H1 O1)
      as (w' & L & Lo & Lc).
    right. exists (EmptyString, Some (TransportError why)), w', wr2.
    rewrite L, Lc, C1.
    split; [reflexivity|]. split; [exact Lo|]. split; [reflexivity|].
    right; right; left. eauto. }
  destruct (stt_reads_keep_conn after w1 H1) as (w2 & E2 & H2 & O2 & C2).
  rewrite E2. rewrite O1 in O2.
  destruct (CollectText_shape sel (stream w2)) as [B|[(e & B)|(text & B & _)]];
    rewrite B; [left; reflexivity| |].
  - destruct (stt_leave _ (EmptyString, Some e) w2 wr2 H2 O2) as (w' & L & Lo & Lc).
    right. exists (EmptyString, Some e), w', wr2. rewrite L, Lc, C2, C1.
    split; [reflexivity|]. split; [exact Lo|]. split; [reflexivity|].
    right; right; right. split; [exact S2|]. split; [reflexivity|]. left. eauto.
  - destruct (stt_leave _ (text, @None error) w2 wr2 H2 O2) as (w' & L & Lo & Lc).
    right. exists (text, None), w', wr2. rewrite L, Lc, C2, C1.
    split; [reflexivity|]. split; [exact Lo|]. split; [reflexivity|].
    right; right; right. split; [exact S2|]. split; [reflexivity|]. right. eauto.
Qed.

End TranscribeFacts.

(** * Create, Transcribe and the audio they carry *)

Section CallFacts.

Lemma concat_chunks_length (n : nat) (cs : list bytes) :
  Forall (fun c => 1 <= List.length c <= n) cs ->
  (forall k, S k < List.length cs -> List.length (nth k cs []) = n) ->
  cs <> [] ->
  exists last, 1 <= last <= n /\
    List.length (List.concat cs) = (List.length cs - 1) * n + last.
Proof.
  induction cs as [|c cs IH]; intros Hf Hk Hne; [congruence|].
  inversion Hf as [|? ? Hc Hf']; subst.
  destruct cs as [|c' cs'].
  - exists (List.length c). simpl. rewrite app_nil_r. lia.
  - destruct IH as (last & Hl & E); [exact Hf'| |discriminate|].
    + intros k Hlt. apply (Hk (S k)). simpl in *. lia.
    + exists last. split; [exact Hl|].
      assert (Hc0 : List.length c = n) by (apply (Hk 0); simpl; lia).
      change (List.concat (c :: c' :: cs')) with (c ++ List.concat (c' :: cs')).
      rewrite length_app, E, Hc0. cbn [List.length]. lia.
Qed.

Lemma chunk_count (n len count last : nat) :
  1 <= last <= n -> 1 <= count -> len = (count - 1) * n + last ->
  (len + (n - 1)) / n = count.
Proof.
  intros Hl Hc ->. symmetry.
  apply (Nat.div_unique _ n count (last - 1)); [lia|]. nia.
Qed.

End CallFacts.

(** X9 (STT service, Transcribe): the loop that sends the audio cuts it
    at every 3840 bytes: the chunks written are all of 3840 bytes but
    possibly the last, none is empty, and they are written in order; when
    no write fails they add up to the audio, in ceil(len / 3840) messages
    (none for empty audio); when a write fails the loop stops there, with
    only full chunks written, which are a strict prefix of the audio. *)
Theorem stt_transcribe_chunks :
  forall (audio : bytes) (wr : Writer),
    exists cs : list bytes,
      sent (snd (STTMore.send_chunks audio 0 wr)) = sent wr ++ map audio_msg cs /\
      Forall (fun c => 1 <= List.length c <= 3840) cs /\
      (forall k, S k < List.length cs -> List.length (nth k cs []) = 3840) /\
      match fst (STTMore.send_chunks audio 0 wr) with
      | None => List.concat cs = audio /\
                List.length cs = (List.length audio + 3839) / 3840
      | Some _ => List.length cs * 3840 < List.length audio /\
                  List.concat cs = firstn (List.length cs * 3840) audio
      end.
Proof.
  intros audio wr.
  destruct (send_chunks_from audio 0 wr) as (cs & Hs & Hf & Hk & Hn & Hc).
  assert (C : STTMore.chunkSize = 3840) by reflexivity.
  rewrite C in *.
  exists cs. split; [exact Hs|]. split; [exact Hf|]. split; [exact Hk|].
  destruct (fst (STTMore.send_chunks audio 0 wr)).
  - exact Hc.
  - cbn [skipn] in Hc. split; [exact Hc|].
    destruct cs as [|c cs'].
    + simpl in Hc. rewrite <- Hc. reflexivity.
    + destruct (concat_chunks_length 3840 (c :: cs') Hf Hk) as (last & Hl & E);
        [discriminate|].
      rewrite Hc in E. symmetry.
      apply (chunk_count 3840 _ (List.length (c :: cs')) last Hl);
        [simpl; lia|exact E].
Qed.

(** X10 (tts.go, Create): once [Stream] has succeeded, [Create] never
    panics, and on every path on which it returns (WaitReady failed, a
    write failed, Collect returned an error or the audio) the deferred
    [stream.Close()] has closed the connection, exactly once; it never
    returns neither a result nor an error. *)
Theorem tts_create_lifecycle :
  forall (Data : Type) (codec : Codec Data) dial write params w0
         (before : list (ReadResult Data)) ctx_done prefer_ctx wr
         (after : list (ReadResult Data)) sel,
    TTS.Stream dial write params = inl w0 ->
    let r := TTSMore.Create dial write params before ctx_done prefer_ctx wr after sel in
    (forall why, r <> Panics why) /\
    (forall out ow wr', r = Returns (out, ow, wr') ->
       out <> (None, None) /\
       exists w, ow = Some w /\
         TTS.closeOnce (TTS.stream w) = true /\
         closeCalls (TTS.conn (TTS.stream w))
         = S (closeCalls (TTS.conn (TTS.stream w0)))).
Proof.
  intros Data codec dial write params w0 before ctx_done prefer_ctx wr after sel Hs.
  destruct (tts_Create_cases dial write params w0 before ctx_done prefer_ctx wr after sel Hs)
    as [B|(out & w & wr' & R & Ho & Hc & Hcases)]; cbv zeta; rewrite ?B, ?R.
  - split; [discriminate|]. intros; discriminate.
  - split; [discriminate|]. intros out' ow wr'' E. injection E as <- <- <-.
    split; [|eauto].
    destruct Hcases as [(e & -> & _)|[(why & -> & _)|[(why & -> & _)
                       |(_ & [(e & ->)|(res & -> & _)])]]]; discriminate.
Qed.

Lemma tts_create_lifecycle_witness :
  TTS.Stream (inl plain) None (tts_params FormatPCM) = inl (tts_session plain) /\
  (let r := TTSMore.Create (inl plain) None (tts_params FormatPCM)
              [f_ready "req-1"] None false (mkWriter [] [])
              [f_audio "YWI="; f_end_of_stream]
              [TTS.GotChunk (list_byte_of_string "ab"); TTS.GotClosed] in
   (forall why, r <> Panics why) /\
   (forall out ow wr', r = Returns (out, ow, wr') ->
      out <> (None, None) /\
      exists w, ow = Some w /\
        TTS.closeOnce (TTS.stream w) = true /\
        closeCalls (TTS.conn (TTS.stream w))
        = S (closeCalls (TTS.conn (TTS.stream (tts_session plain)))))).
Proof.
  split; [reflexivity|].
  apply (tts_create_lifecycle frame codec (inl plain) None (tts_params FormatPCM)
           (tts_session plain) [f_ready "req-1"] None false (mkWriter [] [])
           [f_audio "YWI="; f_end_of_stream]
           [TTS.GotChunk (list_byte_of_string "ab"); TTS.GotClosed]); reflexivity.
Defined.

(** X11 (tts.go, Create, SendText, SendEndOfStream): what [Create] has
    written when it returns is a prefix of: the text, then the end of
    stream; nothing if WaitReady failed, and when it returns a result both
    have been written, in that order, the error is nil and the sample
    rate is 48000. *)
Theorem tts_create_protocol :
  forall (Data : Type) (codec : Codec Data) dial write params w0
         (before : list (ReadResult Data)) ctx_done prefer_ctx wr
         (after : list (ReadResult Data)) sel out ow wr',
    TTS.Stream dial write params = inl w0 ->
    TTSMore.Create dial write params before ctx_done prefer_ctx wr after sel
    = Returns (out, ow, wr') ->
    (exists k, sent wr' = sent wr ++ firstn k [text_msg (tp_Text params); eos_msg]) /\
    (forall res, fst out = Some res ->
       snd out = None /\ SampleRate res = 48000%Z /\
       sent wr' = sent wr ++ [text_msg (tp_Text params); eos_msg]).
Proof.
  intros Data codec dial write params w0 before ctx_done prefer_ctx wr after sel
         out ow wr' Hs E.
  destruct (tts_Create_cases dial write params w0 before ctx_done prefer_ctx wr after sel Hs)
    as [B|(out1 & w & wr1 & R & _ & _ & Hcases)]; cbv zeta in *;
    [rewrite B in E; discriminate|].
  rewrite R in E. injection E as <- <- <-.
  destruct Hcases as [(e & -> & ->)|[(why & -> & S)|[(why & -> & S)
                     |(S & [(e & ->)|(res & -> & Hr)])]]].
  - split; [exists 0; simpl; now rewrite app_nil_r|]. intros res H; discriminate.
  - split; [exists 0; simpl; now rewrite app_nil_r|]. intros res H; discriminate.
  - split; [exists 1; exact S|]. intros res H; discriminate.
  - split; [exists 2; exact S|]. intros res H; discriminate.
  - split; [exists 2; exact S|]. intros res' H. injection H as <-. auto.
Qed.

Lemma tts_create_protocol_witness :
  TTS.Stream (inl plain) None (tts_params FormatPCM) = inl (tts_session plain) /\
  (exists out ow wr',
     TTSMore.Create (inl plain) None (tts_params FormatPCM)
       [f_ready "req-1"] None false (mkWriter [] [])
       [f_audio "YWI="; f_end_of_stream]
       [TTS.GotChunk (list_byte_of_string "ab"); TTS.GotClosed]
     = Returns (out, ow, wr') /\
     (exists k, sent wr' = sent (mkWriter [] [])
                           ++ firstn k [text_msg (tp_Text (tts_params FormatPCM)); eos_msg]) /\
     (forall res, fst out = Some res ->
        snd out = None /\ SampleRate res = 48000%Z /\
        sent wr' = sent (mkWriter [] [])
                   ++ [text_msg (tp_Text (tts_params FormatPCM)); eos_msg])).
Proof.
  split; [reflexivity|].
  eexists _, _, _. split; [vm_compute; reflexivity|].
  eapply (tts_create_protocol frame codec (inl plain) None (tts_params FormatPCM)
            (tts_session plain) [f_ready "req-1"] None false (mkWriter [] [])
            [f_audio "YWI="; f_end_of_stream]
            [TTS.GotChunk (list_byte_of_string "ab"); TTS.GotClosed]);
    [reflexivity|lazy; reflexivity].
Defined.



(** X13 (STT service, Transcribe): once [Stream] has succeeded,
    [Transcribe] never panics, and on every path on which it returns the
    deferred [stream.Close()] has closed the connection, exactly once;
    when it returns an error the transcript is empty. *)
Theorem stt_transcribe_lifecycle :
  forall (Data : Type) (codec : Codec Data) dial write params audio w0
         (before : list (ReadResult Data)) ctx_done prefer_ctx wr
         (after : list (ReadResult Data)) sel,
    STT.Stream dial write params = inl w0 ->
    let r := STTMore.Transcribe dial write params audio before ctx_done prefer_ctx wr
                                after sel in
    (forall why, r <> Panics why) /\
    (forall out ow wr', r = Returns (out, ow, wr') ->
       (snd out <> None -> fst out = EmptyString) /\
       exists w, ow = Some w /\
         STT.closeOnce (STT.stream w) = true /\
         closeCalls (STT.conn (STT.stream w))
         = S (closeCalls (STT.conn (STT.stream w0)))).
Proof.
  intros Data codec dial write params audio w0 before ctx_done prefer_ctx wr after sel Hs.
  destruct (stt_Transcribe_cases dial write params audio w0 before ctx_done prefer_ctx
                                 wr after sel Hs)
    as [B|(out & w & wr' & R & Ho & Hc & Hcases)]; cbv zeta in *; rewrite ?B, ?R.
  - split; [discriminate|]. intros; discriminate.
  - split; [discriminate|]. intros out' ow wr'' E. injection E as <- <- <-.
    split; [|eauto].
    destruct Hcases as [(e & -> & _)|[(e & -> & _)|[(why & -> & _)
                       |(_ & _ & [(e & ->)|(text & ->)])]]]; simpl; congruence.
Qed.

Lemma stt_transcribe_lifecycle_witness :
  STT.Stream (inl plain) None stt_params = inl (stt_session plain) /\
  (let r := STTMore.Transcribe (inl plain) None stt_params (list_byte_of_string "abcdef")
              [f_ready "req-1"] None false (mkWriter [] [])
              [f_text "Hello"; f_end_of_stream]
              [STT.GotText {| Text := "Hello"; StartS := float64_zero; StreamID := None |};
               STT.GotClosed] in
   (forall why, r <> Panics why) /\
   (forall out ow wr', r = Returns (out, ow, wr') ->
      (snd out <> None -> fst out = EmptyString) /\
      exists w, ow = Some w /\
        STT.closeOnce (STT.stream w) = true /\
        closeCalls (STT.conn (STT.stream w))
        = S (closeCalls (STT.conn (STT.stream (stt_session plain)))))).
Proof.
  split; [reflexivity|].
  apply (stt_transcribe_lifecycle frame codec (inl plain) None stt_params
           (list_byte_of_string "abcdef") (stt_session plain)
           [f_ready "req-1"] None false (mkWriter [] [])
           [f_text "Hello"; f_end_of_stream]
           [STT.GotText {| Text := "Hello"; StartS := float64_zero; StreamID := None |};
            STT.GotClosed]); reflexivity.
Defined.

(** X14 (STT service, Transcribe, SendAudio, SendEndOfStream): what
    [Transcribe] has written when it returns is audio messages, whose
    decoded payloads are in order a prefix of the audio, each of at most
    3840 bytes, followed or not by the end of stream; nothing if
    WaitReady failed; and when it returns without error the payloads add
    up to the whole audio and the end of stream has been written after
    them. *)
Theorem stt_transcribe_protocol :
  forall (Data : Type) (codec : Codec Data) dial write params audio w0
         (before : list (ReadResult Data)) ctx_done prefer_ctx wr
         (after : list (ReadResult Data)) sel out ow wr',
    STT.Stream dial write params = inl w0 ->
    STTMore.Transcribe dial write params audio before ctx_done prefer_ctx wr after sel
    = Returns (out, ow, wr') ->
    exists (cs : list bytes) (rest : bytes) (tail : list outbound),
      sent wr' = sent wr ++ map audio_msg cs ++ tail /\
      (tail = [] \/ tail = [eos_msg]) /\
      Forall (fun c => 1 <= List.length c <= 3840) cs /\
      audio = List.concat cs ++ rest /\
      (snd out = None -> rest = [] /\ tail = [eos_msg]).
Proof.
  intros Data codec dial write params audio w0 before ctx_done prefer_ctx wr after sel
         out ow wr' Hs E.
  destruct (stt_Transcribe_cases dial write params audio w0 before ctx_done prefer_ctx
                                 wr after sel Hs)
    as [B|(out1 & w & wr1 & R & _ & _ & Hcases)]; cbv zeta in *;
    [rewrite B in E; discriminate|].
  rewrite R in E. injection E as <- <- <-.
  destruct (send_chunks_from audio 0 wr) as (cs & Hs' & Hf & _ & _ & Hc).
  assert (C : STTMore.chunkSize = 3840) by reflexivity.
  rewrite C in *. cbn [skipn] in Hc.
  destruct Hcases as [(e & -> & ->)|[(e & -> & -> & F)|[(why & -> & S & F)
                     |(S & F & Ho)]]].
  - exists [], audio, []. simpl. rewrite app_nil_r.
    repeat split; auto; try discriminate; try constructor.
  - rewrite F in Hc. destruct Hc as (_ & Hc).
    exists cs, (skipn (List.length cs * 3840) audio), [].
    rewrite app_nil_r, Hc, firstn_skipn.
    repeat split; auto; try discriminate; try constructor.
  - rewrite F in Hc. exists cs, [], [].
    rewrite !app_nil_r, Hc, S. repeat split; auto; try discriminate; try constructor.
  - rewrite F in Hc. exists cs, [], [eos_msg].
    rewrite app_nil_r, Hc, S, Hs', <- app_assoc. repeat split; auto.
Qed.

Lemma stt_transcribe_protocol_witness :
  STT.Stream (inl plain) None stt_params = inl (stt_session plain) /\
  (exists out ow wr',
     STTMore.Transcribe (inl plain) None stt_params (list_byte_of_string "abcdef")
       [f_ready "req-1"] None false (mkWriter [] [])
       [f_text "Hello"; f_end_of_stream]
       [STT.GotText {| Text := "Hello"; StartS := float64_zero; StreamID := None |};
        STT.GotClosed]
     = Returns (out, ow, wr') /\
     exists (cs : list bytes) (rest : bytes) (tail : list outbound),
       sent wr' = sent (mkWriter [] []) ++ map audio_msg cs ++ tail /\
       (tail = [] \/ tail = [eos_msg]) /\
       Forall (fun c => 1 <= List.length c <= 3840) cs /\
       list_byte_of_string "abcdef" = List.concat cs ++ rest /\
       (snd out = None -> rest = [] /\ tail = [eos_msg])).
Proof.
  split; [reflexivity|].
  eexists _, _, _. split; [vm_compute; reflexivity|].
  eapply (stt_transcribe_protocol frame codec (inl plain) None stt_params
            (list_byte_of_string "abcdef") (stt_session plain)
            [f_ready "req-1"] None false (mkWriter [] [])
            [f_text "Hello"; f_end_of_stream]
            [STT.GotText {| Text := "Hello"; StartS := float64_zero; StreamID := None |};
             STT.GotClosed]);
    [reflexivity|lazy; reflexivity].
Defined.



Section WireFacts.

Lemma wire_audio_frame (s : string) :
  kind_of (f_audio s) = KOther /\
  TTSMore.audio_payload (f_audio s) = Wire.DecodeString s.
Proof. split; reflexivity. Qed.

Lemma wire_audio_frames (bs : list bytes) :
  let reads := map (fun b => f_audio (Base64.EncodeToString b)) bs ++ [f_end_of_stream] in
  TTSMore.chunks_of reads = bs /\
  TTSMore.first_error reads = None /\
  terminated_by (map kind_of reads) = true.
Proof.
  induction bs as [|b bs IH]; [repeat split|].
  cbv zeta in *. destruct IH as (Hc & He & Ht).
  destruct (wire_audio_frame (Base64.EncodeToString b)) as (K & P).
  destruct (Base64_round_trip b) as (R & _).
  cbn [map app TTSMore.chunks_of TTSMore.first_error terminated_by].
  rewrite K, P, R. cbn [terminal terminated_by]. rewrite Hc, He, Ht. repeat split.
Qed.

End WireFacts.

(** X16 (tts.go, handleMessages and Collect, with the STT stream's
    SendAudio encoding): audio sent as frames of type "audio" carrying the
    standard base64 of each chunk, then an end of stream, arrives intact:
    the queue holds the first 100 chunks byte for byte, and [Collect]
    returns their concatenation with a nil error. *)
Theorem tts_audio_frames_round_trip :
  forall dial write params w0 (bs : list bytes),
    TTS.Stream dial write params = inl w0 ->
    exists w,
      TTS.handleMessages
        (map (fun b => f_audio (Base64.EncodeToString b)) bs ++ [f_end_of_stream]) w0
      = Ok tt w /\
      buf (TTSMore.Audio (TTS.stream w)) = firstn 100 bs /\
      TTS.Collect (TTS.selects_of (TTS.stream w)) (TTS.stream w)
      = Returns (Some {| RawData := List.concat (firstn 100 bs);
                         SampleRate := 48000;
                         tr_RequestID := TTSMore.RequestID (TTS.stream w) |}, None).
Proof.
  intros dial write params w0 bs Hs.
  destruct (wire_audio_frames bs) as (Hc & He & Ht). cbv zeta in *.
  destruct (tts_collect_after_reads frame codec dial write params w0 _ Hs Ht)
    as (w & E & C).
  exists w. split; [exact E|].
  rewrite He, Hc in C. split; [|exact C].
  pose proof (TTSFacts.tts_Inv_Stream _ _ _ _ Hs) as H0.
  destruct (tts_Stream_fresh _ _ _ _ Hs) as (D0 & _ & B0 & _).
  rewrite TTSFacts.tts_handleMessages_run in E.
  unfold TTSMore.Audio.
  rewrite (TTSFacts.tts_run_fill _ w0 w H0 E), D0, B0. simpl.
  rewrite fill_nil, Hc. reflexivity.
Qed.

Lemma tts_audio_frames_round_trip_witness :
  TTS.Stream (inl plain) None (tts_params FormatPCM) = inl (tts_session plain) /\
  exists w,
    TTS.handleMessages
      (map (fun b => f_audio (Base64.EncodeToString b))
           [list_byte_of_string "ab"; list_byte_of_string "cde"] ++ [f_end_of_stream])
      (tts_session plain)
    = Ok tt w /\
    buf (TTSMore.Audio (TTS.stream w))
    = firstn 100 [list_byte_of_string "ab"; list_byte_of_string "cde"] /\
    TTS.Collect (TTS.selects_of (TTS.stream w)) (TTS.stream w)
    = Returns (Some {| RawData := List.concat
                                    (firstn 100 [list_byte_of_string "ab";
                                                 list_byte_of_string "cde"]);
                       SampleRate := 48000;
                       tr_RequestID := TTSMore.RequestID (TTS.stream w) |}, None).
Proof.
  split; [reflexivity|].
  apply (tts_audio_frames_round_trip (inl plain) None (tts_params FormatPCM)
           (tts_session plain) [list_byte_of_string "ab"; list_byte_of_string "cde"]);
    reflexivity.
Defined.

(** * The REST side *)

Section TextFacts.

Lemma append_nil_r (s : string) : (s ++ "")%string = s.
Proof. induction s as [|c s IH]; simpl; congruence. Qed.

Lemma string_app_assoc (a b c : string) : ((a ++ b) ++ c)%string = (a ++ b ++ c)%string.
Proof. induction a as [|x a IH]; simpl; congruence. Qed.

Lemma length_append (a b : string) :
  String.length (a ++ b) = String.length a + String.length b.
Proof. induction a as [|x a IH]; simpl; congruence. Qed.

Lemma substring_append (a b : string) :
  substring 0 (String.length a) (a ++ b) = a.
Proof.
  induction a as [|x a IH]; simpl.
  - destruct b; reflexivity.
  - now rewrite IH.
Qed.

Lemma append_not_empty (a b : string) : a <> "" -> (a ++ b)%string <> "".
Proof. destruct a; [congruence|discriminate]. Qed.

(** Dropping the last character of a string that ends in [&]. *)
Lemma drop_last_amp (a : string) :
  substring 0 (String.length (a ++ "&") - 1) (a ++ "&") = a.
Proof.
  rewrite length_append. simpl String.length.
  replace (String.length a + 1 - 1) with (String.length a) by lia.
  apply substring_append.
Qed.

Lemma nonempty_app_r (a b : string) : b <> "" -> (a ++ b)%string <> "".
Proof. destruct a; [simpl; auto|discriminate]. Qed.

Lemma drop_last_app (a b : string) :
  b <> "" ->
  substring 0 (String.length (a ++ b) - 1) (a ++ b)
  = (a ++ substring 0 (String.length b - 1) b)%string.
Proof.
  intros Hb. induction a as [|x a IH]; [reflexivity|].
  cbn [append String.length].
  destruct (String.length (a ++ b)) as [|n] eqn:L.
  - destruct a; destruct b; simpl in L; congruence.
  - cbn [Nat.sub]. rewrite ?Nat.sub_0_r.
    cbn [substring]. f_equal.
    try rewrite L in IH. cbn [Nat.sub] in IH. rewrite ?Nat.sub_0_r in IH. exact IH.
Qed.

End TextFacts.

Section ErrorFacts.
Import Errors.

Lemma validation_loop_join (rest : list ValidationErrorDetail) : forall i p m,
  validation_loop (S i) rest (p ++ m)
  = (p ++ fold_left (fun b s => b ++ "; " ++ s) (map Msg rest) m)%string.
Proof.
  induction rest as [|e rest IH]; intros i p m; [reflexivity|].
  cbn [validation_loop map fold_left]. cbv zeta.
  change (0 <? S i)%nat with true. cbv iota.
  rewrite <- (IH (S i) p (m ++ "; " ++ Msg e)%string).
  now rewrite !string_app_assoc.
Qed.

Lemma validation_text st errs :
  Error (ValidationError st errs) =
  match errs with
  | [] => "validation error"
  | _ :: _ => ("validation error: " ++ Join (map Msg errs) "; ")%string
  end.
Proof.
  destruct errs as [|e rest]; [reflexivity|].
  cbn [Error List.length Nat.eqb validation_loop]. cbv zeta.
  change (0 <? 0)%nat with false. cbv iota.
  rewrite validation_loop_join.
  destruct rest; reflexivity.
Qed.

Lemma defaulted_not_empty (m d : string) :
  d <> "" -> (if m =? "" then d else m) <> "".
Proof.
  intros Hd. destruct (String.eqb_spec m ""); congruence.
Qed.

End ErrorFacts.

(** X17 (errors.go, the Error method of ValidationError): the message
    built by the loop is "validation error" when there are no details,
    and otherwise "validation error: " followed by the [Msg] of the
    details in order, joined by "; " ([strings.Join]); no separator comes
    first or last. *)
Theorem validation_error_message :
  forall (status : Z) (errs : list Errors.ValidationErrorDetail),
    Errors.Error (Errors.ValidationError status errs) =
    match errs with
    | [] => "validation error"
    | _ :: _ => ("validation error: " ++ Join (map Errors.Msg errs) "; ")%string
    end.
Proof.
  intros status errs. destruct errs as [|e rest]; [reflexivity|].
  cbn [Errors.Error List.length Nat.eqb Errors.validation_loop]. cbv zeta.
  change (0 <? 0)%nat with false. cbv iota.
  rewrite validation_loop_join.
  destruct rest; reflexivity.
Qed.

(** X18 (errors.go, handleAPIError with the Error methods): whatever
    the status, the headers and the body of the response, and whatever
    the JSON decoder and [strconv.Atoi] make of them, the status fixes
    the type of the error returned: ValidationError (with status 422) for
    422, AuthenticationError for 401 and 403, NotFoundError for 404,
    RateLimitError for 429 (its retry-after being 0 without the header
    and what [Atoi] returns otherwise, its error ignored),
    InternalServerError with that status from 500 on, and APIError with
    that status and the body for every other status, so also for a 2xx or
    3xx one.  Its message is the body when the body is not JSON, and the
    detail when the body is a JSON object whose only member is a string
    detail; and the text of the error is never empty (an empty message
    falls back on the default text of the type). *)
Theorem api_error_by_status :
  forall (parse : string -> Wire.frame) (Atoi : string -> Z * bool)
         (resp : Errors.Response),
    let status := Errors.StatusCode resp in
    let e := Errors.handleAPIError parse Atoi resp in
    let retry := if Errors.Header_RetryAfter resp =? "" then 0%Z
                 else fst (Atoi (Errors.Header_RetryAfter resp)) in
    Errors.Error e <> "" /\
    (status = 422%Z -> exists errs, e = Errors.ValidationError 422 errs) /\
    (exists m,
        (forall raw, parse (Errors.Body resp) = Wire.Garbage raw -> m = Errors.Body resp) /\
        (forall s, parse (Errors.Body resp)
                   = Wire.Value (Wire.JObject [("detail", Wire.JString s)]) -> m = s) /\
        (status = 401%Z \/ status = 403%Z -> e = Errors.AuthenticationError m) /\
        (status = 404%Z -> e = Errors.NotFoundError m) /\
        (status = 429%Z -> e = Errors.RateLimitError m retry) /\
        ((500 <= status)%Z -> e = Errors.InternalServerError status m) /\
        ((status < 500)%Z -> status <> 422%Z -> status <> 401%Z -> status <> 403%Z ->
         status <> 404%Z -> status <> 429%Z ->
         e = Errors.APIError status m (Errors.Body resp))).
Proof.
  intros parse Atoi resp. cbv zeta. unfold Errors.handleAPIError. cbv zeta.
  set (msg := match fst (Wire.Unmarshal Errors.detail_field None (parse (Errors.Body resp)))
              with Some (Wire.JString s) => s | _ => Errors.Body resp end).
  assert (Hraw : forall raw, parse (Errors.Body resp) = Wire.Garbage raw ->
                             msg = Errors.Body resp).
  { intros raw E. unfold msg. rewrite E. reflexivity. }
  assert (Hdet : forall s, parse (Errors.Body resp)
                           = Wire.Value (Wire.JObject [("detail", Wire.JString s)]) ->
                           msg = s).
  { intros s E. unfold msg. rewrite E. reflexivity. }
  destruct (Z.eqb_spec (Errors.StatusCode resp) 422) as [E1|N1].
  { destruct (Wire.Unmarshal Errors.httpValidationError_field []
                (parse (Errors.Body resp))) as [errs failed].
    split; [destruct failed; rewrite validation_text; [|destruct errs]; discriminate|].
    split; [intros _; destruct failed; eauto|].
    exists msg. split; [exact Hraw|]. split; [exact Hdet|].
    repeat split; intros; exfalso; intuition lia. }
  split.
  { destruct (Z.eqb_spec (Errors.StatusCode resp) 401) as [E2|N2];
      [cbn [orb Errors.Error]; apply defaulted_not_empty; discriminate|].
    destruct (Z.eqb_spec (Errors.StatusCode resp) 403) as [E3|N3];
      [cbn [orb Errors.Error]; apply defaulted_not_empty; discriminate|].
    cbn [orb].
    destruct (Z.eqb_spec (Errors.StatusCode resp) 404) as [E4|N4];
      [cbn [Errors.Error]; apply defaulted_not_empty; discriminate|].
    destruct (Z.eqb_spec (Errors.StatusCode resp) 429) as [E5|N5];
      [cbn [Errors.Error]; apply defaulted_not_empty; discriminate|].
    destruct (Z.leb_spec 500 (Errors.StatusCode resp)) as [L|L]; cbn [Errors.Error];
      [apply defaulted_not_empty; discriminate|discriminate]. }
  split; [intros E; congruence|].
  exists msg. split; [exact Hraw|]. split; [exact Hdet|].
  destruct (Z.eqb_spec (Errors.StatusCode resp) 401) as [E2|N2];
    [cbn [orb]; repeat split; intros;
     first [reflexivity|exfalso; intuition lia]|].
  destruct (Z.eqb_spec (Errors.StatusCode resp) 403) as [E3|N3];
    [cbn [orb]; repeat split; intros;
     first [reflexivity|exfalso; intuition lia]|].
  cbn [orb].
  destruct (Z.eqb_spec (Errors.StatusCode resp) 404) as [E4|N4];
    [repeat split; intros; first [reflexivity|exfalso; intuition lia]|].
  destruct (Z.eqb_spec (Errors.StatusCode resp) 429) as [E5|N5];
    [repeat split; intros; first [reflexivity|exfalso; intuition lia]|].
  destruct (Z.leb_spec 500 (Errors.StatusCode resp)) as [L|L];
    repeat split; intros; first [reflexivity|exfalso; intuition lia].
Qed.

(** X19 (voices service, List): the URL requested is the base URL
    followed by "/voices/" and, when some parameter is set, "?" and the
    pairs present ("skip=N" for a positive skip, "limit=N" for a positive
    limit, "include_catalog=true"), in that order, joined by "&": a zero
    or negative skip or limit is left out without notice, with nil
    parameters or none set there is no "?", and the URL never ends in
    "&". *)
Theorem voices_list_url :
  forall (baseURL : string) (params : Voices.VoiceListParams),
    let pairs :=
      (if (0 <? Voices.Skip params)%Z
       then [("skip=" ++ Itoa (Voices.Skip params))%string] else []) ++
      (if (0 <? Voices.Limit params)%Z
       then [("limit=" ++ Itoa (Voices.Limit params))%string] else []) ++
      (if Voices.IncludeCatalog params then ["include_catalog=true"] else []) in
    Voices.List_url baseURL None = (baseURL ++ "/voices/")%string /\
    Voices.List_url baseURL (Some params) =
    (baseURL ++ "/voices/" ++
     match pairs with
     | [] => ""
     | _ :: _ => "?" ++ Join pairs "&"
     end)%string.
Proof.
  intros baseURL params. cbv zeta. split; [reflexivity|].
  unfold Voices.List_url. cbv zeta.
  destruct (0 <? Voices.Skip params)%Z, (0 <? Voices.Limit params)%Z,
    (Voices.IncludeCatalog params); cbn [app Join fold_left];
    try reflexivity;
    (replace (1 <? _)%nat with true
      by (symmetry; apply Nat.ltb_lt; rewrite ?length_append; simpl; lia));
    rewrite ?string_app_assoc;
    repeat (rewrite drop_last_app by (repeat apply nonempty_app_r; discriminate));
    simpl substring; rewrite ?append_nil_r; reflexivity.
Qed.


(** * The client and its options *)

Section ClientFacts.
Import ClientCfg.

Lemma apply_all_app (a b : list ClientOption) : forall c h,
  apply_all (a ++ b) c h =
  match apply_all a c h with
  | Returns (c', h') => apply_all b c' h'
  | Blocked => Blocked
  | Panics why => Panics why
  end.
Proof.
  induction a as [|o a IH]; intros c h; [reflexivity|].
  cbn [app apply_all]. destruct (apply_opt o c h) as [|[c1 h1]|why]; auto.
Qed.

Lemma apply_all_cons o opts c h c' h' :
  apply_all (o :: opts) c h = Returns (c', h') ->
  exists c1 h1, apply_opt o c h = Returns (c1, h1) /\ apply_all opts c1 h1 = Returns (c', h').
Proof.
  cbn [apply_all]. destruct (apply_opt o c h) as [|[c1 h1]|why]; try discriminate.
  eauto.
Qed.

Lemma apply_all_split pre o post c h c' h' :
  apply_all (pre ++ o :: post) c h = Returns (c', h') ->
  exists c0 h0 c1 h1,
    apply_all pre c h = Returns (c0, h0) /\
    apply_opt o c0 h0 = Returns (c1, h1) /\
    apply_all post c1 h1 = Returns (c', h').
Proof.
  rewrite apply_all_app.
  destruct (apply_all pre c h) as [|[c0 h0]|why]; try discriminate.
  intros E. apply apply_all_cons in E as (c1 & h1 & E1 & E2). eauto 8.
Qed.

(** What an option leaves alone. *)
Lemma apply_opt_fields o c h c' h' :
  apply_opt o c h = Returns (c', h') ->
  ((forall k, o <> WithAPIKey k) -> apiKey c' = apiKey c) /\
  ((forall r, o <> WithRegion r) -> (forall u, o <> WithBaseURL u) ->
   baseURL c' = baseURL c /\ wsURL c' = wsURL c) /\
  ((forall r, o <> WithRegion r) -> region c' = region c).
Proof.
  destruct o as [k|r|u|d|p|]; unfold apply_opt; cbv zeta; [| | | | |discriminate].
  1-3,5: intros E; injection E as E1 E2; subst c' h'; cbn; repeat split; auto;
    intros; exfalso;
    match goal with H : forall x, _ <> _ |- _ => solve [eapply H; reflexivity] end.
  - destruct (httpClient_ c) as [a|]; [|discriminate].
    destruct (store h a _); [|discriminate].
    intros E; injection E as E1 E2; subst c' h'; cbn; repeat split; auto.
Qed.

Lemma apply_all_keeps_key opts : forall c h c' h',
  (forall k, ~ In (WithAPIKey k) opts) ->
  apply_all opts c h = Returns (c', h') -> apiKey c' = apiKey c.
Proof.
  induction opts as [|o opts IH]; intros c h c' h' Hn E.
  - injection E as <- <-. reflexivity.
  - apply apply_all_cons in E as (c1 & h1 & E1 & E2).
    rewrite (IH c1 h1 c' h'); [|intros k Hk; apply (Hn k); now right|exact E2].
    apply (apply_opt_fields _ _ _ _ _ E1).
    intros k ->. apply (Hn k). now left.
Qed.

Lemma apply_all_keeps_urls opts : forall c h c' h',
  (forall r, ~ In (WithRegion r) opts) -> (forall u, ~ In (WithBaseURL u) opts) ->
  apply_all opts c h = Returns (c', h') ->
  baseURL c' = baseURL c /\ wsURL c' = wsURL c.
Proof.
  induction opts as [|o opts IH]; intros c h c' h' Hr Hu E.
  - injection E as <- <-. auto.
  - apply apply_all_cons in E as (c1 & h1 & E1 & E2).
    destruct (IH c1 h1 c' h') as (-> & ->);
      [intros r Hk; apply (Hr r); now right|intros u Hk; apply (Hu u); now right
      |exact E2|].
    apply (apply_opt_fields _ _ _ _ _ E1).
    + intros r ->. apply (Hr r). now left.
    + intros u ->. apply (Hu u). now left.
Qed.

Lemma index_unknown (r : Region) :
  r <> RegionEU -> r <> RegionUS -> index apiURLs r = "" /\ index wsURLs r = "".
Proof.
  intros H1 H2. unfold apiURLs, wsURLs. cbn [index].
  destruct (String.eqb_spec RegionEU r); [congruence|].
  destruct (String.eqb_spec RegionUS r); [congruence|]. auto.
Qed.

Lemma NewClient_inv opts env h r h' :
  NewClient opts env h = Returns (r, h') ->
  exists c,
    apply_all opts
      (mkClient "" RegionEU (index apiURLs RegionEU) (index wsURLs RegionEU)
                (30 * second) (Some (List.length h)))
      (h ++ [{| Timeout := 30 * second |}]) = Returns (c, h') /\
    let key := if apiKey c =? "" then env else apiKey c in
    (key = "" /\
     r = inr (Errors.AuthenticationError
                "API key is required. Use WithAPIKey option or set GRADIUM_API_KEY environment variable.")
     \/
     key <> "" /\
     r = inl (mkClient key (region c) (baseURL c) (wsURL c) (timeout c) (httpClient_ c))).
Proof.
  unfold NewClient. cbv zeta.
  destruct (apply_all opts _ _) as [|[c h1]|why]; try discriminate.
  intros E. exists c.
  destruct (String.eqb_spec (apiKey c) "") as [Ek|Nk].
  - cbn [apiKey] in E. destruct (String.eqb_spec env "") as [Ee|Ne].
    + injection E as <- <-. auto.
    + injection E as <- <-. auto.
  - destruct (String.eqb_spec (apiKey c) ""); [congruence|].
    injection E as <- <-. split; [reflexivity|]. right. split; [exact Nk|].
    destruct c; reflexivity.
Qed.

End ClientFacts.

Section URLFacts.
Import ClientCfg.

Lemma chars_app (a b : string) :
  list_ascii_of_string (a ++ b) = list_ascii_of_string a ++ list_ascii_of_string b.
Proof. induction a as [|x a IH]; simpl; congruence. Qed.

Lemma prefix_chars (old : string) : forall s c,
  String.prefix old s = true ->
  In c (list_ascii_of_string old) -> In c (list_ascii_of_string s).
Proof.
  induction old as [|x old IH]; intros s c Hp Hc; [destruct Hc|].
  destruct s as [|y s]; [discriminate|].
  cbn [String.prefix] in Hp. destruct (ascii_dec x y) as [->|]; [|discriminate].
  destruct Hc as [<-|Hc]; [now left|right; eauto].
Qed.

(** Nothing is replaced in a string that lacks a character of [old]. *)
Lemma Replace1_absent (c : ascii) (old new : string) : forall s,
  In c (list_ascii_of_string old) -> ~ In c (list_ascii_of_string s) ->
  Replace1 s old new = s.
Proof.
  induction s as [|y s IH]; intros Ho Hs.
  - cbn [Replace1]. destruct (String.prefix old "") eqn:P; [|reflexivity].
    exfalso. apply Hs. eapply prefix_chars; eauto.
  - cbn [Replace1]. destruct (String.prefix old (String y s)) eqn:P.
    + exfalso. apply Hs. eapply prefix_chars; eauto.
    + f_equal. apply IH; [exact Ho|]. intros Hin. apply Hs. now right.
Qed.

Lemma substring_all (s : string) : substring 0 (String.length s) s = s.
Proof. induction s as [|x s IH]; simpl; congruence. Qed.

Lemma HasSuffix_slash (a rest : string) :
  rest <> "" -> HasSuffix (a ++ rest) "/" = HasSuffix rest "/".
Proof.
  intros Hr. induction a as [|x a IH]; [reflexivity|].
  cbn [append HasSuffix]. rewrite IH.
  destruct (String.eqb_spec (String x (a ++ rest)) "/") as [E|]; [|reflexivity].
  exfalso. injection E as _ E. destruct a; simpl in E; congruence.
Qed.

Lemma TrimSuffix_slash (s : string) :
  s <> "" -> HasSuffix s "/" = false ->
  TrimSuffix s "/" = s /\ TrimSuffix (s ++ "/") "/" = s.
Proof.
  intros Hs Hf. unfold TrimSuffix. rewrite Hf. split; [reflexivity|].
  rewrite HasSuffix_slash by discriminate. cbn [HasSuffix String.eqb Ascii.eqb].
  simpl. clear. induction s as [|x s IH]; [reflexivity|].
  cbn [append String.length]. 
  destruct (String.length (s ++ "/")) as [|n] eqn:L.
  - destruct s; discriminate.
  - cbn [Nat.sub] in *. rewrite ?Nat.sub_0_r in *. cbn [substring]. now f_equal.
Qed.

Lemma no_colon_speech (rest : string) :
  ~ In ":"%char (list_ascii_of_string rest) ->
  ~ In ":"%char (list_ascii_of_string (rest ++ "/speech")).
Proof.
  intros H. rewrite chars_app, in_app_iff. intros [Hin|Hin]; [auto|].
  simpl in Hin. repeat destruct Hin as [Hin|Hin]; try discriminate. exact Hin.
Qed.

Lemma Replace1_unfold (s old new : string) :
  Replace1 s old new =
  if String.prefix old s
  then (new ++ substring (String.length old) (String.length s - String.length old) s)%string
  else match s with
       | EmptyString => EmptyString
       | String c r => String c (Replace1 r old new)
       end.
Proof. destruct s; reflexivity. Qed.

Lemma prefix_app (old s : string) : String.prefix old (old ++ s) = true.
Proof.
  induction old as [|x old IH]; [destruct s; reflexivity|].
  cbn [append String.prefix]. destruct (ascii_dec x x); [exact IH|congruence].
Qed.

Lemma substring_skip (a b : string) :
  substring (String.length a) (String.length (a ++ b) - String.length a) (a ++ b) = b.
Proof.
  induction a as [|x a IH].
  - cbn [append String.length]. rewrite Nat.sub_0_r. apply substring_all.
  - cbn [append String.length Nat.sub substring]. exact IH.
Qed.

(** The first occurrence is replaced when it is at the start. *)
Lemma Replace1_prefix (old new s : string) :
  Replace1 (old ++ s) old new = (new ++ s)%string.
Proof. now rewrite Replace1_unfold, prefix_app, substring_skip. Qed.

(** A first character that is not that of [old] is stepped over. *)
Lemma Replace1_skip (c x : ascii) (s old new : string) :
  c <> x -> Replace1 (String c s) (String x old) new = String c (Replace1 s (String x old) new).
Proof.
  intros H. rewrite Replace1_unfold. cbn [String.prefix].
  destruct (ascii_dec x c); [congruence|reflexivity].
Qed.

Lemma ws_of_https (rest : string) :
  ~ In ":"%char (list_ascii_of_string rest) ->
  Replace1 (Replace1 ("https://" ++ rest) "https://" "wss://" ++ "/speech")
           "http://" "ws://"
  = ("wss://" ++ rest ++ "/speech")%string.
Proof.
  intros H. rewrite Replace1_prefix. cbn [append].
  rewrite !Replace1_skip by discriminate.
  rewrite (Replace1_absent ":"); [reflexivity|simpl; tauto|].
  now apply no_colon_speech.
Qed.

Lemma ws_of_http (rest : string) :
  ~ In ":"%char (list_ascii_of_string rest) ->
  Replace1 (Replace1 ("http://" ++ rest) "https://" "wss://" ++ "/speech")
           "http://" "ws://"
  = ("ws://" ++ rest ++ "/speech")%string.
Proof.
  intros H.
  assert (E : Replace1 ("http://" ++ rest) "https://" "wss://" = ("http://" ++ rest)%string).
  { cbn [append]. rewrite Replace1_unfold.
    replace (String.prefix "https://" _) with false
      by (cbn [String.prefix]; repeat (destruct (ascii_dec _ _); try congruence)).
    rewrite !Replace1_skip by discriminate.
    rewrite (Replace1_absent ":"); [reflexivity|simpl; tauto|exact H]. }
  rewrite E.
  change (("http://" ++ rest) ++ "/speech")%string
    with ("http://" ++ (rest ++ "/speech"))%string.
  apply Replace1_prefix.
Qed.

Lemma ws_of_bare (rest : string) :
  ~ In ":"%char (list_ascii_of_string rest) ->
  Replace1 (Replace1 rest "https://" "wss://" ++ "/speech") "http://" "ws://"
  = (rest ++ "/speech")%string.
Proof.
  intros H.
  rewrite (Replace1_absent ":" "https://" "wss://" rest); [|simpl; tauto|exact H].
  apply (Replace1_absent ":"); [simpl; tauto|]. now apply no_colon_speech.
Qed.

End URLFacts.

Section HeapFacts.
Import ClientCfg.

Lemma store_some (h : heap) : forall a v,
  a < List.length h ->
  exists h', store h a v = Some h' /\ List.length h' = List.length h /\
             nth_error h' a = Some v.
Proof.
  induction h as [|x h IH]; intros a v Ha; [simpl in Ha; lia|].
  destruct a as [|a]; cbn [store].
  - eexists. split; [reflexivity|]. split; reflexivity.
  - destruct (IH a v) as (h' & -> & L & N); [simpl in Ha; lia|].
    eexists. split; [reflexivity|]. split; [simpl; now rewrite L|exact N].
Qed.

(** What an option does to the pointer and to the heap. *)
Lemma apply_opt_heap o c h :
  (forall a, o = WithHTTPClient (Some a) -> a < List.length h) ->
  match httpClient_ c with Some a => a < List.length h | None => True end ->
  match o, httpClient_ c with
  | WithTimeout _, None => exists why, apply_opt o c h = Panics why
  | NilOption, _ => exists why, apply_opt o c h = Panics why
  | _, _ =>
      exists c' h', apply_opt o c h = Returns (c', h') /\
        List.length h' = List.length h /\
        match httpClient_ c' with Some a => a < List.length h' | None => True end /\
        httpClient_ c' = match o with WithHTTPClient p => p | _ => httpClient_ c end /\
        match o with
        | WithTimeout d =>
            timeout c' = d /\
            forall a, httpClient_ c = Some a -> nth_error h' a = Some {| Timeout := d |}
        | _ => h' = h /\ timeout c' = timeout c
        end
  end.
Proof.
  intros Hv Hc. destruct o as [k|r|u|d|p|]; cbn [apply_opt]; cbv zeta;
    [| | | | |destruct (httpClient_ c); eauto].
  1-3: eexists _, _; (split; [reflexivity|]); cbn; auto.
  - destruct (httpClient_ c) as [a|] eqn:P; [|eauto].
    destruct (store_some h a {| Timeout := d |} Hc) as (h' & -> & L & N).
    eexists _, _. split; [reflexivity|]. cbn. rewrite ?P, ?L.
    repeat split; auto. intros a' E. injection E as <-. exact N.
  - eexists _, _. split; [reflexivity|]. cbn. repeat split; auto.
    destruct p as [a|]; [apply Hv; reflexivity|exact I].
Qed.

Lemma nil_dereference_run opts : forall c h,
  (forall a, In (WithHTTPClient (Some a)) opts -> a < List.length h) ->
  match httpClient_ c with Some a => a < List.length h | None => True end ->
  match apply_all opts c h with
  | Panics _ =>
      nil_dereference (match httpClient_ c with None => true | Some _ => false end) opts
      = true
  | Returns (c', h') =>
      nil_dereference (match httpClient_ c with None => true | Some _ => false end) opts
      = false /\
      List.length h' = List.length h
  | Blocked => False
  end.
Proof.
  induction opts as [|o opts IH]; intros c h Hv Hc; [cbn; auto|].
  pose proof (apply_opt_heap o c h (fun a E => Hv a (or_introl E)) Hc) as A.
  cbn [apply_all nil_dereference].
  assert (Step : forall c' h',
             apply_opt o c h = Returns (c', h') ->
             List.length h' = List.length h ->
             match httpClient_ c' with Some a => a < List.length h' | None => True end ->
             forall b, nil_dereference
                         (match httpClient_ c' with None => true | Some _ => false end) opts
                       = b ->
             match apply_all opts c' h' with
             | Panics _ => b = true
             | Returns (_, h2) => b = false /\ List.length h2 = List.length h
             | Blocked => False
             end).
  { intros c' h' _ L Hc' b <-.
    specialize (IH c' h'). rewrite L in IH.
    specialize (IH (fun a Hin => Hv a (or_intror Hin))).
    rewrite L in Hc'. specialize (IH Hc').
    destruct (apply_all opts c' h') as [|[c2 h2]|why]; auto. }
  destruct o as [k|r|u|d|p|];
    [| | | | |cbv beta iota in A; destruct A as (why & ->); reflexivity].
  1-3: cbv beta iota in A;
    destruct A as (c' & h' & E & L & Hc' & Hp & _); rewrite E;
    apply (Step c' h' E L Hc'); now rewrite Hp.
  - destruct (httpClient_ c) as [a|] eqn:P.
    + destruct A as (c' & h' & E & L & Hc' & Hp & _). rewrite E.
      apply (Step c' h' E L Hc'). now rewrite Hp.
    + destruct A as (why & ->). reflexivity.
  - cbv beta iota in A.
    destruct A as (c' & h' & E & L & Hc' & Hp & _). rewrite E.
    apply (Step c' h' E L Hc'). now rewrite Hp.
Qed.

End HeapFacts.

Section AliasFacts.
Import ClientCfg.

Lemma store_nth (h : heap) : forall a v h',
  store h a v = Some h' -> nth_error h' a = Some v.
Proof.
  induction h as [|x h IH]; intros a v h' E; [discriminate|].
  destruct a as [|a]; cbn [store] in E.
  - injection E as <-. reflexivity.
  - destruct (store h a v) as [h1|] eqn:S; [|discriminate].
    injection E as <-. cbn. eauto.
Qed.

Lemma apply_opt_ptr o c h c' h' :
  apply_opt o c h = Returns (c', h') ->
  ((forall p, o <> WithHTTPClient p) -> httpClient_ c' = httpClient_ c) /\
  ((forall d, o <> WithTimeout d) -> h' = h /\ timeout c' = timeout c).
Proof.
  destruct o as [k|r|u|d|p|]; unfold apply_opt; cbv zeta; [| | | | |discriminate].
  1-3,5: intros E; injection E as E1 E2; subst c' h'; cbn; repeat split; auto;
    intros; exfalso;
    match goal with H : forall x, _ <> _ |- _ => solve [eapply H; reflexivity] end.
  - destruct (httpClient_ c) as [a|]; [|discriminate].
    destruct (store h a _); [|discriminate].
    intros E; injection E as E1 E2; subst c' h'; cbn; repeat split; auto;
      intros; exfalso;
      match goal with H : forall x, _ <> _ |- _ => solve [eapply H; reflexivity] end.
Qed.

Lemma apply_all_keeps_ptr opts : forall c h c' h',
  (forall p, ~ In (WithHTTPClient p) opts) ->
  apply_all opts c h = Returns (c', h') -> httpClient_ c' = httpClient_ c.
Proof.
  induction opts as [|o opts IH]; intros c h c' h' Hn E.
  - injection E as <- <-. reflexivity.
  - apply apply_all_cons in E as (c1 & h1 & E1 & E2).
    rewrite (IH c1 h1 c' h'); [|intros p Hp; apply (Hn p); now right|exact E2].
    apply (apply_opt_ptr _ _ _ _ _ E1).
    intros p ->. apply (Hn p). now left.
Qed.

Lemma apply_all_keeps_heap opts : forall c h c' h',
  (forall d, ~ In (WithTimeout d) opts) ->
  apply_all opts c h = Returns (c', h') -> h' = h /\ timeout c' = timeout c.
Proof.
  induction opts as [|o opts IH]; intros c h c' h' Hn E.
  - injection E as <- <-. auto.
  - apply apply_all_cons in E as (c1 & h1 & E1 & E2).
    destruct (IH c1 h1 c' h') as (-> & ->);
      [intros d Hd; apply (Hn d); now right|exact E2|].
    apply (apply_opt_ptr _ _ _ _ _ E1).
    intros d ->. apply (Hn d). now left.
Qed.

End AliasFacts.

(** X20 (client, NewClient with WithAPIKey): the key of the client is
    that of the last [WithAPIKey] option, and the value of
    GRADIUM_API_KEY when that is empty or no such option is given; a
    client is never returned with an empty key; the only error is the
    AuthenticationError asking for a key, returned exactly when both are
    empty. *)
Theorem new_client_api_key :
  forall opts env h r h',
    ClientCfg.NewClient opts env h = Returns (r, h') ->
    match r with
    | inl c =>
        ClientCfg.APIKey c <> "" /\
        ((forall k, ~ In (ClientCfg.WithAPIKey k) opts) -> ClientCfg.APIKey c = env) /\
        (forall pre k post,
            opts = pre ++ ClientCfg.WithAPIKey k :: post ->
            (forall k', ~ In (ClientCfg.WithAPIKey k') post) ->
            ClientCfg.APIKey c = if k =? "" then env else k)
    | inr e =>
        e = Errors.AuthenticationError
              "API key is required. Use WithAPIKey option or set GRADIUM_API_KEY environment variable." /\
        env = "" /\
        (forall pre k post,
            opts = pre ++ ClientCfg.WithAPIKey k :: post ->
            (forall k', ~ In (ClientCfg.WithAPIKey k') post) -> k = "")
    end.
Proof.
  intros opts env h r h' E.
  destruct (NewClient_inv _ _ _ _ _ E) as (c & A & K). cbv zeta in K.
  assert (Hlast : forall pre k post,
             opts = pre ++ ClientCfg.WithAPIKey k :: post ->
             (forall k', ~ In (ClientCfg.WithAPIKey k') post) ->
             ClientCfg.apiKey c = k).
  { intros pre k post -> Hn.
    apply apply_all_split in A as (c0 & h0 & c1 & h1 & _ & E1 & E2).
    rewrite (apply_all_keeps_key post c1 h1 c h' Hn E2).
    cbn in E1. injection E1 as <- _. reflexivity. }
  destruct K as [(Hk & ->)|(Hk & ->)].
  - split; [reflexivity|].
    destruct (String.eqb_spec (ClientCfg.apiKey c) "") as [Ek|Nk]; [|congruence].
    split; [exact Hk|]. intros pre k post Ho Hn.
    rewrite <- (Hlast pre k post Ho Hn). exact Ek.
  - unfold ClientCfg.APIKey. cbn [ClientCfg.apiKey].
    split; [exact Hk|]. split.
    + intros Hn.
      rewrite (apply_all_keeps_key opts _ _ c h' Hn A). reflexivity.
    + intros pre k post Ho Hn. rewrite (Hlast pre k post Ho Hn). reflexivity.
Qed.

Lemma new_client_api_key_witness :
  exists c h',
    ClientCfg.NewClient [ClientCfg.WithAPIKey "first"; ClientCfg.WithRegion "us";
                         ClientCfg.WithAPIKey ""] "from-env" [] = Returns (inl c, h') /\
    ClientCfg.APIKey c <> "" /\
    ((forall k, ~ In (ClientCfg.WithAPIKey k)
                  [ClientCfg.WithAPIKey "first"; ClientCfg.WithRegion "us";
                   ClientCfg.WithAPIKey ""]) -> ClientCfg.APIKey c = "from-env") /\
    (forall pre k post,
        [ClientCfg.WithAPIKey "first"; ClientCfg.WithRegion "us"; ClientCfg.WithAPIKey ""]
        = pre ++ ClientCfg.WithAPIKey k :: post ->
        (forall k', ~ In (ClientCfg.WithAPIKey k') post) ->
        ClientCfg.APIKey c = if k =? "" then "from-env" else k).
Proof.
  eexists _, _. split; [vm_compute; reflexivity|].
  eapply (new_client_api_key
            [ClientCfg.WithAPIKey "first"; ClientCfg.WithRegion "us"; ClientCfg.WithAPIKey ""]
            "from-env" [] (inl _)).
  vm_compute; reflexivity.
Defined.

(** X21 (client, NewClient with WithRegion, BaseURL, WSURL): without a
    region or base-URL option the client uses the EU URLs; a
    [WithRegion] after which no such option comes sets both URLs to the
    entries of the two maps for that region, so for a region that is
    neither "eu" nor "us" the client is created, without error, with an
    empty base URL and an empty WebSocket URL. *)
Theorem new_client_urls :
  forall opts env h c h',
    ClientCfg.NewClient opts env h = Returns (inl c, h') ->
    ((forall r, ~ In (ClientCfg.WithRegion r) opts) ->
     (forall u, ~ In (ClientCfg.WithBaseURL u) opts) ->
     ClientCfg.BaseURL c = "https://eu.api.gradium.ai/api" /\
     ClientCfg.WSURL c = "wss://eu.api.gradium.ai/api/speech") /\
    (forall pre r post,
        opts = pre ++ ClientCfg.WithRegion r :: post ->
        (forall r', ~ In (ClientCfg.WithRegion r') post) ->
        (forall u, ~ In (ClientCfg.WithBaseURL u) post) ->
        ClientCfg.BaseURL c = ClientCfg.index ClientCfg.apiURLs r /\
        ClientCfg.WSURL c = ClientCfg.index ClientCfg.wsURLs r /\
        (r <> ClientCfg.RegionEU -> r <> ClientCfg.RegionUS ->
         ClientCfg.BaseURL c = "" /\ ClientCfg.WSURL c = "")).
Proof.
  intros opts env h c h' E.
  destruct (NewClient_inv _ _ _ _ _ E) as (c0 & A & K). cbv zeta in K.
  destruct K as [(_ & K)|(_ & K)]; [discriminate|]. injection K as ->.
  unfold ClientCfg.BaseURL, ClientCfg.WSURL. cbn [ClientCfg.baseURL ClientCfg.wsURL].
  split.
  - intros Hr Hu.
    destruct (apply_all_keeps_urls opts _ _ c0 h' Hr Hu A) as (-> & ->).
    split; reflexivity.
  - intros pre r post -> Hr Hu.
    apply apply_all_split in A as (c1 & h1 & c2 & h2 & _ & E1 & E2).
    destruct (apply_all_keeps_urls post c2 h2 c0 h' Hr Hu E2) as (-> & ->).
    cbn in E1. injection E1 as <- _. cbn [ClientCfg.baseURL ClientCfg.wsURL].
    split; [reflexivity|]. split; [reflexivity|].
    apply index_unknown.
Qed.

Lemma new_client_urls_witness :
  exists c h',
    ClientCfg.NewClient [ClientCfg.WithAPIKey "key"; ClientCfg.WithRegion "asia"] "" []
    = Returns (inl c, h') /\
    ((forall r, ~ In (ClientCfg.WithRegion r)
                  [ClientCfg.WithAPIKey "key"; ClientCfg.WithRegion "asia"]) ->
     (forall u, ~ In (ClientCfg.WithBaseURL u)
                  [ClientCfg.WithAPIKey "key"; ClientCfg.WithRegion "asia"]) ->
     ClientCfg.BaseURL c = "https://eu.api.gradium.ai/api" /\
     ClientCfg.WSURL c = "wss://eu.api.gradium.ai/api/speech") /\
    (forall pre r post,
        [ClientCfg.WithAPIKey "key"; ClientCfg.WithRegion "asia"]
        = pre ++ ClientCfg.WithRegion r :: post ->
        (forall r', ~ In (ClientCfg.WithRegion r') post) ->
        (forall u, ~ In (ClientCfg.WithBaseURL u) post) ->
        ClientCfg.BaseURL c = ClientCfg.index ClientCfg.apiURLs r /\
        ClientCfg.WSURL c = ClientCfg.index ClientCfg.wsURLs r /\
        (r <> ClientCfg.RegionEU -> r <> ClientCfg.RegionUS ->
         ClientCfg.BaseURL c = "" /\ ClientCfg.WSURL c = "")).
Proof.
  eexists _, _. split; [vm_compute; reflexivity|].
  eapply (new_client_urls [ClientCfg.WithAPIKey "key"; ClientCfg.WithRegion "asia"]
                          "" []).
  vm_compute; reflexivity.
Defined.

(** X22 (client, WithBaseURL): for a base URL made of "https://",
    "http://" or no scheme followed by a non-empty rest that has no
    colon and does not end in a slash, with or without one trailing
    slash, the option sets the base URL to scheme and rest (the trailing
    slash removed) and the WebSocket URL to "wss://", "ws://" or nothing
    followed by the rest and "/speech"; the other fields and the heap
    are untouched.  (Without a scheme the WebSocket URL is thus not a
    WebSocket URL.) *)
Theorem with_base_url_websocket_url :
  forall (rest : string) (c : ClientCfg.Client) (h : ClientCfg.heap)
         (scheme ws u : string),
    rest <> "" ->
    ClientCfg.HasSuffix rest "/" = false ->
    ~ In ":"%char (list_ascii_of_string rest) ->
    (scheme, ws) = ("https://", "wss://") \/ (scheme, ws) = ("http://", "ws://") \/
    (scheme, ws) = ("", "") ->
    u = (scheme ++ rest)%string \/ u = (scheme ++ rest ++ "/")%string ->
    ClientCfg.apply_opt (ClientCfg.WithBaseURL u) c h
    = Returns (ClientCfg.mkClient (ClientCfg.apiKey c) (ClientCfg.region c)
                 (scheme ++ rest) (ws ++ rest ++ "/speech")
                 (ClientCfg.timeout c) (ClientCfg.httpClient_ c), h).
Proof.
  intros rest c h scheme ws u Hne Hs Hc Hsch Hu.
  assert (Hne' : (scheme ++ rest)%string <> "").
  { destruct scheme; [exact Hne|discriminate]. }
  assert (Hs' : ClientCfg.HasSuffix (scheme ++ rest) "/" = false)
    by (now rewrite HasSuffix_slash).
  destruct (TrimSuffix_slash _ Hne' Hs') as (T1 & T2).
  assert (T : ClientCfg.TrimSuffix u "/" = (scheme ++ rest)%string).
  { destruct Hu as [->| ->]; [exact T1|].
    replace (scheme ++ rest ++ "/")%string with ((scheme ++ rest) ++ "/")%string
      by (clear; induction scheme; simpl; congruence).
    exact T2. }
  unfold ClientCfg.apply_opt. cbv zeta. rewrite T.
  destruct Hsch as [E|[E|E]]; injection E as -> ->.
  - now rewrite ws_of_https.
  - now rewrite ws_of_http.
  - cbn [append]. now rewrite ws_of_bare.
Qed.

Lemma with_base_url_websocket_url_witness :
  "localhost/api" <> "" /\
  ClientCfg.HasSuffix "localhost/api" "/" = false /\
  ~ In ":"%char (list_ascii_of_string "localhost/api") /\
  forall c h,
    ClientCfg.apply_opt (ClientCfg.WithBaseURL "http://localhost/api/") c h
    = Returns (ClientCfg.mkClient (ClientCfg.apiKey c) (ClientCfg.region c)
                 ("http://" ++ "localhost/api") ("ws://" ++ "localhost/api" ++ "/speech")
                 (ClientCfg.timeout c) (ClientCfg.httpClient_ c), h).
Proof.
  assert (H1 : "localhost/api" <> "") by discriminate.
  assert (H2 : ClientCfg.HasSuffix "localhost/api" "/" = false) by reflexivity.
  assert (H3 : ~ In ":"%char (list_ascii_of_string "localhost/api"))
    by (simpl; intuition discriminate).
  split; [exact H1|]. split; [exact H2|]. split; [exact H3|].
  intros c h.
  apply (with_base_url_websocket_url "localhost/api" c h "http://" "ws://"
           "http://localhost/api/" H1 H2 H3); [right; left; reflexivity|right; reflexivity].
Defined.

(** X23 (client, NewClient with WithTimeout, WithHTTPClient and a nil
    option): for options that are nil or made by the constructors of the
    package, [NewClient] panics (nil pointer dereference) exactly when a
    nil option is called, or a [WithTimeout] option is run while the
    client's HTTP client is nil, that is after a [WithHTTPClient(nil)]
    with no other [WithHTTPClient] in between; otherwise it returns,
    having allocated one HTTP client (its own) and no more.  An option
    written by the caller is outside this statement. *)
Theorem new_client_panics :
  forall opts env h,
    (forall a, In (ClientCfg.WithHTTPClient (Some a)) opts -> a < List.length h) ->
    match ClientCfg.NewClient opts env h with
    | Panics _ => ClientCfg.nil_dereference false opts = true
    | Returns (_, h') =>
        ClientCfg.nil_dereference false opts = false /\
        List.length h' = S (List.length h)
    | Blocked => False
    end.
Proof.
  intros opts env h Hv. unfold ClientCfg.NewClient. cbv zeta.
  pose proof (nil_dereference_run opts
                (ClientCfg.mkClient "" ClientCfg.RegionEU
                   (ClientCfg.index ClientCfg.apiURLs ClientCfg.RegionEU)
                   (ClientCfg.index ClientCfg.wsURLs ClientCfg.RegionEU)
                   (30 * ClientCfg.second) (Some (List.length h)))
                (h ++ [{| ClientCfg.Timeout := 30 * ClientCfg.second |}])) as R.
  cbn [ClientCfg.httpClient_] in R. rewrite length_app in R. cbn [List.length] in R.
  specialize (R (fun a Hin => Nat.lt_lt_add_r _ _ 1 (Hv a Hin))).
  specialize (R ltac:(lia)).
  destruct (ClientCfg.apply_all opts _ _) as [|[c h']|why]; [exact R| |exact R].
  destruct R as (R & L).
  destruct (ClientCfg.apiKey c =? ""); cbn [ClientCfg.apiKey];
    try destruct (env =? ""); try destruct (ClientCfg.apiKey c =? "");
    split; auto; lia.
Qed.

Lemma new_client_panics_witness :
  (forall a, In (ClientCfg.WithHTTPClient (Some a))
                [ClientCfg.WithAPIKey "key"; ClientCfg.WithHTTPClient None;
                 ClientCfg.WithTimeout 5] -> a < List.length (@nil ClientCfg.httpClient)) /\
  match ClientCfg.NewClient [ClientCfg.WithAPIKey "key"; ClientCfg.WithHTTPClient None;
                             ClientCfg.WithTimeout 5] "" [] with
  | Panics _ =>
      ClientCfg.nil_dereference false
        [ClientCfg.WithAPIKey "key"; ClientCfg.WithHTTPClient None; ClientCfg.WithTimeout 5]
      = true
  | Returns (_, h') =>
      ClientCfg.nil_dereference false
        [ClientCfg.WithAPIKey "key"; ClientCfg.WithHTTPClient None; ClientCfg.WithTimeout 5]
      = false /\
      List.length h' = S (List.length (@nil ClientCfg.httpClient))
  | Blocked => False
  end.
Proof.
  assert (H : forall a, In (ClientCfg.WithHTTPClient (Some a))
                           [ClientCfg.WithAPIKey "key"; ClientCfg.WithHTTPClient None;
                            ClientCfg.WithTimeout 5]
                        -> a < List.length (@nil ClientCfg.httpClient)).
  { intros a Hin. simpl in Hin. exfalso. intuition discriminate. }
  split; [exact H|].
  exact (new_client_panics [ClientCfg.WithAPIKey "key"; ClientCfg.WithHTTPClient None;
                            ClientCfg.WithTimeout 5] "" [] H).
Defined.

(** X24 (client, WithHTTPClient then WithTimeout): the HTTP client
    handed to [WithHTTPClient] is shared with the caller, not copied: a
    [WithTimeout] that comes later, with no other [WithHTTPClient] in
    between, overwrites the Timeout of the caller's own [http.Client];
    when no further such option follows, the client returned has that
    timeout and uses that HTTP client. *)
Theorem with_timeout_reaches_the_callers_client :
  forall pre a mid d post env h r h',
    (forall p, ~ In (ClientCfg.WithHTTPClient p) mid) ->
    (forall p, ~ In (ClientCfg.WithHTTPClient p) post) ->
    (forall d', ~ In (ClientCfg.WithTimeout d') post) ->
    ClientCfg.NewClient
      (pre ++ ClientCfg.WithHTTPClient (Some a) :: mid
           ++ ClientCfg.WithTimeout d :: post) env h
    = Returns (r, h') ->
    nth_error h' a = Some {| ClientCfg.Timeout := d |} /\
    (forall c, r = inl c ->
       ClientCfg.timeout c = d /\ ClientCfg.httpClient_ c = Some a).
Proof.
  intros pre a mid d post env h r h' Hmid Hpost Htime E.
  destruct (NewClient_inv _ _ _ _ _ E) as (c & A & K). cbv zeta in K.
  apply apply_all_split in A as (c0 & h0 & c1 & h1 & _ & E1 & A).
  apply apply_all_split in A as (c2 & h2 & c3 & h3 & A2 & E3 & A4).
  pose proof (apply_all_keeps_ptr mid c1 h1 c2 h2 Hmid A2) as P2.
  cbn in E1. injection E1 as <- <-. cbn [ClientCfg.httpClient_] in P2.
  unfold ClientCfg.apply_opt in E3. cbv zeta in E3. rewrite P2 in E3.
  destruct (ClientCfg.store h2 a _) as [h2'|] eqn:S; [|discriminate].
  injection E3 as <- <-.
  destruct (apply_all_keeps_heap post _ _ c h' Htime A4) as (-> & T).
  pose proof (apply_all_keeps_ptr post _ _ c h2' Hpost A4) as P.
  cbn in T, P. split; [exact (store_nth _ _ _ _ S)|].
  intros c' ->. destruct K as [(_ & K)|(_ & K)]; [discriminate|].
  injection K as ->. cbn. rewrite ?T, ?P, ?P2. auto.
Qed.

Lemma with_timeout_reaches_the_callers_client_witness :
  exists r h',
    ClientCfg.NewClient
      ([ClientCfg.WithAPIKey "key"]
         ++ ClientCfg.WithHTTPClient (Some 0) :: [ClientCfg.WithRegion "us"]
         ++ ClientCfg.WithTimeout 5 :: [])
      "" [{| ClientCfg.Timeout := 60 |}]
    = Returns (r, h') /\
    nth_error h' 0 = Some {| ClientCfg.Timeout := 5 |} /\
    (forall c, r = inl c ->
       ClientCfg.timeout c = 5%Z /\ ClientCfg.httpClient_ c = Some 0).
Proof.
  eexists _, _. split; [vm_compute; reflexivity|].
  eapply (with_timeout_reaches_the_callers_client
            [ClientCfg.WithAPIKey "key"] 0 [ClientCfg.WithRegion "us"] 5 [] ""
            [{| ClientCfg.Timeout := 60 |}]).
  - intros p Hin. simpl in Hin. intuition discriminate.
  - intros p Hin. exact Hin.
  - intros d Hin. exact Hin.
  - vm_compute; reflexivity.
Defined.
